(** * The gmsc lexer ([src/parser/lexer.cpp]) as a state-passing program

    The lexer object is a record of its data members; every member
    function is a function from the object to an outcome that carries the
    updated object.  A C++ exception is the outcome [Throw]; the loops of
    [readtok] run on an iteration budget and report [OutOfFuel] when it is
    exhausted, and a separate theorem shows that a budget of the size of
    the unread input is always enough. *)

From Stdlib Require Import NArith Ascii String Lia.
From stdpp Require Import base decidable option list strings.

Local Open Scope char_scope.
Local Open Scope N_scope.

(** ** Characters and text *)

(** The text of a [std::string], one [char] per element. *)
Definition chars (s : string) : list ascii := list_ascii_of_string s.

Definition NUL : ascii := "000".
Definition LF : ascii := "010".
Definition TAB : ascii := "009".
Definition DQUOTE : ascii := ascii_of_nat 34.
Definition SQUOTE : ascii := "'".
Definition BACKSLASH : ascii := "\".

(** ** Tokens *)

(** The enumerators of [TokenType] that [lexer.cpp] names. *)
Inductive TokenType : Type :=
| LineFeed | End
| NotEqual | Inferior | InferiorEqual | Superior | SuperiorEqual
| BraceLeft | BraceRight | ParenthesisLeft | ParenthesisRight
| Dot | Comma | Semicolon
| LogicAnd | LogicOr | LogicXor
| AccessorLeftArrayRef | AccessorLeftDSList | AccessorLeftDSMap
| AccessorLeftDSGrid | AccessorLeftArrayValue | AccessorRight
| Increment | Decrement
| AssignAdd | AssignSubtract | AssignMultiply | AssignDivide
| AssignAnd | AssignOr | AssignXor
| AssignShiftLeft | AssignShiftRight
| DEqual | Equal
| Plus | Minus | Multiply | Divide
| EuclDivide | EuclModulo
| BitAnd | BitOr | BitXor
| If | ElseIf | Else
| For | While | Do | Repeat | With
| LocalVar
| StringLiteral | RealLiteral | Identifier.

#[global] Instance TokenType_eq_dec : EqDecision TokenType.
Proof. solve_decision. Defined.

(** [Token{type, line, col}]; [line] and [col] are [size_t]. *)
Record Token : Type := mkToken {
  type : TokenType;
  line : N;
  col : N
}.

#[global] Instance Token_eq_dec : EqDecision Token.
Proof. solve_decision. Defined.

(** ** [Lexer::basic_matches] *)

(** Lower index = higher priority. *)
Definition basic_matches : list (list ascii * TokenType) :=
  [ ([LF], LineFeed);

    (chars "!=", NotEqual);
    (chars "<>", NotEqual);
    (chars "<", Inferior);
    (chars "<=", InferiorEqual);
    (chars ">", Superior);
    (chars ">=", SuperiorEqual);

    (chars "{", BraceLeft);
    (chars "}", BraceRight);
    (chars "(", ParenthesisLeft);
    (chars ")", ParenthesisRight);

    (chars ".", Dot);
    (chars ",", Comma);
    (chars ";", Semicolon);

    (chars "&&", LogicAnd);
    (chars "||", LogicOr);
    (chars "^^", LogicXor);

    (chars "[@", AccessorLeftArrayRef);
    (chars "[|", AccessorLeftDSList);
    (chars "[?", AccessorLeftDSMap);
    (chars "[#", AccessorLeftDSGrid);
    (chars "[", AccessorLeftArrayValue);
    (chars "]", AccessorRight);

    (chars "++", Increment);
    (chars "--", Decrement);

    (chars "+=", AssignAdd);
    (chars "-=", AssignSubtract);
    (chars "*=", AssignMultiply);
    (chars "/=", AssignDivide);
    (chars "&=", AssignAnd);
    (chars "|=", AssignOr);
    (chars "^=", AssignXor);

    (chars "<<=", AssignShiftLeft);
    (chars ">>=", AssignShiftRight);

    (chars "==", DEqual);
    (chars "=", Equal);

    (chars "+", Plus);
    (chars "-", Minus);
    (chars "*", Multiply);
    (chars "/", Divide);

    (chars "div", EuclDivide);
    (chars "mod", EuclModulo);
    (chars "%", EuclModulo);

    (chars "&", BitAnd);
    (chars "|", BitOr);
    (chars "^", BitXor);

    (chars "if", If);
    (chars "else if", ElseIf);
    (chars "else", Else);

    (chars "for", For);
    (chars "while", While);
    (chars "do", Do);
    (chars "repeat", Repeat);
    (chars "with", With);

    (chars "var", LocalVar) ].

(** ** Character classes *)

Definition is_whitespace (c : ascii) : bool :=
  Ascii.eqb c " " || Ascii.eqb c TAB.

Definition is_line_end (c : ascii) : bool :=
  Ascii.eqb c LF || Ascii.eqb c NUL.

(** The two bounds are ASCII codes, so the comparison of character codes
    gives the same answer whether [char] is signed or not. *)
Definition is_digit (c : ascii) : bool :=
  Ascii.leb "0" c && Ascii.leb c "9".

Definition is_alpha (c : ascii) : bool :=
  (Ascii.leb "a" c && Ascii.leb c "z") ||
  (Ascii.leb "A" c && Ascii.leb c "Z").

Definition is_numeral (c : ascii) : bool :=
  is_digit c || Ascii.eqb c ".".

Definition is_alphanum (c : ascii) : bool :=
  is_digit c || is_alpha c.

Definition is_identifier_begin (c : ascii) : bool :=
  is_alpha c || Ascii.eqb c "_".

Definition is_identifier (c : ascii) : bool :=
  is_alphanum c || Ascii.eqb c "_".

(** ** The lexer object *)

(** The data members of [Lexer].  [_it] is the iterator into [_source],
    kept as its distance from [begin(_source)]. *)
Record Lexer : Type := mkLexer {
  _source : list ascii;
  _it : nat;
  _last_char : ascii;
  _current_parsed : bool;
  _last_token : Token;
  _last_value : list ascii;
  _line : N;
  _col : N
}.

Definition set_it (i : nat) (l : Lexer) : Lexer :=
  mkLexer (_source l) i (_last_char l) (_current_parsed l)
          (_last_token l) (_last_value l) (_line l) (_col l).
Definition set_last_char (c : ascii) (l : Lexer) : Lexer :=
  mkLexer (_source l) (_it l) c (_current_parsed l)
          (_last_token l) (_last_value l) (_line l) (_col l).
Definition set_current_parsed (b : bool) (l : Lexer) : Lexer :=
  mkLexer (_source l) (_it l) (_last_char l) b
          (_last_token l) (_last_value l) (_line l) (_col l).
Definition set_last_token (t : Token) (l : Lexer) : Lexer :=
  mkLexer (_source l) (_it l) (_last_char l) (_current_parsed l)
          t (_last_value l) (_line l) (_col l).
Definition set_last_value (v : list ascii) (l : Lexer) : Lexer :=
  mkLexer (_source l) (_it l) (_last_char l) (_current_parsed l)
          (_last_token l) v (_line l) (_col l).
Definition set_line (n : N) (l : Lexer) : Lexer :=
  mkLexer (_source l) (_it l) (_last_char l) (_current_parsed l)
          (_last_token l) (_last_value l) n (_col l).
Definition set_col (n : N) (l : Lexer) : Lexer :=
  mkLexer (_source l) (_it l) (_last_char l) (_current_parsed l)
          (_last_token l) (_last_value l) (_line l) n.

(** [_last_value += c]. *)
Definition push_value (c : ascii) (l : Lexer) : Lexer :=
  set_last_value (_last_value l ++ [c]) l.

(** [++n] on a [size_t]. *)
Definition incr (n : N) : N := (n + 1) mod 2 ^ 64.

(** Modelled from the spec: the member initialisers of [lexer.hpp], which
    is not among the sources.  The constructor in [lexer.cpp] sets
    [_source] and [_it] only.  The spec has line and column counters that
    are 1-based once a character is read, and a first call of [readtok]
    that reads the first character; hence a line counter at 1, a column
    counter at 0, a blank for the character read last, and the flag that
    makes [readtok] read on.  The general theorems below are stated for
    every lexer object that meets their hypotheses and do not rest on
    these values; the evaluations on example sources start from this
    object. *)
Definition Lexer_new (source : list ascii) : Lexer :=
  mkLexer source 0%nat " " true (mkToken End 0 0) [] 1 0.

(** ** Outcomes *)

Inductive Exception : Type :=
| LexerException (msg : string) (line col : N)
| out_of_range.

Inductive outcome (A : Type) : Type :=
| Ret (a : A) (l : Lexer)
| Throw (e : Exception) (l : Lexer)
| OutOfFuel.
Arguments Ret {A} a l.
Arguments Throw {A} e l.
Arguments OutOfFuel {A}.

Definition M (A : Type) : Type := Lexer -> outcome A.

Definition ret {A} (a : A) : M A := fun l => Ret a l.

Definition bind {A B} (m : M A) (k : A -> M B) : M B :=
  fun l =>
    match m l with
    | Ret a l' => k a l'
    | Throw e l' => Throw e l'
    | OutOfFuel => OutOfFuel
    end.

Definition throw {A} (e : Exception) : M A := fun l => Throw e l.

(** Read a member, or the whole object. *)
Definition get {A} (f : Lexer -> A) : M A := fun l => Ret (f l) l.

(** Assign to members. *)
Definition modify (f : Lexer -> Lexer) : M unit := fun l => Ret tt (f l).

Declare Scope lexer_scope.
Delimit Scope lexer_scope with lexer.
Notation "x <- m ;; k" := (bind m (fun x => k))
  (at level 100, m at next level, right associativity) : lexer_scope.
Notation "m ;;; k" := (bind m (fun _ => k))
  (at level 100, right associativity) : lexer_scope.
Local Open Scope lexer_scope.

(** What one round of a loop, or one stage of [readtok], decides. *)
Inductive control : Type :=
| Continue
| Break
| Return (t : Token).

(** A loop: [body] runs until it breaks, returns from the function,
    throws, or the budget is used up. *)
Fixpoint iterate (fuel : nat) (body : M control) (l : Lexer)
  : outcome (option Token) :=
  match fuel with
  | O => OutOfFuel
  | S n =>
      match body l with
      | Ret Continue l' => iterate n body l'
      | Ret Break l' => Ret None l'
      | Ret (Return t) l' => Ret (Some t) l'
      | Throw e l' => Throw e l'
      | OutOfFuel => OutOfFuel
      end
  end.

(** ** [Lexer::eof] and [Lexer::readchar] *)

Definition eof (l : Lexer) : bool := Ascii.eqb (_last_char l) NUL.

(** [*_it].  At [end(_source)] the read gives the terminating null
    character of the string's storage. *)
Definition deref (l : Lexer) : ascii := default NUL (_source l !! _it l).

Definition readchar : M ascii := fun l =>
  if eof l then
    Throw (LexerException "Reached EOF (lexer crash)" (_line l) (_col l)) l
  else
    let l1 := set_last_char (deref l) l in
    if Nat.eqb (_it l1) (length (_source l1)) then Ret NUL l1
    else
      let l2 := set_it (S (_it l1)) l1 in
      let l3 := if Ascii.eqb (_last_char l2) LF
                then set_col 0 (set_line (incr (_line l2)) l2)
                else set_col (incr (_col l2)) l2 in
      Ret (_last_char l3) l3.

(** ** [Lexer::readtok] *)

(** [return _last_token = t]. *)
Definition return_token (t : Token) : M Token :=
  modify (set_last_token t);;; ret t.

(** A stage of [readtok] either returns a token from the function or
    falls through to the rest of the function. *)
Definition stage (m : M (option Token)) (rest : M Token) : M Token :=
  o <- m;;
  match o with
  | Some t => return_token t
  | None => rest
  end.

(** [return _last_token = Token{TokenType::End, _line, _col}] when [eof()]. *)
Definition End_if_eof : M (option Token) := fun l =>
  if eof l then Ret (Some (mkToken End (_line l) (_col l))) l
  else Ret None l.

(** Skip the character if it is parsed already. *)
Definition skip_parsed : M (option Token) :=
  p <- get _current_parsed;;
  if p : bool then readchar;;; End_if_eof
  else modify (set_current_parsed true);;; ret None.

(** Consume skippable spaces and tabs. *)
Definition whitespace_body : M control :=
  c <- get _last_char;;
  if is_whitespace c then
    readchar;;;
    o <- End_if_eof;;
    match o with
    | Some t => ret (Return t)
    | None => ret Continue
    end
  else ret Break.

(** [while(!is_line_end(readchar()));] *)
Definition line_comment_body : M control :=
  c <- readchar;;
  ret (if is_line_end c then Break else Continue).

(** [while (readchar() != '*') { if (eof()) throw ...; }] *)
Definition block_comment_inner (tline tcol : N) : M control :=
  c <- readchar;;
  if Ascii.eqb c "*" then ret Break
  else
    e <- get eof;;
    if e : bool
    then throw (LexerException "Multi-line comment reaches EOF" tline tcol)
    else ret Continue.

(** [do { ... } while (readchar() != '/');] *)
Definition block_comment_body (fuel : nat) (tline tcol : N) : M control :=
  iterate fuel (block_comment_inner tline tcol);;;
  c <- readchar;;
  ret (if Ascii.eqb c "/" then Break else Continue).

(** Check for comments.  [again] is the call of [readtok] that follows a
    multi-line comment. *)
Definition comment (fuel : nat) (again : M Token) (tline tcol : N)
  : M (option Token) :=
  c <- get _last_char;;
  if Ascii.eqb c "/" then
    readchar;;;
    c <- get _last_char;;
    if Ascii.eqb c "/" then
      iterate fuel line_comment_body;;;
      e <- get eof;;
      ret (if e : bool then Some (mkToken End tline tcol) else None)
    else if Ascii.eqb c "*" then
      iterate fuel (block_comment_body fuel tline tcol);;;
      t <- again;;
      ret (Some t)
    else
      modify (set_current_parsed false);;; ret None
  else ret None.

(** One round of [while (readchar() != delim) { ... }]. *)
Definition string_body (delim : ascii) (tline tcol : N) : M control :=
  c <- readchar;;
  if Ascii.eqb c delim then ret Break
  else
    c <- get _last_char;;
    if Ascii.eqb c BACKSLASH then
      readchar;;;
      e <- get eof;;
      if e : bool then ret (Return (mkToken End tline tcol))
      else
        c <- get _last_char;;
        (if Ascii.eqb c delim then modify (push_value delim)
         else if Ascii.eqb c "n" then modify (push_value LF)
         else if Ascii.eqb c "#" then modify (push_value "#")
         else modify (push_value BACKSLASH);;; modify (push_value c));;;
        ret Continue
    else if Ascii.eqb c "#" then
      modify (push_value LF);;; ret Continue
    else
      modify (push_value c);;; ret Continue.

(** Parse string literals. *)
Definition string_literal (fuel : nat) (tline tcol : N) : M (option Token) :=
  delim <- get _last_char;;
  if Ascii.eqb delim DQUOTE || Ascii.eqb delim SQUOTE then
    modify (set_last_value []);;;
    o <- iterate fuel (string_body delim tline tcol);;
    match o with
    | Some t => ret (Some t)
    | None => ret (Some (mkToken StringLiteral tline tcol))
    end
  else ret None.

(** Hex colors are a stub. *)
Definition hex_color (tline tcol : N) : M (option Token) :=
  c <- get _last_char;;
  if Ascii.eqb c "$"
  then throw (LexerException "Hex colors are a stub" tline tcol)
  else ret None.

(** [static_cast<size_t>(_it - begin(_source) - 1)]. *)
Definition peek_pos (l : Lexer) : Z :=
  ((Z.of_nat (_it l) - 1) mod 2 ^ 64)%Z.

(** [_source.substr(pos, 4)]: throws when [pos] is beyond the size of
    the string, and is cut short at its end. *)
Definition peekstr : M (list ascii) := fun l =>
  if (Z.of_nat (length (_source l)) <? peek_pos l)%Z
  then Throw out_of_range l
  else Ret (take 4 (drop (Z.to_nat (peek_pos l)) (_source l))) l.

(** The first entry of the table whose text is [peek.substr(0, size)]. *)
Fixpoint find_match (peek : list ascii)
    (table : list (list ascii * TokenType))
  : option (list ascii * TokenType) :=
  match table with
  | [] => None
  | (pat, ty) :: table' =>
      if bool_decide (take (length pat) peek = pat)
      then Some (pat, ty)
      else find_match peek table'
  end.

(** [n] calls of [readchar]. *)
Fixpoint readchars (n : nat) : M unit :=
  match n with
  | O => ret tt
  | S n' => readchar;;; readchars n'
  end.

Definition fixed_pattern (tline tcol : N) : M (option Token) :=
  peek <- peekstr;;
  match find_match peek basic_matches with
  | Some (pat, ty) =>
      readchars (length pat - 1);;;
      ret (Some (mkToken ty tline tcol))
  | None => ret None
  end.

(** [do { _last_value += _last_char; } while (is_numeral(readchar()));] *)
Definition numeral_body : M control :=
  c <- get _last_char;;
  modify (push_value c);;;
  c <- readchar;;
  ret (if is_numeral c then Continue else Break).

(** Parse reals. *)
Definition real_literal (fuel : nat) (tline tcol : N) : M (option Token) :=
  c <- get _last_char;;
  if is_numeral c then
    iterate fuel numeral_body;;;
    modify (set_current_parsed false);;;
    ret (Some (mkToken RealLiteral tline tcol))
  else ret None.

(** [do { _last_value += _last_char; } while (is_identifier(readchar()));] *)
Definition identifier_body : M control :=
  c <- get _last_char;;
  modify (push_value c);;;
  c <- readchar;;
  ret (if is_identifier c then Continue else Break).

(** Parse identifiers. *)
Definition identifier (fuel : nat) (tline tcol : N) : M (option Token) :=
  c <- get _last_char;;
  if is_identifier_begin c then
    iterate fuel identifier_body;;;
    modify (set_current_parsed false);;;
    ret (Some (mkToken Identifier tline tcol))
  else ret None.

(** The part of [readtok] below the table of fixed patterns: tokens
    with values. *)
Definition valued (fuel : nat) (tline tcol : N) : M Token :=
  modify (set_last_value []);;;
  stage (real_literal fuel tline tcol)
  (stage (identifier fuel tline tcol)
  (throw (LexerException "Unknown token" tline tcol))).

(** The part of [readtok] below the whitespace loop. *)
Definition dispatch (fuel : nat) (again : M Token) : M Token :=
  tline <- get _line;;
  tcol <- get _col;;
  stage (comment fuel again tline tcol)
  (stage (string_literal fuel tline tcol)
  (stage (hex_color tline tcol)
  (stage (fixed_pattern tline tcol)
  (valued fuel tline tcol)))).

Fixpoint readtok (fuel : nat) : M Token :=
  match fuel with
  | O => fun _ => OutOfFuel
  | S n =>
      stage End_if_eof
      (stage skip_parsed
      (stage (iterate n whitespace_body)
      (dispatch n (readtok n))))
  end.

(** [last_token], [last_value], [line], [column], [source_iterator]. *)
Definition last_token (l : Lexer) : Token := _last_token l.
Definition last_value (l : Lexer) : list ascii := _last_value l.
Definition line_of (l : Lexer) : N := line (_last_token l).
Definition column (l : Lexer) : N := col (_last_token l).
Definition source_iterator (l : Lexer) : nat := _it l.

(** The tokens of [k] calls of [readtok] in a row, each on a budget of
    [fuel]. *)
Fixpoint readtoks (k fuel : nat) : M (list Token) :=
  match k with
  | O => ret []
  | S k' =>
      t <- readtok fuel;;
      ts <- readtoks k' fuel;;
      ret (t :: ts)
  end.

Definition kinds (o : outcome (list Token)) : option (list TokenType) :=
  match o with
  | Ret ts _ => Some (map type ts)
  | _ => None
  end.

(** ** Well-formed objects and the measure of the unread input *)

(** The iterator stays within [begin(_source), end(_source)]. *)
Definition wf (l : Lexer) : Prop := (_it l <= length (_source l))%nat.

(** The number of calls of [readchar] that can still succeed. *)
Definition remaining (l : Lexer) : nat :=
  (length (_source l) - _it l + (if eof l then 0 else 1))%nat.

(** The budget on which [readtok] is shown to terminate. *)
Definition enough (l : Lexer) : nat := (remaining l + 2)%nat.

(** The unread input. *)
Definition unread (l : Lexer) : list ascii := drop (_it l) (_source l).

(** The string is within the range of [size_t]. *)
Definition addressable (l : Lexer) : Prop :=
  (Z.of_nat (length (_source l)) < 2 ^ 64)%Z.

(** The object after [readchar] has consumed [c]. *)
Definition advance (c : ascii) (l : Lexer) : Lexer :=
  mkLexer (_source l) (S (_it l)) c (_current_parsed l)
          (_last_token l) (_last_value l)
          (if Ascii.eqb c LF then incr (_line l) else _line l)
          (if Ascii.eqb c LF then 0 else incr (_col l)).

(** The object after [readchar] has consumed the characters [cs] one
    after the other. *)
Fixpoint advances (cs : list ascii) (l : Lexer) : Lexer :=
  match cs with
  | [] => l
  | c :: cs' => advances cs' (advance c l)
  end.

(** The common shape of the loops that collect a real and an identifier:
    append the character read last, read on while the class [p] holds. *)
Definition run_body (p : ascii -> bool) : M control :=
  c <- get _last_char;;
  modify (push_value c);;;
  c <- readchar;;
  ret (if p c then Continue else Break).

(** The first character of [rest] is not in the class [p], or there is
    none. *)
Definition stops (p : ascii -> bool) (rest : list ascii) : Prop :=
  match rest with
  | [] => True
  | c :: _ => p c = false
  end.

(** The text that [readtok] has before it: the unread input, with the
    character read last in front of it when that one is not used up. *)
Definition pending (l : Lexer) : list ascii :=
  if _current_parsed l then unread l else _last_char l :: unread l.

(** Spaces and tabs. *)
Definition blank (w : list ascii) : Prop :=
  Forall (fun c => is_whitespace c = true) w.

(** When [readtok] is to go on with the character read last, that
    character is the one before the iterator. *)
Definition synced (l : Lexer) : Prop :=
  _current_parsed l = false -> is_whitespace (_last_char l) = false ->
  exists i, _it l = S i /\ _source l !! i = Some (_last_char l).

(** A lexer between two tokens, with the text [s] before it: end of input
    not seen, and either the character read last is used up and [s] is
    the unread input, or it is not and [s] starts with it.  A new lexer is
    before its source, and the lexer that [readtok] leaves when it returns
    a fixed-pattern token, a string, a real or an identifier is before the
    rest of the source. *)
Definition before (l : Lexer) (s : list ascii) : Prop :=
  eof l = false /\ wf l /\ addressable l /\ synced l /\ pending l = s.

(** A lexer below the whitespace loop of [readtok]: the character read
    last is [c], the one before the iterator, and [r] is unread. *)
Definition standing (l : Lexer) (c : ascii) (r : list ascii) : Prop :=
  eof l = false /\ wf l /\ addressable l /\
  _last_char l = c /\ unread l = r /\
  exists i, _it l = S i /\ _source l !! i = Some c.

(** Where the loop of a run leaves the lexer: on the character after the
    run, which it has read, or at the end of the source. *)
Definition after_run (l' : Lexer) (rest : list ascii) : Prop :=
  match rest with
  | [] => eof l' = true
  | c :: r =>
      _last_char l' = c /\ unread l' = r /\
      exists i, _it l' = S i /\ _source l' !! i = Some c
  end.

(** A character with which [readtok] gets to the table of fixed patterns,
    on the line it was on: not the end-of-input sentinel, not a blank or a
    line feed, and not the first character of a comment, a string or a
    hex color. *)
Definition to_table (c : ascii) : bool :=
  negb (Ascii.eqb c NUL || is_whitespace c || Ascii.eqb c LF ||
        Ascii.eqb c "/" || Ascii.eqb c DQUOTE || Ascii.eqb c SQUOTE ||
        Ascii.eqb c "$").

(** The column of a token on the line of the lexer [l], after the blanks
    [w]: one more than the column counter for every character that
    [readtok] reads up to the first character of the token. *)
Definition token_col (l : Lexer) (w : list ascii) : N :=
  Nat.iter (length w + (if _current_parsed l then 1 else 0)) incr (_col l).

(** Total correctness: [m] started on [l] does not run out of budget,
    [Q] holds of what it returns, and an exception leaves a well-formed
    object behind. *)
Definition wp {A} (m : M A) (Q : A -> Lexer -> Prop) (l : Lexer) : Prop :=
  match m l with
  | Ret a l' => Q a l'
  | Throw _ l' => wf l'
  | OutOfFuel => False
  end.

(** [g] gives what [f] gives wherever [f] does not run out of budget. *)
Definition extends {A} (f g : M A) : Prop :=
  forall l, f l <> OutOfFuel -> g l = f l.

(** [Token{TokenType::End, _line, _col}]. *)
Definition End_token (l : Lexer) : Token := mkToken End (_line l) (_col l).

(** The compound operators of the table that no shorter entry above
    them is a prefix of, with their tokens. *)
Definition good_compound : list (list ascii * TokenType) :=
  [ (chars "==", DEqual); (chars "!=", NotEqual); (chars "<>", NotEqual);
    (chars "&&", LogicAnd); (chars "||", LogicOr); (chars "^^", LogicXor);
    (chars "++", Increment); (chars "--", Decrement);
    (chars "+=", AssignAdd); (chars "-=", AssignSubtract);
    (chars "*=", AssignMultiply);
    (chars "&=", AssignAnd); (chars "|=", AssignOr); (chars "^=", AssignXor) ].

(** The keywords of the table that fit in the four characters in view,
    with their tokens. *)
Definition matched_keywords : list (list ascii * TokenType) :=
  [ (chars "if", If); (chars "else", Else); (chars "for", For);
    (chars "do", Do); (chars "with", With); (chars "var", LocalVar) ].

(** The keywords of the table that are longer than the four characters in
    view. *)
Definition long_keywords : list (list ascii) :=
  [ chars "while"; chars "repeat" ].

(** The token types of the table entries that are longer than four
    characters. *)
Definition long_pattern (ty : TokenType) : bool :=
  match ty with
  | While | Repeat | ElseIf => true
  | _ => false
  end.

(** What an outcome holds. *)
Definition token_of (o : outcome Token) : option Token :=
  match o with
  | Ret t _ => Some t
  | _ => None
  end.

Definition exception_of {A} (o : outcome A) : option Exception :=
  match o with
  | Throw e _ => Some e
  | _ => None
  end.

(** [m] returns only values that satisfy [Q]. *)
Definition yields {A} (m : M A) (Q : A -> Prop) : Prop :=
  forall l a l', m l = Ret a l' -> Q a.

(** What a terminating computation leaves behind: a well-formed object
    with no more unread input than [l] had. *)
Definition below (l l' : Lexer) : Prop :=
  wf l' /\ (remaining l' <= remaining l)%nat.

(** What a round of a loop leaves behind: less unread input when the
    loop goes on. *)
Definition round_ok (l1 : Lexer) (c : control) (l2 : Lexer) : Prop :=
  wf l2 /\
  match c with
  | Continue => (remaining l2 < remaining l1)%nat
  | _ => (remaining l2 <= remaining l1)%nat
  end.

(** The objects that a program can get to: a new lexer, and what a call of
    [readtok] leaves, whether it returns or throws. *)
Inductive reachable : Lexer -> Prop :=
| reachable_new (source : list ascii) : reachable (Lexer_new source)
| reachable_return (l l' : Lexer) (fuel : nat) (t : Token) :
    reachable l -> readtok fuel l = Ret t l' -> reachable l'
| reachable_throw (l l' : Lexer) (fuel : nat) (e : Exception) :
    reachable l -> readtok fuel l = Throw e l' -> reachable l'.

(** [P] holds of the token that a stage, or a round of a loop, returns
    from [readtok], if it returns one. *)
Definition yields_token (P : Token -> Prop) (o : option Token) : Prop :=
  forall t, o = Some t -> P t.

Definition returns_token (P : Token -> Prop) (c : control) : Prop :=
  forall t, c = Return t -> P t.

Definition short_token (t : Token) : Prop := long_pattern (type t) = false.

(** ** The text of a string literal, as the specification words it *)

(** What a backslash followed by [d] stands for: the delimiter for the
    delimiter, a line feed for [n], a [#] for [#], and the two characters
    as they are for anything else. *)
Definition escape (delim d : ascii) : list ascii :=
  if Ascii.eqb d delim then [delim]
  else if Ascii.eqb d "n" then [LF]
  else if Ascii.eqb d "#" then ["#"]
  else [BACKSLASH; d].

(** The decoded text of the literal whose text between the delimiters is
    [raw]: escapes are replaced, a [#] that is not escaped is a line feed,
    every other character is kept.  There is no decoded text when [raw] is
    not the inside of a terminated literal: when it holds the delimiter
    unescaped, ends in a lone backslash, or holds the null character,
    which is the end-of-input sentinel. *)
Fixpoint decode (delim : ascii) (raw : list ascii) : option (list ascii) :=
  match raw with
  | [] => Some []
  | c :: raw' =>
      if Ascii.eqb c NUL || Ascii.eqb c delim then None
      else if Ascii.eqb c BACKSLASH then
        match raw' with
        | [] => None
        | d :: raw'' =>
            if Ascii.eqb d NUL then None
            else option_map (app (escape delim d)) (decode delim raw'')
        end
      else if Ascii.eqb c "#" then option_map (cons LF) (decode delim raw')
      else option_map (cons c) (decode delim raw')
  end.

(** ** Objects for the examples *)

(** A new lexer on a source with comments and a string. *)
Definition comments_example : Lexer :=
  Lexer_new (chars "/* a */ 'b' // c").

(** The lexer that the first call of [readtok] on the source [a] leaves:
    the identifier loop has read the end of the source. *)
Definition at_end_example : Lexer :=
  match readtok 5 (Lexer_new (chars "a")) with
  | Ret _ l => l
  | _ => Lexer_new []
  end.

(** The text between the quotes of the literal ['a\nb#c\#d\'e\f']. *)
Definition raw_example : list ascii := chars "a\nb#c\#d\'e\f".

(** A new lexer on that literal, followed by [;]. *)
Definition string_example : Lexer :=
  Lexer_new (SQUOTE :: raw_example ++ SQUOTE :: chars ";").

(** A new lexer on the source [1.2.3]. *)
Definition real_example : Lexer := Lexer_new (chars "1.2.3").

(** A new lexer on the source [ifx]. *)
Definition ifx_example : Lexer := Lexer_new (chars "ifx").

(** A new lexer on the source [whilex]. *)
Definition whilex_example : Lexer := Lexer_new (chars "whilex").

(** A new lexer on the source [while]. *)
Definition while_example : Lexer := Lexer_new (chars "while").

(** A new lexer on a source that starts with a line feed. *)
Definition two_lines_example : Lexer := Lexer_new [LF; "a"].

(** ** Further objects of the properties below *)

(** The lexer with which [readtok], started on [l] before the blanks [w]
    and the character [c], gets below its whitespace loop: it has read
    the blanks and [c], but for the character that [l] had kept. *)
Definition entered (l : Lexer) (w : list ascii) (c : ascii) : Lexer :=
  if _current_parsed l then advances (w ++ [c]) l
  else match w with
       | [] => set_current_parsed true l
       | _ :: w' => advances (w' ++ [c]) (set_current_parsed true l)
       end.

(** The table entries for punctuation, brackets and word operators that
    are the first match of their own text whatever follows it. *)
Definition plain_entries : list (list ascii * TokenType) :=
  [ (chars "{", BraceLeft); (chars "}", BraceRight);
    (chars "(", ParenthesisLeft); (chars ")", ParenthesisRight);
    (chars ".", Dot); (chars ",", Comma); (chars ";", Semicolon);
    (chars "[@", AccessorLeftArrayRef); (chars "[|", AccessorLeftDSList);
    (chars "[?", AccessorLeftDSMap); (chars "[#", AccessorLeftDSGrid);
    (chars "]", AccessorRight); (chars ">", Superior);
    (chars "div", EuclDivide); (chars "mod", EuclModulo);
    (chars "%", EuclModulo) ].

(** The one-character operators that are a prefix of longer entries above
    them, with their tokens and the characters that, right after them,
    make a longer entry match. *)
Definition single_operators : list (ascii * TokenType * list ascii) :=
  [ ("<", Inferior, [">"]); ("=", Equal, ["="]);
    ("+", Plus, ["+"; "="]); ("-", Minus, ["-"; "="]);
    ("*", Multiply, ["="]);
    ("&", BitAnd, ["&"; "="]); ("|", BitOr, ["|"; "="]);
    ("^", BitXor, ["^"; "="]);
    ("[", AccessorLeftArrayValue, ["@"; "|"; "?"; "#"]) ].

(** The first character of [rest] is none of [cs], or there is none. *)
Definition avoids (cs : list ascii) (rest : list ascii) : Prop :=
  match rest with
  | [] => True
  | c :: _ => c ∉ cs
  end.

(** Token types of table entries that stand below an entry that is a
    prefix of theirs. *)
Definition shadowed (ty : TokenType) : bool :=
  match ty with
  | InferiorEqual | SuperiorEqual | AssignShiftLeft | AssignShiftRight =>
      true
  | _ => false
  end.

(** What a call leaves of the object it starts on: the source, and an
    iterator that has not moved back. *)
Definition forward (l l' : Lexer) : Prop :=
  _source l' = _source l /\ (_it l <= _it l')%nat.

(** [m] keeps the relation [R] between the object it starts on and the one
    it leaves, whether it returns or throws. *)
Definition keeps {A} (R : Lexer -> Lexer -> Prop) (m : M A) : Prop :=
  forall l,
    match m l with
    | Ret _ l' | Throw _ l' => R l l'
    | OutOfFuel => True
    end.

(** [m] returns only values and objects that satisfy [Q]. *)
Definition returns {A} (m : M A) (Q : A -> Lexer -> Prop) : Prop :=
  forall l a l', m l = Ret a l' -> Q a l'.

(** A new lexer on the source [  == x]. *)
Definition spaced_example_lexer : Lexer := Lexer_new (chars "  == x").

(** A new lexer on the source [.5]. *)
Definition dot_example : Lexer := Lexer_new (chars ".5").

(** A new lexer on the source [+1]. *)
Definition plus_example : Lexer := Lexer_new (chars "+1").


(** A new lexer on the source [$FF00FF]. *)
Definition hex_example : Lexer := Lexer_new (chars "$FF00FF").


(** A new lexer on three spaces. *)
Definition blanks_example : Lexer := Lexer_new (chars "   ").

(** The lexer that the first call of [readtok] on the source [;] leaves:
    the whole source is read and its end is not seen yet. *)
Definition semicolon_read_example : Lexer :=
  match readtok 5 (Lexer_new (chars ";")) with
  | Ret _ l => l
  | _ => Lexer_new []
  end.

(** A new lexer on a source with a single-line comment on its first
    line. *)
Definition line_comment_example_lexer : Lexer :=
  Lexer_new (chars " //ab" ++ LF :: chars "c").

(** A new lexer on a source that is one single-line comment. *)
Definition line_comment_end_example : Lexer := Lexer_new (chars "// x").


(** A new lexer on a source that ends with [/]. *)
Definition divide_example_lexer : Lexer := Lexer_new (chars " /").

(** A new lexer on a [/] between blanks. *)
Definition quotient_example : Lexer := Lexer_new (chars " / b").

(** The character read last is the one before the iterator. *)
Definition in_step (l : Lexer) : Prop :=
  exists i, _it l = S i /\ _source l !! i = Some (_last_char l).

(** A lexer object after a call of [readchar]: within its source, and in
    step unless the end of the input has been seen. *)
Definition stepped (l : Lexer) : Prop :=
  wf l /\ addressable l /\ (eof l = false -> in_step l).

(** A lexer object on which [readtok] can be called: one that goes on
    with the character read last is in step. *)
Definition ready (l : Lexer) : Prop :=
  wf l /\ addressable l /\
  (_current_parsed l = false -> eof l = false -> in_step l).

(** A lexer object below the comment check of [readtok]: the character
    before the iterator, which the look-ahead of four characters starts
    with, is a [/] only when the look-ahead of the comment check has run
    into the end of the source. *)
Definition peeking (l : Lexer) : Prop :=
  stepped l /\
  exists i, _it l = S i /\
    (_source l !! i = Some "/"%char -> eof l = true /\ unread l = []).

(** The messages of the exceptions that the lexer throws itself. *)
Definition lexer_messages : list string :=
  [ "Reached EOF (lexer crash)"%string;
    "Multi-line comment reaches EOF"%string;
    "Hex colors are a stub"%string;
    "Unknown token"%string ].

Definition expected (e : Exception) : Prop :=
  match e with
  | LexerException msg _ _ => msg ∈ lexer_messages
  | out_of_range => False
  end.

(** Partial correctness: [Q] holds of what [m] returns, and an exception
    is one of the lexer's own and leaves a stepped object. *)
Definition safe {A} (m : M A) (Q : A -> Lexer -> Prop) (l : Lexer) : Prop :=
  match m l with
  | Ret a l' => Q a l'
  | Throw e l' => expected e /\ stepped l'
  | OutOfFuel => True
  end.

(** What holds of a token that [readtok] returns and of the object it
    leaves. *)
Definition served (t : Token) (l' : Lexer) : Prop :=
  stepped l' /\ type t <> AssignDivide /\ (type t = Divide -> eof l' = true).

(** The result of a stage of [readtok]: a token to return, or an object
    with [P] for the rest of the function. *)
Definition staged (P : Lexer -> Prop) (o : option Token) (l' : Lexer)
  : Prop :=
  match o with
  | Some t => served t l'
  | None => P l'
  end.

(** The lexer that the first call of [readtok] on the source [ /]
    leaves. *)
Definition divide_read_example : Lexer :=
  match readtok 4 divide_example_lexer with
  | Ret _ l => l
  | _ => Lexer_new []
  end.

(** The lexer that the first call of [readtok] on the source [$FF00FF]
    leaves. *)
Definition hex_thrown_example : Lexer :=
  match readtok 4 hex_example with
  | Throw _ l => l
  | _ => Lexer_new []
  end.

(** A new lexer on a string that is not closed. *)
Definition unterminated_string_example : Lexer :=
  Lexer_new (SQUOTE :: chars "abc").

(** A new lexer on a multi-line comment that is not closed. *)
Definition unterminated_comment_example : Lexer :=
  Lexer_new (chars "/* ab").

(** A new lexer on a multi-line comment that the source ends in, right
    behind a [*]. *)
Definition comment_star_example : Lexer := Lexer_new (chars "/* *").

(** ** The call stack of [readtok] *)

(** [Lexer::readtok] with its call stack made explicit.  The statement
    [return _last_token = readtok();] is not a tail call, the assignment
    is made when the inner call has returned: every call of [readtok]
    behind a multi-line comment takes a frame on top of the frames of the
    calls around it.  [frames] is the number of frames that the stack has
    room for, and [fuel] the budget of the loops of each call.  A call
    that finds no room has no outcome: neither a token nor an exception
    comes back from it. *)
Fixpoint readtok_frames (frames fuel : nat) : M Token :=
  match frames with
  | O => fun _ => OutOfFuel
  | S d =>
      stage End_if_eof
      (stage skip_parsed
      (stage (iterate fuel whitespace_body)
      (dispatch fuel (readtok_frames d fuel))))
  end.

(** The source of [d] empty multi-line comments, one after the other. *)
Fixpoint consecutive_comments (d : nat) : list ascii :=
  match d with
  | O => []
  | S d' => chars "/**/" ++ consecutive_comments d'
  end.

(** * Properties *)

(** ** [readchar] *)

Lemma readchar_eof (l : Lexer) :
  eof l = true ->
  readchar l =
  Throw (LexerException "Reached EOF (lexer crash)" (_line l) (_col l)) l.
Proof. intros H. unfold readchar. now rewrite H. Qed.

Lemma readchar_cons (l : Lexer) (c : ascii) (r : list ascii) :
  eof l = false ->
  unread l = c :: r ->
  readchar l = Ret c (advance c l).
Proof.
  intros He Hu. unfold unread in Hu.
  assert (Hl : _source l !! _it l = Some c).
  { rewrite <- (Nat.add_0_r (_it l)), <- lookup_drop, Hu. reflexivity. }
  assert (Hlt : (_it l < length (_source l))%nat)
    by (apply lookup_lt_is_Some; eauto).
  unfold readchar, deref. rewrite He, Hl. simpl.
  destruct (Nat.eqb_spec (_it l) (length (_source l))) as [E|_]; [lia|].
  unfold advance. destruct (Ascii.eqb c LF); reflexivity.
Qed.

Lemma readchar_nil (l : Lexer) :
  eof l = false ->
  _it l = length (_source l) ->
  readchar l = Ret NUL (set_last_char NUL l).
Proof.
  intros He Hi. unfold readchar, deref. rewrite He.
  rewrite (lookup_ge_None_2 (_source l) (_it l)) by lia. simpl.
  destruct (Nat.eqb_spec (_it l) (length (_source l))); [reflexivity|lia].
Qed.

Lemma unread_advance (l : Lexer) (c : ascii) (r : list ascii) :
  unread l = c :: r -> unread (advance c l) = r.
Proof.
  unfold unread. simpl. intros H.
  replace (S (_it l)) with (_it l + 1)%nat by lia.
  rewrite <- drop_drop, H. reflexivity.
Qed.

Lemma unread_nil (l : Lexer) :
  wf l -> unread l = [] -> _it l = length (_source l).
Proof.
  unfold wf, unread. intros Hw H.
  apply (f_equal length) in H. rewrite length_drop in H. simpl in H. lia.
Qed.

(** [readchar] either throws or strictly lowers the measure. *)
Lemma wp_readchar (l : Lexer) :
  wf l ->
  wp readchar
     (fun c l' => wf l' /\ (remaining l' < remaining l)%nat /\
                  _last_char l' = c) l.
Proof.
  intros Hw. unfold wp. destruct (eof l) eqn:He.
  - now rewrite readchar_eof.
  - destruct (unread l) as [|c r] eqn:Hu.
    + rewrite readchar_nil by (auto using unread_nil).
      unfold wf, remaining, eof in *. simpl. rewrite He.
      repeat split; auto. lia.
    + rewrite (readchar_cons l c r) by assumption.
      assert (Hlt : (_it l < length (_source l))%nat).
      { unfold unread in Hu. apply (f_equal length) in Hu.
        rewrite length_drop in Hu. simpl in Hu. lia. }
      unfold wf, remaining, eof in *. simpl. rewrite He.
      repeat split; try lia.
      destruct (Ascii.eqb c NUL); lia.
Qed.

(** ** Rules for [wp] *)

Section WpRules.
Context {A B : Type}.
Implicit Types (l : Lexer).

Lemma wp_ret (a : A) (Q : A -> Lexer -> Prop) l :
  Q a l -> wp (ret a) Q l.
Proof. exact id. Qed.

Lemma wp_throw (e : Exception) (Q : A -> Lexer -> Prop) l :
  wf l -> wp (throw e) Q l.
Proof. exact id. Qed.

Lemma wp_get (f : Lexer -> A) (Q : A -> Lexer -> Prop) l :
  Q (f l) l -> wp (get f) Q l.
Proof. exact id. Qed.

Lemma wp_bind (m : M A) (k : A -> M B) (Q : B -> Lexer -> Prop) l :
  wp m (fun a l' => wp (k a) Q l') l -> wp (bind m k) Q l.
Proof. unfold wp, bind. destruct (m l); auto. Qed.

Lemma wp_conseq (m : M A) (P Q : A -> Lexer -> Prop) l :
  wp m P l -> (forall a l', P a l' -> Q a l') -> wp m Q l.
Proof. unfold wp. destruct (m l); auto. Qed.
End WpRules.

Lemma wp_modify (f : Lexer -> Lexer) (Q : unit -> Lexer -> Prop) l :
  Q tt (f l) -> wp (modify f) Q l.
Proof. exact id. Qed.

Lemma wp_stage (m : M (option Token)) (rest : M Token)
    (Q : Token -> Lexer -> Prop) l :
  wp m (fun o l' => match o with
                    | Some t => Q t (set_last_token t l')
                    | None => wp rest Q l'
                    end) l ->
  wp (stage m rest) Q l.
Proof.
  intros H. unfold stage. apply wp_bind. eapply wp_conseq; [exact H|].
  intros [t|] l' H'; [exact H'|exact H'].
Qed.

Lemma below_refl l : wf l -> below l l.
Proof. split; auto. Qed.

Lemma below_trans l1 l2 l3 : below l1 l2 -> below l2 l3 -> below l1 l3.
Proof. unfold below. intros [? ?] [? ?]. split; [auto|lia]. Qed.

(** A loop whose rounds lower the measure each time they go on ends within
    the budget. *)
Lemma wp_iterate (fuel : nat) (body : M control) l :
  (forall l1, below l l1 ->
     wp body (fun c l2 => wf l2 /\
                match c with
                | Continue => (remaining l2 < remaining l1)%nat
                | _ => (remaining l2 <= remaining l1)%nat
                end) l1) ->
  wf l -> (remaining l < fuel)%nat ->
  wp (iterate fuel body) (fun _ l' => below l l') l.
Proof.
  revert l. induction fuel as [|n IH]; intros l Hb Hw Hn; [lia|].
  unfold wp. simpl. specialize (Hb l (below_refl l Hw)) as Hl.
  unfold wp in Hl. destruct (body l) as [c l2|e l2|]; [|exact Hl|exact Hl].
  destruct Hl as [Hw2 Hc]. destruct c.
  - assert (H2 : wp (iterate n body) (fun _ l' => below l2 l') l2).
    { apply IH; [|assumption|lia]. intros l1 H1. apply Hb.
      apply (below_trans l l2 l1); [split; [assumption|lia]|assumption]. }
    unfold wp in H2. destruct (iterate n body l2); auto.
    apply (below_trans l l2 l0); [split; [assumption|lia]|assumption].
  - split; assumption.
  - split; assumption.
Qed.

(** ** Budgets *)

Section Extends.
Context {A B : Type}.

Lemma extends_refl (f : M A) : extends f f.
Proof. intros l _. reflexivity. Qed.

Lemma extends_bind (m m' : M A) (k k' : A -> M B) :
  extends m m' -> (forall a, extends (k a) (k' a)) ->
  extends (bind m k) (bind m' k').
Proof.
  intros Hm Hk l. unfold bind. intros H.
  rewrite Hm by (destruct (m l); congruence).
  destruct (m l); auto. now apply Hk.
Qed.
End Extends.

Lemma extends_iterate (n n' : nat) (body body' : M control) :
  (n <= n')%nat -> extends body body' ->
  extends (iterate n body) (iterate n' body').
Proof.
  intros Hn Hb. revert n' Hn.
  induction n as [|n IH]; intros n' Hn l H; [now simpl in H|].
  destruct n' as [|n']; [lia|]. simpl in *.
  rewrite Hb by (destruct (body l); congruence).
  destruct (body l) as [[| |t] l1|e l1|]; auto.
  apply IH; [lia|assumption].
Qed.

Lemma extends_stage (m m' : M (option Token)) (k k' : M Token) :
  extends m m' -> extends k k' -> extends (stage m k) (stage m' k').
Proof.
  intros Hm Hk. unfold stage. apply extends_bind; [assumption|].
  intros [t|]; [apply extends_refl|assumption].
Qed.

Create HintDb budget.
#[local] Hint Resolve extends_refl extends_bind extends_iterate extends_stage
  : budget.

Lemma extends_comment (n n' : nat) (k k' : M Token) (tl tc : N) :
  (n <= n')%nat -> extends k k' ->
  extends (comment n k tl tc) (comment n' k' tl tc).
Proof.
  intros Hn Hk. unfold comment.
  apply extends_bind; [auto with budget|]. intros c.
  destruct (Ascii.eqb c "/"); [|auto with budget].
  apply extends_bind; [auto with budget|]. intros _.
  apply extends_bind; [auto with budget|]. intros c'.
  destruct (Ascii.eqb c' "/").
  { apply extends_bind; auto with budget. }
  destruct (Ascii.eqb c' "*"); [|auto with budget].
  apply extends_bind.
  - apply extends_iterate; [assumption|]. unfold block_comment_body.
    apply extends_bind; auto with budget.
  - intros _. apply extends_bind; auto with budget.
Qed.

Lemma extends_dispatch (n n' : nat) (k k' : M Token) :
  (n <= n')%nat -> extends k k' -> extends (dispatch n k) (dispatch n' k').
Proof.
  intros Hn Hk. unfold dispatch.
  apply extends_bind; [auto with budget|]. intros tl.
  apply extends_bind; [auto with budget|]. intros tc.
  apply extends_stage; [now apply extends_comment|].
  apply extends_stage.
  { unfold string_literal. apply extends_bind; [auto with budget|].
    intros c. destruct (_ || _); [|auto with budget].
    apply extends_bind; [auto with budget|]. intros _.
    apply extends_bind; auto with budget. }
  apply extends_stage; [auto with budget|].
  apply extends_stage; [auto with budget|]. unfold valued.
  apply extends_bind; [auto with budget|]. intros _.
  apply extends_stage.
  { unfold real_literal. apply extends_bind; [auto with budget|].
    intros c. destruct (is_numeral c); [|auto with budget].
    apply extends_bind; auto with budget. }
  apply extends_stage; [|auto with budget].
  unfold identifier. apply extends_bind; [auto with budget|].
  intros c. destruct (is_identifier_begin c); [|auto with budget].
  apply extends_bind; auto with budget.
Qed.

(** A larger budget does not change what [readtok] gives. *)
Lemma readtok_extends (n n' : nat) :
  (n <= n')%nat -> extends (readtok n) (readtok n').
Proof.
  revert n'. induction n as [|n IH]; intros n' Hn; [intros l H; now simpl in H|].
  destruct n' as [|n']; [lia|]. simpl.
  apply extends_stage; [auto with budget|].
  apply extends_stage; [auto with budget|].
  apply extends_stage; [apply extends_iterate; [lia|auto with budget]|].
  apply extends_dispatch; [lia|]. apply IH. lia.
Qed.

Lemma readtok_budget (n n' : nat) l (r : outcome Token) :
  readtok n l = r -> r <> OutOfFuel -> (n <= n')%nat -> readtok n' l = r.
Proof.
  intros H Hr Hn. rewrite <- H.
  apply (readtok_extends n n' Hn). now rewrite H.
Qed.

Lemma readtoks_extends (k n n' : nat) :
  (n <= n')%nat -> extends (readtoks k n) (readtoks k n').
Proof.
  intros Hn. induction k as [|k IH]; simpl; [auto with budget|].
  apply extends_bind; [now apply readtok_extends|]. intros t.
  apply extends_bind; auto with budget.
Qed.

(** ** Termination *)

Ltac wp_simple :=
  repeat (cbv beta;
          lazymatch goal with
          | |- wp (ret _) _ _ => apply wp_ret
          | |- wp (throw _) _ _ => apply wp_throw; try assumption
          | |- wp (get _) _ _ => apply wp_get
          | |- wp (modify _) _ _ => apply wp_modify
          | |- wp (bind readchar _) _ _ => fail
          | |- wp (bind _ _) _ _ => apply wp_bind
          end);
  cbv beta.

(** [readchar], with what follows it run on an object that has less
    unread input. *)
Lemma wp_readchar_then {A} (k : ascii -> M A) (Q : A -> Lexer -> Prop) l :
  wf l ->
  (forall l', wf l' -> (remaining l' < remaining l)%nat ->
     wp (k (_last_char l')) Q l') ->
  wp (bind readchar k) Q l.
Proof.
  intros Hw Hk. apply wp_bind.
  eapply wp_conseq; [apply wp_readchar; assumption|].
  intros c l' (Hw' & Hlt & <-). now apply Hk.
Qed.

(** Assignments to the members that the measure does not read. *)
Lemma remaining_push_value (c : ascii) l :
  remaining (push_value c l) = remaining l.
Proof. reflexivity. Qed.

Lemma remaining_set_last_value (v : list ascii) l :
  remaining (set_last_value v l) = remaining l.
Proof. reflexivity. Qed.

Lemma remaining_set_current_parsed (b : bool) l :
  remaining (set_current_parsed b l) = remaining l.
Proof. reflexivity. Qed.

Lemma remaining_set_last_token (t : Token) l :
  remaining (set_last_token t l) = remaining l.
Proof. reflexivity. Qed.

Create Rewrite HintDb lexer.
#[local] Hint Rewrite remaining_push_value remaining_set_last_value
  remaining_set_current_parsed remaining_set_last_token : lexer.

(** A round that starts with [readchar] and changes nothing else that
    the measure depends on. *)
Lemma round_control (c : control) l1 l2 :
  wf l2 -> (remaining l2 < remaining l1)%nat -> round_ok l1 c l2.
Proof. intros Hw Hlt. split; [assumption|]. destruct c; lia. Qed.

Lemma wp_whitespace_body l : wf l -> wp whitespace_body (round_ok l) l.
Proof.
  intros Hw. unfold whitespace_body. wp_simple.
  destruct (is_whitespace (_last_char l)).
  - apply wp_readchar_then; [assumption|]. intros l' Hw' Hlt.
    apply wp_bind. unfold End_if_eof, wp.
    destruct (eof l'); simpl; now apply round_control.
  - wp_simple. split; [assumption|lia].
Qed.

Lemma wp_line_comment_body l : wf l -> wp line_comment_body (round_ok l) l.
Proof.
  intros Hw. unfold line_comment_body.
  apply wp_readchar_then; [assumption|]. intros l' Hw' Hlt.
  wp_simple. now apply round_control.
Qed.

Lemma wp_block_comment_inner (tl tc : N) l :
  wf l -> wp (block_comment_inner tl tc) (round_ok l) l.
Proof.
  intros Hw. unfold block_comment_inner.
  apply wp_readchar_then; [assumption|]. intros l' Hw' Hlt.
  destruct (Ascii.eqb _ _); wp_simple; [now apply round_control|].
  destruct (eof l'); wp_simple. now apply round_control.
Qed.

Lemma wp_block_comment_body (n : nat) (tl tc : N) l :
  wf l -> (remaining l < n)%nat ->
  wp (block_comment_body n tl tc) (round_ok l) l.
Proof.
  intros Hw Hn. unfold block_comment_body. apply wp_bind.
  eapply wp_conseq.
  { apply wp_iterate; [|assumption|assumption].
    intros l1 [Hw1 _]. now apply wp_block_comment_inner. }
  intros _ l1 [Hw1 Hle]. apply wp_readchar_then; [assumption|].
  intros l' Hw' Hlt. wp_simple. apply round_control; [assumption|lia].
Qed.

Lemma wp_string_body (delim : ascii) (tl tc : N) l :
  wf l -> wp (string_body delim tl tc) (round_ok l) l.
Proof.
  intros Hw. unfold string_body.
  apply wp_readchar_then; [assumption|]. intros l1 Hw1 Hlt1.
  destruct (Ascii.eqb _ delim); wp_simple; [now apply round_control|].
  destruct (Ascii.eqb (_last_char l1) BACKSLASH).
  - apply wp_readchar_then; [assumption|]. intros l2 Hw2 Hlt2.
    wp_simple.
    destruct (eof l2); wp_simple; [apply round_control; [assumption|lia]|].
    destruct (Ascii.eqb _ delim); [|destruct (Ascii.eqb _ "n");
      [|destruct (Ascii.eqb _ "#")]];
      wp_simple; (apply round_control;
                  [assumption|autorewrite with lexer; lia]).
  - destruct (Ascii.eqb _ "#"); wp_simple; now apply round_control.
Qed.

Lemma wp_numeral_body l : wf l -> wp numeral_body (round_ok l) l.
Proof.
  intros Hw. unfold numeral_body. wp_simple.
  apply wp_readchar_then; [assumption|]. intros l' Hw' Hlt.
  wp_simple. now apply round_control.
Qed.

Lemma wp_identifier_body l : wf l -> wp identifier_body (round_ok l) l.
Proof.
  intros Hw. unfold identifier_body. wp_simple.
  apply wp_readchar_then; [assumption|]. intros l' Hw' Hlt.
  wp_simple. now apply round_control.
Qed.

Lemma wp_readchars (n : nat) l :
  wf l -> wp (readchars n) (fun _ l' => below l l') l.
Proof.
  revert l. induction n as [|n IH]; intros l Hw; simpl.
  - wp_simple. now apply below_refl.
  - apply wp_readchar_then; [assumption|]. intros l' Hw' Hlt.
    eapply wp_conseq; [now apply IH|]. intros _ l2 [Hw2 Hle].
    split; [assumption|lia].
Qed.

(** The stages of [readtok] end and leave no more unread input than they
    found. *)
Lemma wp_comment (n : nat) (again : M Token) (tl tc : N) l :
  (forall l', wf l' -> (remaining l' + 2 <= n)%nat ->
     wp again (fun _ l'' => below l' l'') l') ->
  wf l -> (remaining l < n)%nat ->
  wp (comment n again tl tc) (fun _ l' => below l l') l.
Proof.
  intros Hagain Hw Hn. unfold comment. wp_simple.
  destruct (Ascii.eqb _ "/"); wp_simple; [|now apply below_refl].
  apply wp_readchar_then; [assumption|]. intros l1 Hw1 Hlt1. wp_simple.
  destruct (Ascii.eqb _ "/"); [|destruct (Ascii.eqb _ "*")]; wp_simple.
  - eapply wp_conseq.
    { apply wp_iterate; [|assumption|lia].
      intros l2 [Hw2 _]. now apply wp_line_comment_body. }
    intros _ l2 [Hw2 Hle]. wp_simple. split; [assumption|lia].
  - eapply wp_conseq.
    { apply wp_iterate; [|assumption|lia].
      intros l2 [Hw2 Hle]. apply wp_block_comment_body; [assumption|lia]. }
    intros _ l2 [Hw2 Hle]. wp_simple.
    eapply wp_conseq; [apply Hagain; [assumption|lia]|].
    intros t l3 [Hw3 Hle3]. wp_simple. split; [assumption|lia].
  - split; [assumption|autorewrite with lexer; lia].
Qed.

Lemma wp_string_literal (n : nat) (tl tc : N) l :
  wf l -> (remaining l < n)%nat ->
  wp (string_literal n tl tc) (fun _ l' => below l l') l.
Proof.
  intros Hw Hn. unfold string_literal. wp_simple.
  destruct (_ || _); wp_simple; [|now apply below_refl].
  eapply wp_conseq.
  { apply wp_iterate.
    - intros l2 [Hw2 _]. now apply wp_string_body.
    - exact Hw.
    - autorewrite with lexer. exact Hn. }
  intros [t|] l2 [Hw2 Hle]; wp_simple; (split; [assumption|exact Hle]).
Qed.

Lemma wp_peekstr l (Q : list ascii -> Lexer -> Prop) :
  wf l -> (forall p, Q p l) -> wp peekstr Q l.
Proof. intros Hw H. unfold wp, peekstr. destruct (_ <? _)%Z; auto. Qed.

Lemma wp_fixed_pattern (tl tc : N) l :
  wf l -> wp (fixed_pattern tl tc) (fun _ l' => below l l') l.
Proof.
  intros Hw. unfold fixed_pattern. apply wp_bind, wp_peekstr; [assumption|].
  intros p.
  destruct (find_match p basic_matches) as [[pat ty]|]; wp_simple.
  - eapply wp_conseq; [now apply wp_readchars|].
    intros ? l1 Hb. wp_simple. exact Hb.
  - now apply below_refl.
Qed.

Lemma wp_real_literal (n : nat) (tl tc : N) l :
  wf l -> (remaining l < n)%nat ->
  wp (real_literal n tl tc) (fun _ l' => below l l') l.
Proof.
  intros Hw Hn. unfold real_literal. wp_simple.
  destruct (is_numeral _); wp_simple; [|now apply below_refl].
  eapply wp_conseq.
  { apply wp_iterate; [|assumption|assumption].
    intros l2 [Hw2 _]. now apply wp_numeral_body. }
  intros _ l2 [Hw2 Hle]. wp_simple. split; [assumption|exact Hle].
Qed.

Lemma wp_identifier (n : nat) (tl tc : N) l :
  wf l -> (remaining l < n)%nat ->
  wp (identifier n tl tc) (fun _ l' => below l l') l.
Proof.
  intros Hw Hn. unfold identifier. wp_simple.
  destruct (is_identifier_begin _); wp_simple; [|now apply below_refl].
  eapply wp_conseq.
  { apply wp_iterate; [|assumption|assumption].
    intros l2 [Hw2 _]. now apply wp_identifier_body. }
  intros _ l2 [Hw2 Hle]. wp_simple. split; [assumption|exact Hle].
Qed.

(** A stage that ends, followed by a rest that ends. *)
Lemma wp_stage_below (m : M (option Token)) (rest : M Token) l0 l :
  wp m (fun _ l' => below l l') l ->
  below l0 l ->
  (forall l', below l l' -> wp rest (fun _ l'' => below l0 l'') l') ->
  wp (stage m rest) (fun _ l'' => below l0 l'') l.
Proof.
  intros Hm H0 Hrest. apply wp_stage. eapply wp_conseq; [exact Hm|].
  intros [t|] l' Hb.
  - apply (below_trans l0 l); [assumption|exact Hb].
  - now apply Hrest.
Qed.

Lemma wp_dispatch (n : nat) (again : M Token) l :
  (forall l', wf l' -> (remaining l' + 2 <= n)%nat ->
     wp again (fun _ l'' => below l' l'') l') ->
  wf l -> (remaining l < n)%nat ->
  wp (dispatch n again) (fun _ l' => below l l') l.
Proof.
  intros Hagain Hw Hn. unfold dispatch. wp_simple.
  apply wp_stage_below;
    [now apply wp_comment|now apply below_refl|]. intros l1 H1.
  assert (H01 := H1). destruct H1 as [Hw1 Hle1].
  apply wp_stage_below;
    [apply wp_string_literal; [assumption|lia]|assumption|]. intros l2 H2.
  assert (H02 := below_trans _ _ _ H01 H2). destruct H02 as [Hw2 Hle2].
  apply wp_stage_below;
    [|split; assumption|].
  { unfold hex_color. wp_simple. destruct (Ascii.eqb _ _); wp_simple.
    now apply below_refl. }
  intros l3 H3.
  assert (H03 := below_trans l l2 l3 (conj Hw2 Hle2) H3).
  destruct H03 as [Hw3 Hle3].
  apply wp_stage_below; [now apply wp_fixed_pattern|split; assumption|].
  intros l4 H4.
  assert (H04 := below_trans l l3 l4 (conj Hw3 Hle3) H4).
  destruct H04 as [Hw4 Hle4].
  unfold valued. wp_simple.
  apply wp_stage_below;
    [apply wp_real_literal; [exact Hw4|autorewrite with lexer; lia]
    |split; [exact Hw4|autorewrite with lexer; lia]|].
  intros l5 H5.
  assert (H05 : below l l5).
  { destruct H5 as [Hw5 Hle5]. autorewrite with lexer in Hle5.
    split; [assumption|lia]. }
  destruct H05 as [Hw5 Hle5].
  apply wp_stage_below;
    [apply wp_identifier; [assumption|lia]|split; assumption|].
  intros l6 [Hw6 _]. wp_simple.
Qed.

(** On a budget of [enough l], and on any larger one, [readtok] returns a
    token or throws, and leaves a well-formed object. *)
Lemma wp_readtok (n : nat) l :
  wf l -> (enough l <= n)%nat ->
  wp (readtok n) (fun _ l' => below l l') l.
Proof.
  unfold enough. revert l. induction n as [|n IH]; intros l Hw Hn; [lia|].
  simpl. apply wp_stage_below; [|now apply below_refl|].
  { unfold wp, End_if_eof. destruct (eof l); now apply below_refl. }
  intros l1 [Hw1 Hle1].
  apply wp_stage_below; [|split; assumption|].
  { unfold skip_parsed. wp_simple. destruct (_current_parsed l1).
    - apply wp_readchar_then; [assumption|]. intros l2 Hw2 Hlt2.
      unfold wp, End_if_eof. destruct (eof l2); (split; [assumption|lia]).
    - wp_simple. split; [exact Hw1|autorewrite with lexer; lia]. }
  intros l2 [Hw2 Hle2].
  apply wp_stage_below; [|split; [assumption|lia]|].
  { apply wp_iterate; [|assumption|lia].
    intros l3 [Hw3 _]. now apply wp_whitespace_body. }
  intros l3 [Hw3 Hle3].
  eapply wp_conseq.
  { apply wp_dispatch; [|assumption|lia]. intros l4 Hw4 Hn4. now apply IH. }
  intros _ l4 [Hw4 Hle4]. split; [assumption|lia].
Qed.

Lemma readtok_wf (fuel : nat) l :
  wf l ->
  match readtok fuel l with
  | Ret _ l' | Throw _ l' => wf l'
  | OutOfFuel => True
  end.
Proof.
  intros Hw. destruct (readtok fuel l) as [t l'|e l'|] eqn:E; [| |exact I].
  - assert (H := wp_readtok (max fuel (enough l)) l Hw (Nat.le_max_r _ _)).
    unfold wp in H.
    rewrite (readtok_budget fuel _ l _ E) in H by (discriminate || lia).
    exact (proj1 H).
  - assert (H := wp_readtok (max fuel (enough l)) l Hw (Nat.le_max_r _ _)).
    unfold wp in H.
    rewrite (readtok_budget fuel _ l _ E) in H by (discriminate || lia).
    exact H.
Qed.

Lemma reachable_wf l : reachable l -> wf l.
Proof.
  induction 1 as [src|l l' fuel t _ IH E|l l' fuel e _ IH E].
  - unfold wf. simpl. lia.
  - generalize (readtok_wf fuel l IH). now rewrite E.
  - generalize (readtok_wf fuel l IH). now rewrite E.
Qed.




(** ** End of input *)

Lemma readtok_eof (fuel : nat) l :
  eof l = true ->
  readtok (S fuel) l = Ret (End_token l) (set_last_token (End_token l) l).
Proof.
  intros He. simpl. unfold stage, bind, End_if_eof. now rewrite He.
Qed.

(** C7: once [eof()] holds, every further call of [readtok] returns an
    [End] token at the current line and column and does not throw, however
    many calls are made; the object stays at end of input. *)
Theorem readtok_eof_idempotent (l : Lexer) (k fuel : nat) :
  eof l = true ->
  exists l',
    readtoks k (S fuel) l = Ret (replicate k (End_token l)) l' /\
    eof l' = true /\ _line l' = _line l /\ _col l' = _col l /\
    _it l' = _it l.
Proof.
  revert l. induction k as [|k IH]; intros l He.
  - exists l. repeat split; assumption.
  - destruct (IH (set_last_token (End_token l) l) He)
      as (l' & E & He' & Hl & Hc & Hi).
    exists l'. cbn [readtoks]. unfold bind at 1.
    rewrite (readtok_eof fuel l He).
    unfold bind. change (End_token (set_last_token (End_token l) l))
      with (End_token l) in E. rewrite E.
    repeat split; assumption.
Qed.

Lemma readtok_eof_idempotent_witness :
  eof at_end_example = true /\
  exists l',
    readtoks 5 (S 0) at_end_example =
      Ret (replicate 5 (End_token at_end_example)) l' /\
    eof l' = true /\ _line l' = _line at_end_example /\
    _col l' = _col at_end_example /\ _it l' = _it at_end_example.
Proof.
  split; [reflexivity|].
  exact (readtok_eof_idempotent at_end_example 5 0 eq_refl).
Defined.

(** ** Line and column counters *)

Lemma incr_small (n : N) : n + 1 < 2 ^ 64 -> incr n = n + 1.
Proof. intros H. unfold incr. now apply N.mod_small. Qed.

(** C8: when [readchar] consumes a character (end of input not seen
    before, a character left in the source), a line feed adds one to the
    line counter and sets the column counter to zero, and any other
    character adds one to the column counter and leaves the line counter
    as it is.  The counters are [size_t], so adding one is [incr], which
    is [+ 1] below the largest value. *)
Theorem readchar_counters (l : Lexer) (c : ascii) :
  eof l = false ->
  _source l !! _it l = Some c ->
  exists l',
    readchar l = Ret c l' /\ _it l' = S (_it l) /\ _last_char l' = c /\
    (c = LF -> _line l' = incr (_line l) /\ _col l' = 0) /\
    (c <> LF -> _col l' = incr (_col l) /\ _line l' = _line l) /\
    (forall n, n + 1 < 2 ^ 64 -> incr n = n + 1).
Proof.
  intros He Hc.
  assert (Hu : unread l = c :: drop (S (_it l)) (_source l)).
  { unfold unread. now apply drop_S. }
  exists (advance c l). rewrite (readchar_cons l c _ He Hu).
  split; [reflexivity|]. split; [reflexivity|]. split; [reflexivity|].
  split; [|split; [|exact incr_small]].
  - intros ->. split; reflexivity.
  - intros Hne. simpl. destruct (Ascii.eqb_spec c LF); [contradiction|].
    split; reflexivity.
Qed.

Lemma readchar_counters_witness :
  eof two_lines_example = false /\
  _source two_lines_example !! _it two_lines_example = Some LF /\
  exists l',
    readchar two_lines_example = Ret LF l' /\
    _it l' = S (_it two_lines_example) /\ _last_char l' = LF /\
    (LF = LF -> _line l' = incr (_line two_lines_example) /\ _col l' = 0) /\
    (LF <> LF -> _col l' = incr (_col two_lines_example) /\
                 _line l' = _line two_lines_example) /\
    (forall n, n + 1 < 2 ^ 64 -> incr n = n + 1).
Proof.
  split; [reflexivity|]. split; [reflexivity|].
  exact (readchar_counters two_lines_example LF eq_refl eq_refl).
Defined.

(** ** Reading a known text *)

Lemma unread_lt l (c : ascii) (r : list ascii) :
  unread l = c :: r -> (_it l < length (_source l))%nat.
Proof.
  unfold unread. intros H. apply (f_equal length) in H.
  rewrite length_drop in H. simpl in H. lia.
Qed.

Lemma unread_lookup l (c : ascii) (r : list ascii) :
  unread l = c :: r -> _source l !! _it l = Some c.
Proof.
  unfold unread. intros H.
  rewrite <- (Nat.add_0_r (_it l)), <- lookup_drop, H. reflexivity.
Qed.

Lemma blank_char (c : ascii) :
  is_whitespace c = true ->
  Ascii.eqb c NUL = false /\ Ascii.eqb c LF = false.
Proof.
  unfold is_whitespace. intros H. apply orb_true_iff in H.
  destruct H as [H|H]; apply Ascii.eqb_eq in H; subst c; split; reflexivity.
Qed.

Lemma advances_app (cs ds : list ascii) l :
  advances (cs ++ ds) l = advances ds (advances cs l).
Proof. revert l. induction cs as [|c cs IH]; intros l; [reflexivity|apply IH]. Qed.

Lemma advances_fields (cs : list ascii) l :
  _source (advances cs l) = _source l /\
  _current_parsed (advances cs l) = _current_parsed l /\
  _last_value (advances cs l) = _last_value l /\
  _last_token (advances cs l) = _last_token l /\
  _it (advances cs l) = (_it l + length cs)%nat.
Proof.
  revert l. induction cs as [|c cs IH]; intros l; cbn [advances length].
  - repeat split; lia.
  - destruct (IH (advance c l)) as (H1 & H2 & H3 & H4 & H5).
    rewrite H1, H2, H3, H4, H5. cbn. repeat split; lia.
Qed.

(** Characters other than a line feed leave the line counter and add one
    to the column counter each. *)
Lemma advances_counters (cs : list ascii) l :
  Forall (fun c => Ascii.eqb c LF = false) cs ->
  _line (advances cs l) = _line l /\
  _col (advances cs l) = Nat.iter (length cs) incr (_col l).
Proof.
  revert l. induction cs as [|c cs IH]; intros l Hall; [split; reflexivity|].
  apply Forall_cons in Hall. destruct Hall as [Hc Hall].
  cbn [advances length]. destruct (IH (advance c l) Hall) as [H1 H2].
  rewrite H1, H2, Nat.iter_succ_r. cbn. rewrite Hc. split; reflexivity.
Qed.

Lemma readchars_prefix (cs rest : list ascii) l :
  eof l = false -> unread l = cs ++ rest ->
  Forall (fun c => Ascii.eqb c NUL = false) cs ->
  readchars (length cs) l = Ret tt (advances cs l) /\
  unread (advances cs l) = rest /\
  eof (advances cs l) = false.
Proof.
  revert l. induction cs as [|c cs IH]; intros l He Hu Hn.
  - repeat split; assumption.
  - apply Forall_cons in Hn. destruct Hn as [Hc Hn]. cbn in Hu.
    cbn [readchars length advances]. unfold bind.
    rewrite (readchar_cons l c _ He Hu).
    apply IH; [exact Hc|now apply unread_advance in Hu|exact Hn].
Qed.

Lemma advances_unread (cs rest : list ascii) l :
  wf l -> unread l = cs ++ rest ->
  unread (advances cs l) = rest /\ wf (advances cs l).
Proof.
  revert l. induction cs as [|c cs IH]; intros l Hw Hu.
  - split; assumption.
  - cbn in Hu. cbn [advances].
    apply IH; [|exact (unread_advance l c _ Hu)].
    apply unread_lt in Hu. unfold wf in *. cbn. lia.
Qed.

(** ** The start of [readtok] *)

Lemma iterate_S (n : nat) (body : M control) l :
  iterate (S n) body l =
  match body l with
  | Ret Continue l' => iterate n body l'
  | Ret Break l' => Ret None l'
  | Ret (Return t) l' => Ret (Some t) l'
  | Throw e l' => Throw e l'
  | OutOfFuel => OutOfFuel
  end.
Proof. reflexivity. Qed.

Lemma readtok_S (n : nat) :
  readtok (S n) =
  stage End_if_eof
    (stage skip_parsed
       (stage (iterate n whitespace_body) (dispatch n (readtok n)))).
Proof. reflexivity. Qed.

#[local] Arguments readchar : simpl never.
#[local] Arguments peekstr : simpl never.
#[local] Arguments iterate : simpl never.
#[local] Arguments readtok : simpl never.
#[local] Arguments incr : simpl never.

(** [readtok] reads a character and goes on to the whitespace loop. *)
Lemma readtok_read (n : nat) l (c : ascii) (r : list ascii) :
  eof l = false -> _current_parsed l = true ->
  unread l = c :: r -> Ascii.eqb c NUL = false ->
  readtok (S n) l =
  stage (iterate n whitespace_body) (dispatch n (readtok n)) (advance c l).
Proof.
  intros He Hp Hu Hc. rewrite readtok_S.
  unfold stage at 1, bind at 1, End_if_eof at 1. rewrite He.
  unfold stage at 1, bind at 1, skip_parsed, bind at 1, get.
  rewrite Hp. unfold bind at 1. rewrite (readchar_cons l c r He Hu).
  unfold End_if_eof, eof. cbn [_last_char advance]. now rewrite Hc.
Qed.

(** [readtok] keeps the character read last and goes on to the whitespace
    loop. *)
Lemma readtok_keep (n : nat) l :
  eof l = false -> _current_parsed l = false ->
  readtok (S n) l =
  stage (iterate n whitespace_body) (dispatch n (readtok n))
        (set_current_parsed true l).
Proof.
  intros He Hp. rewrite readtok_S.
  unfold stage at 1, bind at 1, End_if_eof at 1. rewrite He.
  unfold stage at 1, bind at 1, skip_parsed, bind at 1, get.
  now rewrite Hp.
Qed.

Lemma whitespace_body_read l (c : ascii) (r : list ascii) :
  eof l = false -> is_whitespace (_last_char l) = true ->
  unread l = c :: r -> Ascii.eqb c NUL = false ->
  whitespace_body l = Ret Continue (advance c l).
Proof.
  intros He Hw Hu Hc. unfold whitespace_body, bind, get. rewrite Hw.
  rewrite (readchar_cons l c r He Hu).
  unfold End_if_eof, eof. cbn [_last_char advance]. now rewrite Hc.
Qed.

Lemma whitespace_body_stop l :
  is_whitespace (_last_char l) = false -> whitespace_body l = Ret Break l.
Proof. intros Hw. unfold whitespace_body, bind, get. now rewrite Hw. Qed.

(** The whitespace loop reads the blanks [w] and stops on the character
    after them. *)
Lemma whitespace_loop (w : list ascii) (c : ascii) (r : list ascii) :
  blank w -> Ascii.eqb c NUL = false -> is_whitespace c = false ->
  forall (n : nat) l,
  (length w + 1 < n)%nat ->
  eof l = false -> is_whitespace (_last_char l) = true ->
  unread l = w ++ c :: r ->
  iterate n whitespace_body l = Ret None (advances (w ++ [c]) l).
Proof.
  intros Hb Hc Hcw. induction w as [|b w IH]; intros n l Hn He Hw Hu.
  - destruct n as [|[|n]]; [simpl in Hn; lia..|]. cbn in Hu.
    rewrite iterate_S, (whitespace_body_read l c r He Hw Hu Hc).
    rewrite iterate_S, whitespace_body_stop by exact Hcw. reflexivity.
  - destruct n as [|n]; [simpl in Hn; lia|]. cbn in Hu.
    apply Forall_cons in Hb. destruct Hb as [Hb1 Hb].
    destruct (blank_char b Hb1) as [Hb0 _].
    rewrite iterate_S, (whitespace_body_read l b _ He Hw Hu Hb0).
    apply (IH Hb); [simpl in Hn; lia|exact Hb0|exact Hb1|].
    now apply unread_advance in Hu.
Qed.

Lemma stage_None (m : M (option Token)) (rest : M Token) l l' :
  m l = Ret None l' -> stage m rest l = rest l'.
Proof. intros H. unfold stage, bind. now rewrite H. Qed.

(** A lexer that has read the text [cs] and its last character [c], of
    which none is a line feed, stands on [c]. *)
Lemma standing_advances (cs : list ascii) (c : ascii) (r : list ascii) l :
  eof l = false -> wf l -> addressable l ->
  unread l = cs ++ c :: r ->
  Forall (fun c => Ascii.eqb c LF = false) (cs ++ [c]) ->
  Ascii.eqb c NUL = false ->
  standing (advances (cs ++ [c]) l) c r /\
  _current_parsed (advances (cs ++ [c]) l) = _current_parsed l /\
  _line (advances (cs ++ [c]) l) = _line l /\
  _col (advances (cs ++ [c]) l) = Nat.iter (S (length cs)) incr (_col l).
Proof.
  intros He Hw Ha Hu Hlf Hc.
  assert (Hu' : unread l = (cs ++ [c]) ++ r) by now rewrite <- app_assoc.
  destruct (advances_unread _ _ l Hw Hu') as [Hu1 Hw1].
  destruct (advances_fields (cs ++ [c]) l) as (Hs & Hp & _ & _ & Hi).
  destruct (advances_counters (cs ++ [c]) l Hlf) as [Hln Hcl].
  assert (Hlast : _last_char (advances (cs ++ [c]) l) = c).
  { rewrite advances_app. reflexivity. }
  rewrite length_app in Hi, Hcl. cbn [length] in Hi, Hcl.
  rewrite Nat.add_1_r in Hcl.
  split; [|split; [exact Hp|split; [exact Hln|exact Hcl]]].
  split; [unfold eof; now rewrite Hlast|]. split; [exact Hw1|].
  split; [unfold addressable; now rewrite Hs|]. split; [exact Hlast|].
  split; [exact Hu1|].
  exists (_it l + length cs)%nat. split; [lia|]. rewrite Hs.
  destruct (advances_unread cs (c :: r) l Hw Hu) as [Hu2 _].
  apply unread_lookup in Hu2.
  destruct (advances_fields cs l) as (Hs2 & _ & _ & _ & Hi2).
  now rewrite Hs2, Hi2 in Hu2.
Qed.

(** From a lexer before blanks and a character [c] that starts a token,
    [readtok] gets to the part below the whitespace loop with a lexer
    that stands on [c], at the token's line and column. *)
Lemma readtok_enter (n : nat) l (w : list ascii) (c : ascii)
    (r : list ascii) :
  before l (w ++ c :: r) -> blank w ->
  Ascii.eqb c NUL = false -> is_whitespace c = false ->
  Ascii.eqb c LF = false ->
  (length w + 1 < n)%nat ->
  exists l1,
    readtok (S n) l = dispatch n (readtok n) l1 /\
    standing l1 c r /\ _current_parsed l1 = true /\
    _line l1 = _line l /\ _col l1 = token_col l w.
Proof.
  intros (He & Hw & Ha & Hs & Hu) Hb Hc Hcw Hcl Hn.
  assert (Hlf : forall cs, blank cs ->
            Forall (fun c => Ascii.eqb c LF = false) (cs ++ [c])).
  { intros cs Hcs. apply Forall_app. split; [|now constructor].
    eapply Forall_impl; [exact Hcs|]. intros b Hb1.
    exact (proj2 (blank_char b Hb1)). }
  unfold pending in Hu. unfold token_col.
  destruct (_current_parsed l) eqn:Hp.
  - (* the first character is read by [readtok] itself *)
    destruct (standing_advances w c r l He Hw Ha Hu (Hlf w Hb) Hc)
      as (H1 & H2 & H3 & H4).
    exists (advances (w ++ [c]) l). rewrite Nat.add_1_r.
    split; [|split; [exact H1|split; [now rewrite H2|split; assumption]]].
    destruct w as [|b w]; cbn in Hu.
    + rewrite (readtok_read n l c r He Hp Hu Hc).
      destruct n as [|n]; [simpl in Hn; lia|]. apply stage_None.
      rewrite iterate_S, whitespace_body_stop by exact Hcw. reflexivity.
    + apply Forall_cons in Hb. destruct Hb as [Hb1 Hb].
      destruct (blank_char b Hb1) as [Hb0 _].
      rewrite (readtok_read n l b _ He Hp Hu Hb0). apply stage_None.
      apply (whitespace_loop w c r Hb Hc Hcw);
        [simpl in Hn; lia|exact Hb0|exact Hb1|].
      now apply unread_advance in Hu.
  - (* the character read last is the first one *)
    rewrite (readtok_keep n l He Hp). rewrite Nat.add_0_r.
    destruct w as [|b w]; cbn in Hu.
    + injection Hu as Hlast Hu.
      exists (set_current_parsed true l).
      destruct n as [|n]; [simpl in Hn; lia|].
      split.
      { apply stage_None. rewrite iterate_S, whitespace_body_stop;
          [reflexivity|]. cbn. now rewrite Hlast. }
      assert (Hcw' : is_whitespace (_last_char l) = false)
        by now rewrite Hlast.
      destruct (Hs Hp Hcw') as (i & Hi & Hl). rewrite Hlast in Hl.
      split; [|repeat split].
      split; [exact He|]. split; [exact Hw|]. split; [exact Ha|].
      split; [exact Hlast|]. split; [exact Hu|].
      exists i. split; assumption.
    + injection Hu as Hlast Hu.
      apply Forall_cons in Hb. destruct Hb as [Hb1 Hb].
      destruct (standing_advances w c r (set_current_parsed true l)
                  He Hw Ha Hu (Hlf w Hb) Hc) as (H1 & H2 & H3 & H4).
      exists (advances (w ++ [c]) (set_current_parsed true l)).
      split; [|split; [exact H1|split; [exact H2|split; assumption]]].
      apply stage_None.
      apply (whitespace_loop w c r Hb Hc Hcw);
        [simpl in Hn; lia|exact He| |exact Hu].
      cbn. now rewrite Hlast.
Qed.

Lemma before_new (source : list ascii) :
  (Z.of_nat (length source) < 2 ^ 64)%Z ->
  before (Lexer_new source) source.
Proof.
  intros H. split; [reflexivity|]. split; [unfold wf; simpl; lia|].
  split; [exact H|]. split; [intros [=]|]. unfold pending, unread. cbn.
  apply drop_0.
Qed.

(** ** The table of fixed patterns *)

Lemma to_table_spec (c : ascii) :
  to_table c = true ->
  Ascii.eqb c NUL = false /\ is_whitespace c = false /\
  Ascii.eqb c LF = false /\ Ascii.eqb c "/" = false /\
  Ascii.eqb c DQUOTE = false /\ Ascii.eqb c SQUOTE = false /\
  Ascii.eqb c "$" = false.
Proof.
  unfold to_table. intros H. apply negb_true_iff in H.
  repeat (apply orb_false_iff in H; destruct H as [H ?]).
  repeat split; assumption.
Qed.

Lemma peekstr_standing l (c : ascii) (r : list ascii) :
  standing l c r -> peekstr l = Ret (take 4 (c :: r)) l.
Proof.
  intros (_ & Hw & Ha & _ & Hu & i & Hi & Hl).
  unfold addressable, wf in *. unfold peekstr, peek_pos. rewrite Hi.
  replace (Z.of_nat (S i) - 1)%Z with (Z.of_nat i) by lia.
  rewrite Z.mod_small by lia.
  destruct (Z.ltb_spec (Z.of_nat (length (_source l))) (Z.of_nat i)); [lia|].
  rewrite Nat2Z.id, (drop_S _ _ _ Hl).
  unfold unread in Hu. now rewrite Hi in Hu; rewrite Hu.
Qed.

(** A character that starts neither a comment, nor a string, nor a hex
    color goes to the table of fixed patterns. *)
Lemma dispatch_plain (n : nat) (again : M Token) l :
  to_table (_last_char l) = true ->
  dispatch n again l =
  stage (fixed_pattern (_line l) (_col l)) (valued n (_line l) (_col l)) l.
Proof.
  intros H. destruct (to_table_spec _ H) as (_ & _ & _ & H1 & H2 & H3 & H4).
  cbv beta iota delta
    [dispatch stage bind get comment string_literal hex_color ret].
  rewrite H1. cbv beta iota. rewrite H2, H3. cbn [orb].
  cbv beta iota. rewrite H4. reflexivity.
Qed.

Lemma fixed_pattern_found (tl tc : N) (k : M Token) l
    (peek pat : list ascii) (ty : TokenType) :
  peekstr l = Ret peek l ->
  find_match peek basic_matches = Some (pat, ty) ->
  stage (fixed_pattern tl tc) k l =
  (readchars (length pat - 1);;; return_token (mkToken ty tl tc)) l.
Proof.
  intros Hp Hf. unfold stage, fixed_pattern, bind. rewrite Hp, Hf.
  destruct (readchars (length pat - 1) l); reflexivity.
Qed.

Lemma fixed_pattern_none (tl tc : N) (k : M Token) l (peek : list ascii) :
  peekstr l = Ret peek l ->
  find_match peek basic_matches = None ->
  stage (fixed_pattern tl tc) k l = k l.
Proof.
  intros Hp Hf. unfold stage, fixed_pattern, bind. now rewrite Hp, Hf.
Qed.

(** What [readtok] gives when the text before it starts, after blanks,
    with a table entry and no entry above it matches the four characters
    in view: that entry's token, with the entry's text consumed and
    nothing more. *)
Lemma readtok_fixed_pattern (n : nat) l (w : list ascii) (c : ascii)
    (cs rest : list ascii) (ty : TokenType) :
  before l (w ++ (c :: cs) ++ rest) -> blank w ->
  to_table c = true ->
  Forall (fun c => Ascii.eqb c NUL = false) cs ->
  find_match (take 4 ((c :: cs) ++ rest)) basic_matches = Some (c :: cs, ty) ->
  (length w + 1 < n)%nat ->
  exists l',
    readtok (S n) l = Ret (mkToken ty (_line l) (token_col l w)) l' /\
    before l' rest /\ _current_parsed l' = true.
Proof.
  intros Hb Hw Hc Hn Hf Hfuel.
  destruct (to_table_spec c Hc) as (Hc0 & Hcw & Hcl & _).
  destruct (readtok_enter n l w c (cs ++ rest) Hb Hw Hc0 Hcw Hcl Hfuel)
    as (l1 & E & Hst & Hp & Hln & Hcol).
  rewrite E. clear E.
  assert (Hpeek := peekstr_standing l1 c _ Hst).
  destruct Hst as (He & Hwf & Ha & Hlast & Hu & _).
  rewrite dispatch_plain by now rewrite Hlast.
  rewrite (fixed_pattern_found _ _ _ _ _ (c :: cs) ty Hpeek Hf).
  cbn [length]. rewrite Nat.sub_1_r. cbn [Nat.pred].
  destruct (readchars_prefix cs rest l1 He Hu Hn) as (Hr & Hu' & He').
  destruct (advances_unread cs rest l1 Hwf Hu) as [_ Hwf'].
  destruct (advances_fields cs l1) as (Hs' & Hp' & _).
  unfold bind. rewrite Hr, Hln, Hcol.
  eexists. split; [reflexivity|]. split; [|cbn; now rewrite Hp'].
  split; [exact He'|]. split; [exact Hwf'|].
  split; [unfold addressable in *; cbn; now rewrite Hs'|].
  split; [intros H; cbn in H; rewrite Hp', Hp in H; discriminate H|].
  unfold pending. cbn. rewrite Hp', Hp. exact Hu'.
Qed.

(** ** Compound operators *)

Ltac fixed_pattern_case n :=
  lazymatch goal with
  | Hb : before ?l (?w ++ (?c :: ?cs) ++ ?rest), Hw : blank ?w,
    Hn : (length ?w + 1 < n)%nat
    |- context [mkToken ?ty _ _] =>
      exact (readtok_fixed_pattern n l w c cs rest ty Hb Hw eq_refl
               ltac:(repeat constructor) eq_refl Hn)
  end.

(** The compound operators that stand above every entry that is a prefix
    of theirs are returned as one token. *)
Lemma compound_operators_matched (n : nat) l
    (w op rest : list ascii) (ty : TokenType) :
  before l (w ++ op ++ rest) -> blank w -> (length w + 1 < n)%nat ->
  (op, ty) ∈ good_compound ->
  exists l',
    readtok (S n) l = Ret (mkToken ty (_line l) (token_col l w)) l' /\
    before l' rest /\ _current_parsed l' = true.
Proof.
  intros Hb Hw Hn Hin. unfold good_compound in Hin.
  repeat (apply elem_of_cons in Hin; destruct Hin as [Hin|Hin];
          [injection Hin as -> ->; fixed_pattern_case n|]).
  now apply elem_of_nil in Hin.
Qed.

(** The entries ["<"] and [">"] stand above ["<="], [">="], ["<<="] and
    [">>="] in the table, so the longer operators are never matched: the
    token is that of the first character, and the rest is left for the
    next call. *)
Lemma compound_operators_shadowed (n : nat) l (w rest : list ascii) :
  blank w -> (length w + 1 < n)%nat ->
  (before l (w ++ chars "<=" ++ rest) ->
   exists l',
     readtok (S n) l = Ret (mkToken Inferior (_line l) (token_col l w)) l'
     /\ before l' (chars "=" ++ rest) /\ _current_parsed l' = true) /\
  (before l (w ++ chars ">=" ++ rest) ->
   exists l',
     readtok (S n) l = Ret (mkToken Superior (_line l) (token_col l w)) l'
     /\ before l' (chars "=" ++ rest) /\ _current_parsed l' = true) /\
  (before l (w ++ chars "<<=" ++ rest) ->
   exists l',
     readtok (S n) l = Ret (mkToken Inferior (_line l) (token_col l w)) l'
     /\ before l' (chars "<=" ++ rest) /\ _current_parsed l' = true) /\
  (before l (w ++ chars ">>=" ++ rest) ->
   exists l',
     readtok (S n) l = Ret (mkToken Superior (_line l) (token_col l w)) l'
     /\ before l' (chars ">=" ++ rest) /\ _current_parsed l' = true).
Proof.
  intros Hw Hn. repeat split; intros Hb.
  - change (before l (w ++ ["<"] ++ (chars "=" ++ rest))) in Hb.
    fixed_pattern_case n.
  - change (before l (w ++ [">"] ++ (chars "=" ++ rest))) in Hb.
    fixed_pattern_case n.
  - change (before l (w ++ ["<"] ++ (chars "<=" ++ rest))) in Hb.
    fixed_pattern_case n.
  - change (before l (w ++ [">"] ++ (chars ">=" ++ rest))) in Hb.
    fixed_pattern_case n.
Qed.

(** C1: the code at the compound operators that it does not return as one
    token.  ["<="] comes out as [Inferior] and then [Equal], [">="] as
    [Superior] and then [Equal], ["<<="] as [Inferior], [Inferior],
    [Equal], [">>="] as [Superior], [Superior], [Equal], and ["/="], whose
    first character is lost in the check for comments, as [Equal] twice.
    The budget is five rounds or any larger one. *)
Theorem compound_operators_split (n : nat) :
  kinds (readtoks 3 (5 + n) (Lexer_new (chars "<="))) =
    Some [Inferior; Equal; End] /\
  kinds (readtoks 3 (5 + n) (Lexer_new (chars ">="))) =
    Some [Superior; Equal; End] /\
  kinds (readtoks 4 (5 + n) (Lexer_new (chars "<<="))) =
    Some [Inferior; Inferior; Equal; End] /\
  kinds (readtoks 4 (5 + n) (Lexer_new (chars ">>="))) =
    Some [Superior; Superior; Equal; End] /\
  kinds (readtoks 3 (5 + n) (Lexer_new (chars "/="))) =
    Some [Equal; Equal; End].
Proof.
  repeat split;
    (rewrite (readtoks_extends _ 5 (5 + n)); [|lia|]; vm_compute;
     [reflexivity|discriminate]).
Qed.

(** ** Runs of numeral and identifier characters *)

Lemma run_body_cons (p : ascii -> bool) l (c : ascii) (r : list ascii) :
  eof l = false -> unread l = c :: r ->
  run_body p l =
  Ret (if p c then Continue else Break)
      (advance c (push_value (_last_char l) l)).
Proof.
  intros He Hu. cbv beta iota delta [run_body bind get modify ret].
  now rewrite (readchar_cons (push_value (_last_char l) l) c r He Hu).
Qed.

Lemma run_body_nil (p : ascii -> bool) l :
  eof l = false -> _it l = length (_source l) ->
  run_body p l =
  Ret (if p NUL then Continue else Break)
      (set_last_char NUL (push_value (_last_char l) l)).
Proof.
  intros He Hi. cbv beta iota delta [run_body bind get modify ret].
  now rewrite (readchar_nil (push_value (_last_char l) l) He Hi).
Qed.

(** The loop appends the run to the value and stops on the character
    after it, which it has read, or at the end of the source. *)
Lemma run_loop (p : ascii -> bool) (cs rest : list ascii) :
  p NUL = false ->
  forall (n : nat) l,
  (length cs < n)%nat ->
  wf l -> eof l = false ->
  unread l = cs ++ rest ->
  Forall (fun c => p c = true) cs ->
  stops p rest ->
  exists l',
    iterate n (run_body p) l = Ret None l' /\
    _last_value l' = _last_value l ++ _last_char l :: cs /\
    after_run l' rest /\
    _current_parsed l' = _current_parsed l /\
    _source l' = _source l /\
    wf l'.
Proof.
  intros Hp. induction cs as [|c cs IH]; intros n l Hn Hw He Hu Hall Hs.
  - destruct n as [|n]; [simpl in Hn; lia|]. rewrite iterate_S.
    cbn in Hu. destruct rest as [|c' r].
    + rewrite run_body_nil; [|exact He|now apply unread_nil].
      rewrite Hp.
      eexists. split; [reflexivity|]. split; [reflexivity|].
      split; [reflexivity|]. split; [reflexivity|].
      split; [reflexivity|exact Hw].
    + rewrite (run_body_cons p l c' r He Hu).
      cbn in Hs. rewrite Hs.
      eexists. split; [reflexivity|]. split; [reflexivity|].
      split; [|split; [reflexivity|split; [reflexivity|]]].
      * split; [reflexivity|]. split; [now apply unread_advance in Hu|].
        exists (_it l). split; [reflexivity|]. now apply unread_lookup in Hu.
      * apply unread_lt in Hu. unfold wf in *. cbn. lia.
  - destruct n as [|n]; [simpl in Hn; lia|]. rewrite iterate_S.
    apply Forall_cons in Hall. destruct Hall as [Hc Hall].
    cbn in Hu. rewrite (run_body_cons p l c (cs ++ rest) He Hu), Hc.
    assert (Hcn : Ascii.eqb c NUL = false).
    { destruct (Ascii.eqb_spec c NUL) as [->|]; [congruence|reflexivity]. }
    destruct (IH n (advance c (push_value (_last_char l) l)))
      as (l' & E & Hv & Ha & Hcp & Hsrc & Hw').
    + simpl in Hn. lia.
    + apply unread_lt in Hu. unfold wf in *. cbn. lia.
    + exact Hcn.
    + now apply (unread_advance (push_value (_last_char l) l)).
    + exact Hall.
    + exact Hs.
    + exists l'. split; [exact E|]. cbn in Hv. rewrite <- app_assoc in Hv.
      repeat split; assumption.
Qed.

(** After a run the lexer is before the text that follows the run. *)
Lemma before_after_run (l1 l' : Lexer) (rest : list ascii) (t : Token) :
  addressable l1 -> _source l' = _source l1 -> wf l' ->
  after_run l' rest ->
  let l'' := set_last_token t (set_current_parsed false l') in
  (rest = [] -> eof l'' = true) /\
  (forall c r, rest = c :: r -> Ascii.eqb c NUL = false -> before l'' rest).
Proof.
  intros Ha Hs Hw Hr l''. split.
  - intros ->. exact Hr.
  - intros c r -> Hc. destruct Hr as (Hl & Hu & i & Hi & Hlk).
    split; [unfold eof; cbn; now rewrite Hl|]. split; [exact Hw|].
    split; [unfold addressable in *; cbn; now rewrite Hs|].
    split; [intros _ _; exists i; cbn; rewrite Hl; split; assumption|].
    unfold pending, unread in *. cbn. now rewrite Hl, Hu.
Qed.

Lemma is_identifier_begin_plain (c : ascii) :
  is_identifier_begin c = true -> to_table c = true /\ is_numeral c = false.
Proof.
  destruct c as [[] [] [] [] [] [] [] []]; intros H;
    solve [discriminate H | split; reflexivity].
Qed.

Lemma is_numeral_plain (c : ascii) :
  is_numeral c = true -> to_table c = true.
Proof.
  destruct c as [[] [] [] [] [] [] [] []]; intros H;
    solve [discriminate H | reflexivity].
Qed.

(** The part of [readtok] for tokens with values, on a numeral
    character and on a character that starts an identifier. *)
Lemma valued_real (n : nat) (tl tc : N) l :
  is_numeral (_last_char l) = true ->
  valued n tl tc l =
  match iterate n numeral_body (set_last_value [] l) with
  | Ret _ l' =>
      Ret (mkToken RealLiteral tl tc)
          (set_last_token (mkToken RealLiteral tl tc)
             (set_current_parsed false l'))
  | Throw e l' => Throw e l'
  | OutOfFuel => OutOfFuel
  end.
Proof.
  intros H.
  cbv beta iota delta
    [valued stage bind modify real_literal get ret return_token].
  change (_last_char (set_last_value [] l)) with (_last_char l).
  rewrite H. cbv beta iota.
  now destruct (iterate n numeral_body (set_last_value [] l)).
Qed.

Lemma valued_identifier (n : nat) (tl tc : N) l :
  is_numeral (_last_char l) = false ->
  is_identifier_begin (_last_char l) = true ->
  valued n tl tc l =
  match iterate n identifier_body (set_last_value [] l) with
  | Ret _ l' =>
      Ret (mkToken Identifier tl tc)
          (set_last_token (mkToken Identifier tl tc)
             (set_current_parsed false l'))
  | Throw e l' => Throw e l'
  | OutOfFuel => OutOfFuel
  end.
Proof.
  intros H1 H2.
  cbv beta iota delta
    [valued stage bind modify real_literal identifier get ret return_token].
  change (_last_char (set_last_value [] l)) with (_last_char l).
  rewrite H1. cbv beta iota.
  change (_last_char (set_last_value [] l)) with (_last_char l).
  rewrite H2. cbv beta iota.
  now destruct (iterate n identifier_body (set_last_value [] l)).
Qed.

(** An identifier that no table entry is a prefix of: one [Identifier]
    token, the whole run as its value. *)
Lemma readtok_identifier (fuel : nat) l (w : list ascii) (c : ascii)
    (cs rest : list ascii) :
  before l (w ++ (c :: cs) ++ rest) -> blank w ->
  is_identifier_begin c = true ->
  Forall (fun c => is_identifier c = true) cs ->
  stops is_identifier rest ->
  find_match (take 4 ((c :: cs) ++ rest)) basic_matches = None ->
  (length w + length cs + 3 <= fuel)%nat ->
  exists l',
    readtok fuel l = Ret (mkToken Identifier (_line l) (token_col l w)) l' /\
    last_value l' = c :: cs /\
    _current_parsed l' = false /\
    (rest = [] -> eof l' = true) /\
    (forall c' r', rest = c' :: r' -> Ascii.eqb c' NUL = false ->
       before l' rest).
Proof.
  intros Hb Hw Hc Hall Hs Hf Hn.
  destruct fuel as [|n]; [lia|].
  destruct (is_identifier_begin_plain c Hc) as (Hc1 & Hc2).
  destruct (to_table_spec c Hc1) as (Hc0 & Hcw & Hcl & _).
  destruct (readtok_enter n l w c (cs ++ rest) Hb Hw Hc0 Hcw Hcl)
    as (l1 & E & Hst & Hp & Hln & Hcol); [lia|].
  rewrite E. clear E.
  assert (Hpeek := peekstr_standing l1 c _ Hst).
  destruct Hst as (He & Hwf & Ha & Hlast & Hu & _).
  rewrite dispatch_plain by now rewrite Hlast.
  rewrite (fixed_pattern_none _ _ _ _ _ Hpeek Hf).
  destruct (run_loop is_identifier cs rest eq_refl n (set_last_value [] l1))
    as (l' & E & Hv & Har & Hcp & Hsrc & Hw'); [lia|assumption..|].
  rewrite valued_identifier by now rewrite Hlast.
  change identifier_body with (run_body is_identifier). rewrite E.
  rewrite Hln, Hcol. eexists. split; [reflexivity|].
  cbn in Hv. rewrite Hlast in Hv.
  split; [exact Hv|]. split; [reflexivity|].
  exact (before_after_run l1 l' rest _ Ha Hsrc Hw' Har).
Qed.

(** C9: when the character at the cursor is a numeral character and no
    table entry matches the four characters in view, [readtok] consumes
    the run of numeral characters up to the first character that is not
    one (or the end of the source) and returns one [RealLiteral] token;
    the value is the text of the run as it stands, with any number of
    dots.  The character after the run is read and kept for the next
    call. *)
Theorem real_literal_verbatim (fuel : nat) (l : Lexer) (w : list ascii)
    (c : ascii) (cs rest : list ascii) :
  before l (w ++ (c :: cs) ++ rest) -> blank w ->
  is_numeral c = true ->
  Forall (fun c => is_numeral c = true) cs ->
  stops is_numeral rest ->
  find_match (take 4 ((c :: cs) ++ rest)) basic_matches = None ->
  (length w + length cs + 3 <= fuel)%nat ->
  exists l',
    readtok fuel l = Ret (mkToken RealLiteral (_line l) (token_col l w)) l' /\
    last_value l' = c :: cs /\
    _current_parsed l' = false /\
    (rest = [] -> eof l' = true) /\
    (forall c' r', rest = c' :: r' -> Ascii.eqb c' NUL = false ->
       before l' rest).
Proof.
  intros Hb Hw Hc Hall Hs Hf Hn.
  destruct fuel as [|n]; [lia|].
  assert (Hc1 := is_numeral_plain c Hc).
  destruct (to_table_spec c Hc1) as (Hc0 & Hcw & Hcl & _).
  destruct (readtok_enter n l w c (cs ++ rest) Hb Hw Hc0 Hcw Hcl)
    as (l1 & E & Hst & Hp & Hln & Hcol); [lia|].
  rewrite E. clear E.
  assert (Hpeek := peekstr_standing l1 c _ Hst).
  destruct Hst as (He & Hwf & Ha & Hlast & Hu & _).
  rewrite dispatch_plain by now rewrite Hlast.
  rewrite (fixed_pattern_none _ _ _ _ _ Hpeek Hf).
  destruct (run_loop is_numeral cs rest eq_refl n (set_last_value [] l1))
    as (l' & E & Hv & Har & Hcp & Hsrc & Hw'); [lia|assumption..|].
  rewrite valued_real by now rewrite Hlast.
  change numeral_body with (run_body is_numeral). rewrite E.
  rewrite Hln, Hcol. eexists. split; [reflexivity|].
  cbn in Hv. rewrite Hlast in Hv.
  split; [exact Hv|]. split; [reflexivity|].
  exact (before_after_run l1 l' rest _ Ha Hsrc Hw' Har).
Qed.

Lemma real_literal_verbatim_witness :
  before real_example ([] ++ chars "1.2.3" ++ []) /\
  exists l',
    readtok 7 real_example = Ret (mkToken RealLiteral 1 1) l' /\
    last_value l' = chars "1.2.3" /\
    _current_parsed l' = false /\ eof l' = true.
Proof.
  assert (Hb : before real_example ([] ++ chars "1.2.3" ++ []))
    by (apply before_new; vm_compute; reflexivity).
  split; [exact Hb|].
  destruct (real_literal_verbatim 7 real_example [] "1" (chars ".2.3") [] Hb)
    as (l' & E & Hv & Hp & He & _).
  - constructor.
  - reflexivity.
  - repeat constructor.
  - exact I.
  - reflexivity.
  - simpl. lia.
  - exists l'. repeat split; [exact E|exact Hv|exact Hp|exact (He eq_refl)].
Defined.

(** ** Keywords *)

(** C2, against the claim: on the source [ifx] the first call of [readtok]
    returns the token [If], and the second an [Identifier] with the value
    [x]. *)
Lemma ifx_is_split :
  exists l1 l2,
    readtok 5 ifx_example = Ret (mkToken If 1 1) l1 /\
    readtok 5 l1 = Ret (mkToken Identifier 1 3) l2 /\
    last_value l2 = chars "x".
Proof.
  eexists. eexists.
  split; [vm_compute; reflexivity|].
  split; [vm_compute; reflexivity|]. reflexivity.
Qed.

(** C2, as the code has it: a keyword text that fits in the four
    characters in view ([if], [else], [for], [do], [with], [var]) is
    returned as its keyword token whatever follows it, an
    identifier character included, and the characters after it are left
    for the next call.  The keyword texts [while] and [repeat] are never
    matched: followed by identifier characters they give one [Identifier]
    token whose value is the whole run. *)
Theorem keyword_then_identifier_char (n : nat) (l : Lexer)
    (w kw : list ascii) (c : ascii) (cs rest : list ascii) :
  before l (w ++ kw ++ (c :: cs) ++ rest) -> blank w ->
  Forall (fun c => is_identifier c = true) (c :: cs) ->
  stops is_identifier rest ->
  (length w + 1 < n)%nat ->
  (forall ty, (kw, ty) ∈ matched_keywords ->
     exists l',
       readtok (S n) l = Ret (mkToken ty (_line l) (token_col l w)) l' /\
       before l' ((c :: cs) ++ rest) /\ _current_parsed l' = true) /\
  (kw ∈ long_keywords ->
   (length w + length kw + length cs + 3 <= S n)%nat ->
     exists l',
       readtok (S n) l =
         Ret (mkToken Identifier (_line l) (token_col l w)) l' /\
       last_value l' = kw ++ c :: cs /\ _current_parsed l' = false).
Proof.
  intros Hb Hw Hall Hs Hn. split.
  - intros ty Hin. unfold matched_keywords in Hin.
    repeat (apply elem_of_cons in Hin; destruct Hin as [Hin|Hin];
            [injection Hin as -> ->; fixed_pattern_case n|]).
    now apply elem_of_nil in Hin.
  - intros Hin Hfuel. unfold long_keywords in Hin.
    repeat (apply elem_of_cons in Hin; destruct Hin as [->|Hin]).
    + destruct (readtok_identifier (S n) l w "w" (chars "hile" ++ c :: cs)
                  rest) as (l' & E & Hv & Hp & _).
      * exact Hb.
      * exact Hw.
      * reflexivity.
      * apply Forall_app. split; [repeat constructor|exact Hall].
      * exact Hs.
      * reflexivity.
      * rewrite length_app. cbn in *. lia.
      * exists l'. repeat split; assumption.
    + destruct (readtok_identifier (S n) l w "r" (chars "epeat" ++ c :: cs)
                  rest) as (l' & E & Hv & Hp & _).
      * exact Hb.
      * exact Hw.
      * reflexivity.
      * apply Forall_app. split; [repeat constructor|exact Hall].
      * exact Hs.
      * reflexivity.
      * rewrite length_app. cbn in *. lia.
      * exists l'. repeat split; assumption.
    + now apply elem_of_nil in Hin.
Qed.

Lemma keyword_then_identifier_char_witness :
  (before ifx_example ([] ++ chars "if" ++ ["x"] ++ []) /\
   exists l',
     readtok 5 ifx_example = Ret (mkToken If 1 1) l' /\
     before l' (["x"] ++ []) /\ _current_parsed l' = true) /\
  (before whilex_example ([] ++ chars "while" ++ ["x"] ++ []) /\
   exists l',
     readtok 9 whilex_example = Ret (mkToken Identifier 1 1) l' /\
     last_value l' = chars "whilex" /\ _current_parsed l' = false).
Proof.
  assert (H1 : before ifx_example ([] ++ chars "if" ++ ["x"] ++ []))
    by (apply before_new; vm_compute; reflexivity).
  assert (H2 : before whilex_example ([] ++ chars "while" ++ ["x"] ++ []))
    by (apply before_new; vm_compute; reflexivity).
  split.
  - split; [exact H1|].
    refine (proj1 (keyword_then_identifier_char 4 ifx_example [] (chars "if")
                     "x" [] [] H1 _ _ I _) If _).
    + constructor.
    + repeat constructor.
    + simpl. lia.
    + unfold matched_keywords. apply elem_of_cons. left. reflexivity.
  - split; [exact H2|].
    refine (proj2 (keyword_then_identifier_char 8 whilex_example []
                     (chars "while") "x" [] [] H2 _ _ I _) _ _).
    + constructor.
    + repeat constructor.
    + simpl. lia.
    + unfold long_keywords. apply elem_of_cons. left. reflexivity.
    + simpl. lia.
Defined.

(** ** Patterns longer than the view *)

Section Yields.
Context {A B : Type}.

Lemma yields_bind (m : M A) (k : A -> M B) (Q : B -> Prop) :
  (forall a, yields (k a) Q) -> yields (bind m k) Q.
Proof.
  intros Hk l b l'. unfold bind. destruct (m l) as [a l1| |];
    [apply Hk|discriminate|discriminate].
Qed.

Lemma yields_ret (a : A) (Q : A -> Prop) : Q a -> yields (ret a) Q.
Proof. intros H l a' l' [= <- _]. exact H. Qed.

Lemma yields_throw (e : Exception) (Q : A -> Prop) : yields (throw e) Q.
Proof. intros l a l'. discriminate. Qed.
End Yields.

Lemma yields_stage (m : M (option Token)) (rest : M Token)
    (P : Token -> Prop) :
  yields m (yields_token P) -> yields rest P -> yields (stage m rest) P.
Proof.
  intros Hm Hr l t l'. unfold stage, bind.
  destruct (m l) as [[t1|] l1| |] eqn:E; [|apply Hr|discriminate|discriminate].
  intros [= <- _]. exact (Hm l _ l1 E t1 eq_refl).
Qed.

Lemma yields_iterate (n : nat) (body : M control) (P : Token -> Prop) :
  yields body (returns_token P) ->
  yields (iterate n body) (yields_token P).
Proof.
  intros Hb. induction n as [|n IH]; intros l o l'; [discriminate|].
  rewrite iterate_S. destruct (body l) as [[| |t] l1| |] eqn:E.
  - apply IH.
  - intros [= <- _] t. discriminate.
  - intros [= <- _] t' [= <-]. exact (Hb l _ l1 E t eq_refl).
  - discriminate.
  - discriminate.
Qed.

(** A match of the table is a prefix of the view. *)
Lemma find_match_prefix (peek pat : list ascii) (ty : TokenType)
    (table : list (list ascii * TokenType)) :
  find_match peek table = Some (pat, ty) ->
  (pat, ty) ∈ table /\ take (length pat) peek = pat.
Proof.
  induction table as [|[p t] table IH]; [discriminate|]. cbn [find_match].
  destruct (bool_decide_reflect (take (length p) peek = p)) as [E|_].
  - intros [= -> ->]. split; [apply elem_of_cons; now left|exact E].
  - intros H. destruct (IH H) as [Hin E]. split; [|exact E].
    apply elem_of_cons. now right.
Qed.

Lemma long_pattern_length (pat : list ascii) (ty : TokenType) :
  (pat, ty) ∈ basic_matches -> long_pattern ty = true ->
  (4 < length pat)%nat.
Proof.
  intros Hin. unfold basic_matches in Hin.
  repeat (apply elem_of_cons in Hin; destruct Hin as [[= -> ->]|Hin];
          [cbn; intros; first [discriminate | lia]|]).
  now apply elem_of_nil in Hin.
Qed.

Lemma find_match_short (peek pat : list ascii) (ty : TokenType) :
  (length peek <= 4)%nat ->
  find_match peek basic_matches = Some (pat, ty) ->
  long_pattern ty = false.
Proof.
  intros Hl Hf. destruct (find_match_prefix _ _ _ _ Hf) as [Hin E].
  destruct (long_pattern ty) eqn:Hlong; [|reflexivity].
  apply (long_pattern_length pat ty Hin) in Hlong.
  apply (f_equal length) in E. rewrite length_take in E. lia.
Qed.

Lemma yields_bind_with {A B} (m : M A) (k : A -> M B)
    (P : A -> Prop) (Q : B -> Prop) :
  yields m P -> (forall a, P a -> yields (k a) Q) -> yields (bind m k) Q.
Proof.
  intros Hm Hk l b l'. unfold bind. destruct (m l) as [a l1| |] eqn:E;
    [apply Hk; exact (Hm l a l1 E)|discriminate|discriminate].
Qed.

Lemma yields_End_if_eof : yields End_if_eof (yields_token short_token).
Proof.
  intros l o l'. unfold End_if_eof.
  destruct (eof l); intros [= <- _] t; [intros [= <-]; reflexivity|].
  discriminate.
Qed.

Ltac yields_token_done :=
  first [ reflexivity | assumption
        | match goal with
          | H : yields_token _ (Some _) |- _ => now apply H
          end ].

Ltac yields_go :=
  repeat (cbv beta;
          lazymatch goal with
          | |- yields (bind End_if_eof _) _ =>
              apply (yields_bind_with _ _ _ _ yields_End_if_eof); intros ? ?
          | |- yields (bind (iterate _ _) _) _ =>
              apply (yields_bind_with _ _ (yields_token short_token));
              [apply yields_iterate|intros ? ?]
          | Hag : yields ?m _ |- yields (bind ?m _) _ =>
              apply (yields_bind_with _ _ _ _ Hag); intros ? ?
          | |- yields (bind _ _) _ => apply yields_bind; intros ?
          | |- yields End_if_eof _ => apply yields_End_if_eof
          | |- yields (ret _) _ => apply yields_ret
          | |- yields (throw _) _ => apply yields_throw
          | |- yields (if ?b then _ else _) _ => destruct b
          | |- yields (match ?o with Some _ => _ | None => _ end) _ =>
              destruct o
          | |- yields_token _ (Some _) => intros ? [= <-]; yields_token_done
          | |- yields_token _ None => intros ?; discriminate
          | |- yields_token _ (if ?b then _ else _) => destruct b
          | |- returns_token _ (Return _) =>
              intros ? [= <-]; yields_token_done
          | |- returns_token _ (if ?b then _ else _) => destruct b
          | |- returns_token _ _ => intros ?; discriminate
          end).

Lemma yields_peekstr : yields peekstr (fun p => (length p <= 4)%nat).
Proof.
  intros l p l'. unfold peekstr. destruct (_ <? _)%Z; [discriminate|].
  intros [= <- _]. rewrite length_take. lia.
Qed.

Lemma yields_fixed_pattern (tl tc : N) :
  yields (fixed_pattern tl tc) (yields_token short_token).
Proof.
  unfold fixed_pattern.
  apply (yields_bind_with _ _ _ _ yields_peekstr). intros p Hp.
  destruct (find_match p basic_matches) as [[pat ty]|] eqn:Ef; yields_go.
  intros t [= <-]. exact (find_match_short p pat ty Hp Ef).
Qed.

Lemma yields_dispatch (n : nat) (again : M Token) :
  yields again short_token -> yields (dispatch n again) short_token.
Proof.
  intros Hagain.
  unfold dispatch, valued, comment, string_literal, hex_color, real_literal,
    identifier.
  yields_go.
  apply yields_stage.
  { unfold line_comment_body, block_comment_body, block_comment_inner.
    yields_go. }
  apply yields_stage; [unfold string_body; yields_go|].
  apply yields_stage; [yields_go|].
  apply yields_stage; [apply yields_fixed_pattern|].
  yields_go.
  apply yields_stage; [unfold numeral_body; yields_go|].
  apply yields_stage; [unfold identifier_body; yields_go|].
  yields_go.
Qed.

(** [readtok] returns no token whose table entry is longer than four
    characters. *)
Lemma yields_readtok (n : nat) : yields (readtok n) short_token.
Proof.
  induction n as [|n IH]; [intros l t l'; discriminate|].
  change (readtok (S n)) with
    (stage End_if_eof
       (stage skip_parsed
          (stage (iterate n whitespace_body) (dispatch n (readtok n))))).
  apply yields_stage; [apply yields_End_if_eof|].
  apply yields_stage; [unfold skip_parsed; yields_go|].
  apply yields_stage; [|now apply yields_dispatch].
  apply yields_iterate. unfold whitespace_body. yields_go.
Qed.

(** C4: the table is compared with a view of four characters, so an entry
    of more than four characters never matches: a match of the view that
    [peekstr] returns has at most four characters, no call of [readtok], on
    any lexer object and any source, returns a [While], [Repeat] or
    [ElseIf] token; and the words [while] and [repeat], followed by the
    end of the source or by a character that cannot continue an
    identifier, are returned as [Identifier] tokens with these words as
    values. *)
Theorem long_patterns_never_match (fuel : nat) (l : Lexer) :
  (forall peek l' pat ty,
     peekstr l = Ret peek l' ->
     find_match peek basic_matches = Some (pat, ty) ->
     (length pat <= 4)%nat) /\
  (forall t l', readtok fuel l = Ret t l' ->
     type t <> While /\ type t <> Repeat /\ type t <> ElseIf) /\
  (forall w kw rest,
     before l (w ++ kw ++ rest) -> blank w -> kw ∈ long_keywords ->
     stops is_identifier rest ->
     (length w + length kw + 2 <= fuel)%nat ->
     exists l',
       readtok fuel l = Ret (mkToken Identifier (_line l) (token_col l w)) l'
       /\ last_value l' = kw /\ _current_parsed l' = false).
Proof.
  split; [|split].
  - intros peek l' pat ty Hp Hf. apply yields_peekstr in Hp.
    apply find_match_prefix in Hf. destruct Hf as [_ Hf].
    apply (f_equal length) in Hf. rewrite length_take in Hf. lia.
  - intros t l' E. apply yields_readtok in E. unfold short_token in E.
    destruct (type t); repeat split; discriminate.
  - intros w kw rest Hb Hw Hin Hs Hn. unfold long_keywords in Hin.
    repeat (apply elem_of_cons in Hin; destruct Hin as [->|Hin]).
    + destruct (readtok_identifier fuel l w "w" (chars "hile") rest Hb Hw)
        as (l' & E & Hv & Hp & _); try reflexivity.
      * repeat constructor.
      * exact Hs.
      * cbn in *. lia.
      * exists l'. repeat split; assumption.
    + destruct (readtok_identifier fuel l w "r" (chars "epeat") rest Hb Hw)
        as (l' & E & Hv & Hp & _); try reflexivity.
      * repeat constructor.
      * exact Hs.
      * cbn in *. lia.
      * exists l'. repeat split; assumption.
    + now apply elem_of_nil in Hin.
Qed.

Lemma long_patterns_never_match_witness :
  (forall peek l' pat ty,
     peekstr while_example = Ret peek l' ->
     find_match peek basic_matches = Some (pat, ty) ->
     (length pat <= 4)%nat) /\
  (forall t l', readtok 7 while_example = Ret t l' ->
     type t <> While /\ type t <> Repeat /\ type t <> ElseIf) /\
  before while_example ([] ++ chars "while" ++ []) /\
  exists l',
    readtok 7 while_example = Ret (mkToken Identifier 1 1) l' /\
    last_value l' = chars "while" /\ _current_parsed l' = false.
Proof.
  assert (Hb : before while_example ([] ++ chars "while" ++ []))
    by (apply before_new; vm_compute; reflexivity).
  split; [exact (proj1 (long_patterns_never_match 7 while_example))|].
  split; [exact (proj1 (proj2 (long_patterns_never_match 7 while_example)))|].
  split; [exact Hb|].
  refine (proj2 (proj2 (long_patterns_never_match 7 while_example))
            [] (chars "while") [] Hb _ _ I _).
  - constructor.
  - unfold long_keywords. apply elem_of_cons. left. reflexivity.
  - simpl. lia.
Defined.

(** ** String literals *)

Lemma option_map_Some {A B} (f : A -> B) (o : option A) (b : B) :
  option_map f o = Some b -> exists a, o = Some a /\ b = f a.
Proof. destruct o as [a|]; [intros [= <-]; eauto|discriminate]. Qed.

Lemma wf_advance l (c : ascii) (r : list ascii) :
  unread l = c :: r -> wf (advance c l).
Proof. intros Hu. apply unread_lt in Hu. unfold wf in *. cbn. lia. Qed.

(** One round of the string loop on a character that is neither the
    delimiter nor a backslash. *)
Lemma string_body_char (delim : ascii) (tl tc : N) l
    (c : ascii) (r : list ascii) :
  eof l = false -> unread l = c :: r ->
  Ascii.eqb c delim = false -> Ascii.eqb c BACKSLASH = false ->
  string_body delim tl tc l =
  Ret Continue (push_value (if Ascii.eqb c "#" then LF else c) (advance c l)).
Proof.
  intros He Hu Hd Hb. cbv beta iota delta [string_body bind get modify ret].
  rewrite (readchar_cons l c r He Hu), Hd. cbn [_last_char advance].
  rewrite Hb. now destruct (Ascii.eqb c "#").
Qed.

(** One round of the string loop on a backslash and the character after
    it. *)
Lemma string_body_escape (delim : ascii) (tl tc : N) l
    (d : ascii) (r : list ascii) :
  eof l = false -> unread l = BACKSLASH :: d :: r ->
  Ascii.eqb BACKSLASH delim = false -> Ascii.eqb d NUL = false ->
  string_body delim tl tc l =
  Ret Continue
      (set_last_value (_last_value l ++ escape delim d)
                      (advance d (advance BACKSLASH l))).
Proof.
  intros He Hu Hd Hn. cbv beta iota delta [string_body bind get modify ret].
  rewrite (readchar_cons l _ _ He Hu), Hd. cbn [_last_char advance].
  rewrite Ascii.eqb_refl.
  rewrite (readchar_cons (advance BACKSLASH l) d r eq_refl
             (unread_advance l _ _ Hu)).
  unfold eof. cbn [_last_char advance]. rewrite Hn.
  change (_last_char (advance d (advance BACKSLASH l))) with d.
  unfold escape. cbn [_last_value advance].
  destruct (Ascii.eqb d delim); [reflexivity|].
  destruct (Ascii.eqb d "n"); [reflexivity|].
  destruct (Ascii.eqb d "#"); [reflexivity|].
  unfold push_value, set_last_value. cbn. now rewrite <- app_assoc.
Qed.

(** One round of the string loop on the closing delimiter. *)
Lemma string_body_close (delim : ascii) (tl tc : N) l (r : list ascii) :
  eof l = false -> unread l = delim :: r ->
  string_body delim tl tc l = Ret Break (advance delim l).
Proof.
  intros He Hu. cbv beta iota delta [string_body bind get modify ret].
  now rewrite (readchar_cons l _ _ He Hu), Ascii.eqb_refl.
Qed.

(** The string loop leaves the decoded text of the literal in the value
    and stops behind the closing delimiter. *)
Lemma string_loop (delim : ascii) (tl tc : N) (rest : list ascii) :
  Ascii.eqb delim NUL = false -> Ascii.eqb BACKSLASH delim = false ->
  forall (k : nat) (raw v : list ascii) (n : nat) l,
  (length raw <= k)%nat -> (length raw < n)%nat ->
  decode delim raw = Some v ->
  eof l = false -> wf l -> unread l = raw ++ delim :: rest ->
  exists l',
    iterate n (string_body delim tl tc) l = Ret None l' /\
    _last_value l' = _last_value l ++ v /\
    unread l' = rest /\ eof l' = false /\ wf l' /\
    _current_parsed l' = _current_parsed l /\
    _source l' = _source l.
Proof.
  intros Hdn Hdb.
  induction k as [|k IH]; intros raw v n l Hk Hn Hd He Hw Hu.
  - destruct raw; [|simpl in Hk; lia]. destruct n; [simpl in Hn; lia|].
    injection Hd as <-. cbn in Hu.
    rewrite iterate_S, (string_body_close delim tl tc l rest He Hu).
    eexists. split; [reflexivity|]. split; [cbn; now rewrite app_nil_r|].
    split; [now apply unread_advance in Hu|]. split; [exact Hdn|].
    split; [now apply wf_advance in Hu|]. split; reflexivity.
  - destruct raw as [|c raw].
    { apply (IH [] v n l); [simpl; lia|assumption..]. }
    destruct n as [|n]; [simpl in Hn; lia|]. cbn in Hu. cbn [decode] in Hd.
    destruct (Ascii.eqb c NUL) eqn:Hcn; [discriminate|].
    destruct (Ascii.eqb c delim) eqn:Hcd; [discriminate|]. cbn [orb] in Hd.
    destruct (Ascii.eqb_spec c BACKSLASH) as [->|Hcb].
    + destruct raw as [|d raw]; [discriminate|].
      destruct (Ascii.eqb d NUL) eqn:Hd0; [discriminate|].
      apply option_map_Some in Hd. destruct Hd as (v' & Hd & ->).
      rewrite iterate_S.
      rewrite (string_body_escape delim tl tc l d _ He Hu Hcd Hd0).
      assert (Hu1 := unread_advance l _ _ Hu).
      destruct (IH raw v' n
                  (set_last_value (_last_value l ++ escape delim d)
                     (advance d (advance BACKSLASH l))))
        as (l' & E & Hv & Hu' & He' & Hw' & Hp & Hs);
        [simpl in Hk; lia|simpl in Hn; lia|exact Hd|exact Hd0
        |exact (wf_advance _ _ _ Hu1)
        |exact (unread_advance (advance BACKSLASH l) _ _ Hu1)|].
      exists l'. split; [exact E|]. cbn in Hv. rewrite <- app_assoc in Hv.
      repeat split; assumption.
    + apply Ascii.eqb_neq in Hcb. rewrite iterate_S.
      rewrite (string_body_char delim tl tc l c _ He Hu Hcd Hcb).
      assert (Hd' : exists v', decode delim raw = Some v' /\
                v = (if Ascii.eqb c "#" then LF else c) :: v').
      { destruct (Ascii.eqb c "#"); now apply option_map_Some in Hd. }
      destruct Hd' as (v' & Hd' & ->).
      destruct (IH raw v' n
                  (push_value (if Ascii.eqb c "#" then LF else c)
                     (advance c l)))
        as (l' & E & Hv & Hu' & He' & Hw' & Hp & Hs);
        [simpl in Hk; lia|simpl in Hn; lia|exact Hd'|exact Hcn
        |exact (wf_advance _ _ _ Hu)|exact (unread_advance l _ _ Hu)|].
      exists l'. split; [exact E|]. cbn in Hv. rewrite <- app_assoc in Hv.
      repeat split; assumption.
Qed.

Lemma quote_plain (delim : ascii) :
  delim = DQUOTE \/ delim = SQUOTE ->
  Ascii.eqb delim NUL = false /\ is_whitespace delim = false /\
  Ascii.eqb delim LF = false /\ Ascii.eqb delim "/" = false /\
  Ascii.eqb BACKSLASH delim = false /\ Ascii.eqb NUL delim = false /\
  Ascii.eqb delim DQUOTE || Ascii.eqb delim SQUOTE = true.
Proof. intros [-> | ->]; repeat split; reflexivity. Qed.

(** The part of [readtok] below the whitespace loop, on a quote. *)
Lemma dispatch_string (n : nat) (again : M Token) l :
  Ascii.eqb (_last_char l) "/" = false ->
  Ascii.eqb (_last_char l) DQUOTE || Ascii.eqb (_last_char l) SQUOTE = true ->
  dispatch n again l =
  match iterate n (string_body (_last_char l) (_line l) (_col l))
                (set_last_value [] l) with
  | Ret (Some t) l' => Ret t (set_last_token t l')
  | Ret None l' =>
      Ret (mkToken StringLiteral (_line l) (_col l))
          (set_last_token (mkToken StringLiteral (_line l) (_col l)) l')
  | Throw e l' => Throw e l'
  | OutOfFuel => OutOfFuel
  end.
Proof.
  intros H1 H2.
  cbv beta iota delta
    [dispatch stage bind get comment string_literal modify ret return_token].
  rewrite H1. cbv beta iota. rewrite H2. cbv beta iota.
  destruct (iterate n _ (set_last_value [] l)) as [[t|] l'| |]; reflexivity.
Qed.

(** C6: for a terminated string literal, opened by either quote, the
    [StringLiteral] token's value is the decoded text of what stands
    between the delimiters: a backslash and the delimiter give the
    delimiter, a backslash and [n] a line feed, a backslash and [#] a
    [#], a backslash and any other character these two characters, a [#]
    that is not escaped a line feed, and every other character itself.
    The null character is the end-of-input sentinel and not a character
    of a literal. *)
Theorem string_literal_decoded (fuel : nat) (l : Lexer) (w : list ascii)
    (delim : ascii) (raw rest v : list ascii) :
  before l (w ++ delim :: raw ++ delim :: rest) -> blank w ->
  delim = DQUOTE \/ delim = SQUOTE ->
  decode delim raw = Some v ->
  (length w + length raw + 3 <= fuel)%nat ->
  exists l',
    readtok fuel l =
      Ret (mkToken StringLiteral (_line l) (token_col l w)) l' /\
    last_value l' = v /\
    before l' rest /\ _current_parsed l' = true.
Proof.
  intros Hb Hw Hq Hd Hn.
  destruct fuel as [|n]; [lia|].
  destruct (quote_plain delim Hq) as (Hc0 & Hcw & Hcl & Hc1 & Hcb & _ & Hcq).
  destruct (readtok_enter n l w delim _ Hb Hw Hc0 Hcw Hcl)
    as (l1 & E & Hst & Hp & Hln & Hcol); [lia|].
  rewrite E. clear E.
  destruct Hst as (He & Hwf & Ha & Hlast & Hu & _).
  rewrite dispatch_string by now rewrite Hlast.
  rewrite Hlast.
  destruct (string_loop delim (_line l1) (_col l1) rest Hc0 Hcb
              (length raw) raw v n (set_last_value [] l1))
    as (l' & E & Hv & Hu' & He' & Hw' & Hp' & Hs');
    [lia|lia|exact Hd|exact He|exact Hwf|exact Hu|].
  rewrite E, Hln, Hcol.
  eexists. split; [reflexivity|]. cbn in Hv, Hp', Hs'.
  split; [exact Hv|]. split; [|cbn; now rewrite Hp'].
  split; [exact He'|]. split; [exact Hw'|].
  split; [unfold addressable in *; cbn; now rewrite Hs'|].
  split; [intros H; cbn in H; rewrite Hp', Hp in H; discriminate H|].
  unfold pending. cbn. rewrite Hp', Hp. exact Hu'.
Qed.

Lemma string_literal_decoded_witness :
  before string_example
    ([] ++ SQUOTE :: raw_example ++ SQUOTE :: chars ";") /\
  decode SQUOTE raw_example =
    Some (chars "a" ++ [LF] ++ chars "b" ++ [LF] ++ chars "c#d'e\f") /\
  exists l',
    readtok 20 string_example = Ret (mkToken StringLiteral 1 1) l' /\
    last_value l' =
      chars "a" ++ [LF] ++ chars "b" ++ [LF] ++ chars "c#d'e\f" /\
    before l' (chars ";") /\ _current_parsed l' = true.
Proof.
  assert (Hb : before string_example
                 ([] ++ SQUOTE :: raw_example ++ SQUOTE :: chars ";"))
    by (apply before_new; vm_compute; reflexivity).
  split; [exact Hb|]. split; [reflexivity|].
  apply (string_literal_decoded 20 string_example [] SQUOTE raw_example
           (chars ";") _ Hb).
  - constructor.
  - right. reflexivity.
  - reflexivity.
  - simpl. lia.
Defined.

(** ** Unterminated strings and comments *)

Lemma string_body_end (delim : ascii) (tl tc : N) l :
  eof l = false -> _it l = length (_source l) ->
  Ascii.eqb NUL delim = false ->
  string_body delim tl tc l =
  Ret Continue (push_value NUL (set_last_char NUL l)).
Proof.
  intros He Hi Hd. cbv beta iota delta [string_body bind get modify ret].
  now rewrite (readchar_nil l He Hi), Hd.
Qed.

Lemma string_body_eof (delim : ascii) (tl tc : N) l :
  eof l = true ->
  string_body delim tl tc l =
  Throw (LexerException "Reached EOF (lexer crash)" (_line l) (_col l)) l.
Proof.
  intros He. cbv beta iota delta [string_body bind].
  now rewrite (readchar_eof l He).
Qed.

(** A string that is not closed, and that holds neither a backslash nor
    a null character: the loop appends the null character of the end of
    the source to the value and calls [readchar] once more, which
    throws. *)
Lemma unterminated_string_crashes (fuel : nat) l (w : list ascii)
    (delim : ascii) (raw : list ascii) :
  before l (w ++ delim :: raw) -> blank w ->
  delim = DQUOTE \/ delim = SQUOTE ->
  Forall (fun c => Ascii.eqb c delim = false /\
                   Ascii.eqb c BACKSLASH = false /\
                   Ascii.eqb c NUL = false) raw ->
  (length w + length raw + 4 <= fuel)%nat ->
  exists l',
    readtok fuel l =
      Throw (LexerException "Reached EOF (lexer crash)" (_line l') (_col l'))
            l' /\
    eof l' = true.
Proof.
  intros Hb Hw Hq Hall Hn.
  destruct fuel as [|n]; [lia|].
  destruct (quote_plain delim Hq) as (Hc0 & Hcw & Hcl & Hc1 & _ & Hcn & Hcq).
  destruct (readtok_enter n l w delim _ Hb Hw Hc0 Hcw Hcl)
    as (l1 & E & Hst & Hp & Hln & Hcol); [lia|].
  rewrite E. clear E.
  destruct Hst as (He & Hwf & Ha & Hlast & Hu & _).
  rewrite dispatch_string by now rewrite Hlast.
  rewrite Hlast.
  assert (Hloop : forall (m : nat) l2,
            (length raw + 1 < m)%nat -> wf l2 -> eof l2 = false ->
            unread l2 = raw ->
            exists l',
              iterate m (string_body delim (_line l1) (_col l1)) l2 =
                Throw (LexerException "Reached EOF (lexer crash)"
                         (_line l') (_col l')) l' /\
              eof l' = true).
  { clear Hu Hn Hb.
    induction raw as [|c raw IH]; intros m l2 Hm Hw2 He2 Hu2.
    - destruct m as [|[|m]]; [simpl in Hm; lia..|].
      rewrite iterate_S, string_body_end;
        [|exact He2|now apply unread_nil|exact Hcn].
      rewrite iterate_S, string_body_eof by reflexivity.
      eexists. split; reflexivity.
    - destruct m as [|m]; [simpl in Hm; lia|].
      apply Forall_cons in Hall. destruct Hall as [(H1 & H2 & H3) Hall].
      rewrite iterate_S, (string_body_char _ _ _ l2 c raw He2 Hu2 H1 H2).
      apply (IH Hall); [simpl in Hm; lia| |exact H3|].
      + exact (wf_advance _ _ _ Hu2).
      + exact (unread_advance l2 _ _ Hu2). }
  destruct (Hloop n (set_last_value [] l1)) as (l' & E & He');
    [lia|exact Hwf|exact He|exact Hu|].
  rewrite E. exists l'. split; [reflexivity|exact He'].
Qed.

(** The rounds of the inner loop of a multi-line comment. *)
Lemma block_comment_inner_char (tl tc : N) l (c : ascii) (r : list ascii) :
  eof l = false -> unread l = c :: r ->
  Ascii.eqb c "*" = false -> Ascii.eqb c NUL = false ->
  block_comment_inner tl tc l = Ret Continue (advance c l).
Proof.
  intros He Hu Hs Hn. cbv beta iota delta [block_comment_inner bind get ret].
  rewrite (readchar_cons l c r He Hu), Hs.
  unfold eof. cbn [_last_char advance]. now rewrite Hn.
Qed.

Lemma block_comment_inner_star (tl tc : N) l (r : list ascii) :
  eof l = false -> unread l = "*" :: r ->
  block_comment_inner tl tc l = Ret Break (advance "*" l).
Proof.
  intros He Hu. cbv beta iota delta [block_comment_inner bind get ret].
  now rewrite (readchar_cons l _ r He Hu).
Qed.

Lemma block_comment_inner_end (tl tc : N) l :
  eof l = false -> _it l = length (_source l) ->
  block_comment_inner tl tc l =
  Throw (LexerException "Multi-line comment reaches EOF" tl tc)
        (set_last_char NUL l).
Proof.
  intros He Hi.
  cbv beta iota delta [block_comment_inner bind get ret throw].
  now rewrite (readchar_nil l He Hi).
Qed.

Lemma block_comment_inner_eof (tl tc : N) l :
  eof l = true ->
  block_comment_inner tl tc l =
  Throw (LexerException "Reached EOF (lexer crash)" (_line l) (_col l)) l.
Proof.
  intros He. cbv beta iota delta [block_comment_inner bind].
  now rewrite (readchar_eof l He).
Qed.

(** The inner loop on a text without [*] and without the null character:
    at the end of the source it throws the error of the comment; at a [*]
    it stops behind it. *)
Lemma block_comment_inner_loop (tl tc : N) (body : list ascii) :
  Forall (fun c => Ascii.eqb c "*" = false /\ Ascii.eqb c NUL = false) body ->
  forall (n : nat) l,
  (length body < n)%nat -> eof l = false -> wf l ->
  (unread l = body ->
   exists l',
     iterate n (block_comment_inner tl tc) l =
       Throw (LexerException "Multi-line comment reaches EOF" tl tc) l') /\
  (forall r, unread l = body ++ "*" :: r ->
     iterate n (block_comment_inner tl tc) l =
       Ret None (advances (body ++ ["*"]) l)).
Proof.
  induction body as [|c body IH]; intros Hall n l Hn He Hw.
  - destruct n as [|n]; [simpl in Hn; lia|]. split.
    + intros Hu. rewrite iterate_S, block_comment_inner_end;
        [|exact He|now apply unread_nil]. eexists. reflexivity.
    + intros r Hu. cbn in Hu.
      now rewrite iterate_S, (block_comment_inner_star tl tc l r He Hu).
  - destruct n as [|n]; [simpl in Hn; lia|].
    apply Forall_cons in Hall. destruct Hall as [[Hs Hc] Hall].
    assert (Hstep : forall r, unread l = c :: r ->
              iterate (S n) (block_comment_inner tl tc) l =
              iterate n (block_comment_inner tl tc) (advance c l)).
    { intros r Hu.
      now rewrite iterate_S, (block_comment_inner_char tl tc l c r He Hu Hs Hc). }
    split.
    + intros Hu. rewrite (Hstep _ Hu).
      apply (IH Hall n (advance c l));
        [simpl in Hn; lia|exact Hc|exact (wf_advance _ _ _ Hu)
        |exact (unread_advance _ _ _ Hu)].
    + intros r Hu. cbn in Hu. rewrite (Hstep _ Hu). cbn [app advances].
      refine (proj2 (IH Hall n (advance c l) _ Hc (wf_advance _ _ _ Hu)) r
                (unread_advance _ _ _ Hu)).
      simpl in Hn. lia.
Qed.

(** The part of [readtok] below the whitespace loop, on the two
    characters that open a multi-line comment. *)
Lemma dispatch_block_comment (n : nat) (again : M Token) l (r : list ascii) :
  eof l = false -> _last_char l = "/" -> unread l = "*" :: r ->
  dispatch n again l =
  match iterate n (block_comment_body n (_line l) (_col l))
                (advance "*" l) with
  | Ret _ l' =>
      match again l' with
      | Ret t l'' => Ret t (set_last_token t l'')
      | Throw e l'' => Throw e l''
      | OutOfFuel => OutOfFuel
      end
  | Throw e l' => Throw e l'
  | OutOfFuel => OutOfFuel
  end.
Proof.
  intros He Hl Hu.
  cbv beta iota delta [dispatch stage bind get comment ret return_token modify].
  rewrite Hl. cbn [Ascii.eqb Bool.eqb]. cbv beta iota.
  rewrite (readchar_cons l _ r He Hu). cbn [_last_char advance].
  cbn [Ascii.eqb Bool.eqb]. cbv beta iota.
  destruct (iterate n _ (advance "*" l)) as [o l'| |]; [|reflexivity..].
  destruct (again l'); reflexivity.
Qed.

(** A multi-line comment that is not closed.  When its text holds no [*]
    and no null character, [readtok] throws the error of the comment with
    the line and column of the comment's first character.  When the source
    ends right after the first [*] of its text, the test for the closing
    [/] reads the end of the source, and the call of [readchar] that
    follows throws from [readchar], with the line and column of the end
    of the source. *)
Lemma unterminated_comment_general (fuel : nat) l (w body : list ascii) :
  blank w ->
  Forall (fun c => Ascii.eqb c "*" = false /\ Ascii.eqb c NUL = false) body ->
  (length w + length body + 5 <= fuel)%nat ->
  (before l (w ++ chars "/*" ++ body) ->
   exists l',
     readtok fuel l =
       Throw (LexerException "Multi-line comment reaches EOF"
                (_line l) (token_col l w)) l') /\
  (before l (w ++ chars "/*" ++ body ++ chars "*") ->
   exists l',
     readtok fuel l =
       Throw (LexerException "Reached EOF (lexer crash)" (_line l') (_col l'))
             l' /\
     eof l' = true).
Proof.
  intros Hw Hall Hn. destruct fuel as [|n]; [lia|].
  assert (Henter : forall r, before l (w ++ chars "/*" ++ r) ->
            exists l1, readtok (S n) l = dispatch n (readtok n) l1 /\
              eof l1 = false /\ wf l1 /\ _last_char l1 = "/" /\
              unread l1 = "*" :: r /\
              _line l1 = _line l /\ _col l1 = token_col l w).
  { intros r Hb.
    destruct (readtok_enter n l w "/" ("*" :: r) Hb Hw eq_refl eq_refl eq_refl)
      as (l1 & E & (He & Hwf & _ & Hl & Hu & _) & _ & Hln & Hcol); [lia|].
    exists l1. repeat split; assumption. }
  split; intros Hb.
  - destruct (Henter _ Hb) as (l1 & E & He & Hwf & Hl & Hu & Hln & Hcol).
    rewrite E, (dispatch_block_comment n _ l1 body He Hl Hu).
    destruct n as [|n]; [lia|]. rewrite iterate_S.
    cbv beta iota delta [block_comment_body bind].
    destruct (proj1 (block_comment_inner_loop (_line l1) (_col l1) body Hall
                       (S n) (advance "*" l1) ltac:(lia) eq_refl
                       (wf_advance _ _ _ Hu))
                (unread_advance _ _ _ Hu)) as (l' & E').
    rewrite E', Hln, Hcol. exists l'. reflexivity.
  - destruct (Henter _ Hb) as (l1 & E & He & Hwf & Hl & Hu & Hln & Hcol).
    rewrite E, (dispatch_block_comment n _ l1 _ He Hl Hu).
    destruct n as [|[|n]]; [lia..|]. rewrite iterate_S.
    cbv beta iota delta [block_comment_body bind].
    assert (Hu1 := unread_advance _ _ _ Hu).
    assert (Hw1 := wf_advance _ _ _ Hu).
    rewrite (proj2 (block_comment_inner_loop (_line l1) (_col l1) body Hall
                      (S (S n)) (advance "*" l1) ltac:(lia) eq_refl Hw1)
               [] Hu1).
    change (body ++ chars "*") with (body ++ ["*"] ++ []) in Hu1.
    rewrite app_assoc in Hu1.
    destruct (advances_unread (body ++ ["*"]) [] _ Hw1 Hu1) as [Hu2 Hw2].
    assert (He2 : eof (advances (body ++ ["*"]) (advance "*" l1)) = false).
    { rewrite advances_app. reflexivity. }
    rewrite (readchar_nil _ He2 (unread_nil _ Hw2 Hu2)).
    cbn [ret Ascii.eqb Bool.eqb]. cbv beta iota.
    rewrite iterate_S. cbv beta iota delta [block_comment_body bind].
    rewrite iterate_S, block_comment_inner_eof by reflexivity.
    eexists. split; reflexivity.
Qed.

(** A comment closed by [**/] is not seen as closed: the character after
    the first [*] is not a [/], and the inner loop starts again behind
    the second [*]. *)
Example double_star_example :
  exception_of (readtok 20 (Lexer_new (chars "/* a **/ x"))) =
    Some (LexerException "Multi-line comment reaches EOF" 1 1).
Proof. vm_compute. reflexivity. Qed.

(** C3: the code on a string that is opened and not closed.  On ['abc]
    the string loop runs into the end of the source and [readchar] throws
    "Reached EOF (lexer crash)", at line 1 and column 4; no [End] token is
    returned.  Only when the source ends right after a backslash, as in
    ['abc\], does [readtok] return the [End] token, at the line and column
    of the opening quote.  The budget is seven rounds or any larger
    one. *)
Theorem unterminated_string_outcome (n : nat) :
  exception_of (readtok (7 + n) (Lexer_new (chars "'abc"))) =
    Some (LexerException "Reached EOF (lexer crash)" 1 4) /\
  token_of (readtok (7 + n) (Lexer_new (chars "'abc"))) = None /\
  token_of (readtok (7 + n) (Lexer_new (chars "'abc\"))) =
    Some (mkToken End 1 1).
Proof.
  repeat split;
    (rewrite (readtok_extends 7 (7 + n)); [|lia|]; vm_compute;
     [reflexivity|discriminate]).
Qed.

(** C5: the code on a multi-line comment that is not closed.  On
    [/* unterminated] it throws "Multi-line comment reaches EOF" at the
    line and column of the comment's first character.  On [/* *], where
    the source ends right after a [*], the test for the closing [/] reads
    the end of the source, the inner loop calls [readchar] again, and what
    is thrown is "Reached EOF (lexer crash)" at line 1 and column 4, the
    end of the source.  The budget is eighteen rounds or any larger
    one. *)
Theorem unterminated_comment_outcome (n : nat) :
  exception_of (readtok (18 + n) (Lexer_new (chars "/* unterminated"))) =
    Some (LexerException "Multi-line comment reaches EOF" 1 1) /\
  exception_of (readtok (18 + n) (Lexer_new (chars "/* *"))) =
    Some (LexerException "Reached EOF (lexer crash)" 1 4).
Proof.
  repeat split;
    (rewrite (readtok_extends 18 (18 + n)); [|lia|]; vm_compute;
     [reflexivity|discriminate]).
Qed.

(** ** The examples of the specification *)

(** Blanks before a token and a character kept from the token before:
    [a <= b] gives an identifier, [Inferior], [Equal] and an
    identifier. *)
Example spaced_example :
  kinds (readtoks 5 10 (Lexer_new (chars "a <= b"))) =
    Some [Identifier; Inferior; Equal; Identifier; End].
Proof. vm_compute. reflexivity. Qed.

Example identifier_example :
  exists l',
    readtok 10 (Lexer_new (chars "_foo123")) =
      Ret (mkToken Identifier 1 1) l' /\
    last_value l' = chars "_foo123".
Proof. eexists. split; [vm_compute; reflexivity|reflexivity]. Qed.

Example real_example_12_34 :
  exists l',
    readtok 10 (Lexer_new (chars "12.34")) =
      Ret (mkToken RealLiteral 1 1) l' /\
    last_value l' = chars "12.34".
Proof. eexists. split; [vm_compute; reflexivity|reflexivity]. Qed.

Example hex_color_example :
  exception_of (readtok 10 (Lexer_new (chars "$FF00FF"))) =
    Some (LexerException "Hex colors are a stub" 1 1).
Proof. vm_compute. reflexivity. Qed.

Example escaped_quote_example :
  exists l',
    readtok 10 (Lexer_new (DQUOTE :: chars "a\" ++ DQUOTE :: chars "b"
                             ++ [DQUOTE])) =
      Ret (mkToken StringLiteral 1 1) l' /\
    last_value l' = chars "a" ++ DQUOTE :: chars "b".
Proof. eexists. split; [vm_compute; reflexivity|reflexivity]. Qed.

(** After a line comment the line feed that ends it is the next token. *)
Example line_comment_example :
  kinds (readtoks 3 10 (Lexer_new (chars "// c" ++ LF :: chars "x"))) =
    Some [LineFeed; Identifier; End].
Proof. vm_compute. reflexivity. Qed.

(** A [/] that does not start a comment is lost, and with it the
    [Divide] token, unless it is the last character of the source. *)
Example divide_example :
  kinds (readtoks 3 10 (Lexer_new (chars "a/b"))) =
    Some [Identifier; Identifier; End] /\
  kinds (readtoks 2 10 (Lexer_new (chars "/"))) = Some [Divide; End].
Proof. split; vm_compute; reflexivity. Qed.

(** * Further properties *)

(** ** The start of [readtok], with the object it leaves *)

Lemma standing_advances_any (cs : list ascii) (c : ascii) (r : list ascii) l :
  eof l = false -> wf l -> addressable l ->
  unread l = cs ++ c :: r ->
  Ascii.eqb c NUL = false ->
  standing (advances (cs ++ [c]) l) c r.
Proof.
  intros He Hw Ha Hu Hc.
  assert (Hu' : unread l = (cs ++ [c]) ++ r) by now rewrite <- app_assoc.
  destruct (advances_unread _ _ l Hw Hu') as [Hu1 Hw1].
  destruct (advances_fields (cs ++ [c]) l) as (Hs & Hp & _ & _ & Hi).
  assert (Hlast : _last_char (advances (cs ++ [c]) l) = c).
  { rewrite advances_app. reflexivity. }
  rewrite length_app in Hi. cbn [length] in Hi.
  split; [unfold eof; now rewrite Hlast|]. split; [exact Hw1|].
  split; [unfold addressable; now rewrite Hs|]. split; [exact Hlast|].
  split; [exact Hu1|].
  exists (_it l + length cs)%nat. split; [lia|]. rewrite Hs.
  destruct (advances_unread cs (c :: r) l Hw Hu) as [Hu2 _].
  apply unread_lookup in Hu2.
  destruct (advances_fields cs l) as (Hs2 & _ & _ & _ & Hi2).
  now rewrite Hs2, Hi2 in Hu2.
Qed.

(** [readtok] gets below the whitespace loop with the lexer [entered]. *)
Lemma readtok_entered (n : nat) l (w : list ascii) (c : ascii)
    (r : list ascii) :
  before l (w ++ c :: r) -> blank w ->
  Ascii.eqb c NUL = false -> is_whitespace c = false ->
  (length w + 1 < n)%nat ->
  readtok (S n) l = dispatch n (readtok n) (entered l w c) /\
  standing (entered l w c) c r.
Proof.
  intros (He & Hw & Ha & Hs & Hu) Hb Hc Hcw Hn.
  unfold pending in Hu. unfold entered.
  destruct (_current_parsed l) eqn:Hp.
  - split; [|exact (standing_advances_any w c r l He Hw Ha Hu Hc)].
    destruct w as [|b w]; cbn in Hu.
    + rewrite (readtok_read n l c r He Hp Hu Hc).
      destruct n as [|n]; [simpl in Hn; lia|]. apply stage_None.
      rewrite iterate_S, whitespace_body_stop by exact Hcw. reflexivity.
    + apply Forall_cons in Hb. destruct Hb as [Hb1 Hb].
      destruct (blank_char b Hb1) as [Hb0 _].
      rewrite (readtok_read n l b _ He Hp Hu Hb0). apply stage_None.
      apply (whitespace_loop w c r Hb Hc Hcw);
        [simpl in Hn; lia|exact Hb0|exact Hb1|].
      now apply unread_advance in Hu.
  - rewrite (readtok_keep n l He Hp).
    destruct w as [|b w]; cbn in Hu.
    + injection Hu as Hlast Hu.
      destruct n as [|n]; [simpl in Hn; lia|].
      split.
      { apply stage_None. rewrite iterate_S, whitespace_body_stop;
          [reflexivity|]. cbn. now rewrite Hlast. }
      assert (Hcw' : is_whitespace (_last_char l) = false)
        by now rewrite Hlast.
      destruct (Hs Hp Hcw') as (i & Hi & Hl). rewrite Hlast in Hl.
      split; [exact He|]. split; [exact Hw|]. split; [exact Ha|].
      split; [exact Hlast|]. split; [exact Hu|].
      exists i. split; assumption.
    + injection Hu as Hlast Hu.
      apply Forall_cons in Hb. destruct Hb as [Hb1 Hb].
      split;
        [|exact (standing_advances_any w c r (set_current_parsed true l)
                   He Hw Ha Hu Hc)].
      apply stage_None.
      apply (whitespace_loop w c r Hb Hc Hcw);
        [simpl in Hn; lia|exact He| |exact Hu].
      cbn. now rewrite Hlast.
Qed.

(** What [entered] keeps of the lexer, and the flag it sets. *)
Lemma entered_fields l (w : list ascii) (c : ascii) :
  _source (entered l w c) = _source l /\
  _last_value (entered l w c) = _last_value l /\
  _last_token (entered l w c) = _last_token l /\
  _current_parsed (entered l w c) = true /\
  (_it l <= _it (entered l w c))%nat.
Proof.
  unfold entered. destruct (_current_parsed l) eqn:Hp.
  - destruct (advances_fields (w ++ [c]) l) as (H1 & H2 & H3 & H4 & H5).
    rewrite H1, H2, H3, H4, H5, Hp. repeat split; lia.
  - destruct w as [|b w]; [repeat split; reflexivity|].
    destruct (advances_fields (w ++ [c]) (set_current_parsed true l))
      as (H1 & H2 & H3 & H4 & H5).
    rewrite H1, H2, H3, H4, H5. cbn. repeat split; lia.
Qed.

(** The counters of [entered] when the token does not start with a line
    feed: the line of [l], and the column of the token. *)
Lemma entered_counters l (w : list ascii) (c : ascii) :
  blank w -> Ascii.eqb c LF = false ->
  _line (entered l w c) = _line l /\
  _col (entered l w c) = token_col l w.
Proof.
  intros Hb Hc.
  assert (Hlf : forall cs, blank cs ->
            Forall (fun c => Ascii.eqb c LF = false) (cs ++ [c])).
  { intros cs Hcs. apply Forall_app. split; [|now constructor].
    eapply Forall_impl; [exact Hcs|]. intros b Hb1.
    exact (proj2 (blank_char b Hb1)). }
  unfold entered, token_col. destruct (_current_parsed l) eqn:Hp.
  - destruct (advances_counters (w ++ [c]) l (Hlf w Hb)) as [H1 H2].
    rewrite H1, H2, length_app. split; reflexivity.
  - destruct w as [|b w]; [split; reflexivity|].
    apply Forall_cons in Hb. destruct Hb as [_ Hb].
    destruct (advances_counters (w ++ [c]) (set_current_parsed true l)
                (Hlf w Hb)) as [H1 H2].
    rewrite H1, H2, length_app. cbn [length _line _col set_current_parsed].
    split; [reflexivity|]. f_equal. lia.
Qed.

(** ** The table of fixed patterns, entry by entry *)

(** A table entry that starts neither with [/] nor with a line feed
    starts with a character that goes to the table on the line it is on,
    and holds no null character. *)
Lemma find_match_entry_plain (c : ascii) (cs p : list ascii)
    (ty : TokenType) :
  find_match (c :: p) basic_matches = Some (c :: cs, ty) ->
  Ascii.eqb c "/" = false -> Ascii.eqb c LF = false ->
  to_table c = true /\ Forall (fun c => Ascii.eqb c NUL = false) cs.
Proof.
  intros Hf H1 H2. destruct (find_match_prefix _ _ _ _ Hf) as [Hin _].
  assert (Hall : forallb
            (fun e => match fst e with
                      | [] => true
                      | a :: r =>
                          (Ascii.eqb a "/" || Ascii.eqb a LF || to_table a) &&
                          forallb (fun x => negb (Ascii.eqb x NUL)) r
                      end) basic_matches = true)
    by (vm_compute; reflexivity).
  rewrite forallb_forall in Hall. apply list_elem_of_In in Hin.
  specialize (Hall _ Hin). cbn [fst] in Hall.
  apply andb_true_iff in Hall. destruct Hall as [Ha Hb].
  rewrite H1, H2 in Ha. cbn [orb] in Ha. split; [exact Ha|].
  apply Forall_forall. intros x Hx. rewrite forallb_forall in Hb.
  apply list_elem_of_In in Hx. specialize (Hb x Hx).
  now apply negb_true_iff in Hb.
Qed.

(** X1: for a table entry that starts neither with [/] nor with a line
    feed: when it is the first entry of the table that is a prefix of the
    four characters in view, it is the token of [readtok]; its position
    is that of the entry's first character, the entry's text is consumed
    and nothing more, and the value of the token before is left in place.
    An entry that starts with [/] goes through the comment check first,
    and a line feed is stamped after it has been counted. *)
Theorem fixed_pattern_first_match (n : nat) (l : Lexer) (w : list ascii)
    (c : ascii) (cs rest : list ascii) (ty : TokenType) :
  before l (w ++ (c :: cs) ++ rest) -> blank w ->
  Ascii.eqb c "/" = false -> Ascii.eqb c LF = false ->
  find_match (take 4 ((c :: cs) ++ rest)) basic_matches = Some (c :: cs, ty) ->
  (length w + 1 < n)%nat ->
  exists l',
    readtok (S n) l = Ret (mkToken ty (_line l) (token_col l w)) l' /\
    before l' rest /\ _current_parsed l' = true /\
    last_token l' = mkToken ty (_line l) (token_col l w) /\
    last_value l' = last_value l.
Proof.
  intros Hb Hw Hslash Hlf Hf Hfuel.
  destruct (find_match_entry_plain c cs (take 3 (cs ++ rest)) ty Hf Hslash Hlf)
    as [Hc Hn].
  destruct (to_table_spec c Hc) as (Hc0 & Hcw & Hcl & _).
  destruct (readtok_entered n l w c (cs ++ rest) Hb Hw Hc0 Hcw Hfuel)
    as (E & Hst).
  destruct (entered_fields l w c) as (Hsrc & Hval & _ & Hp & _).
  destruct (entered_counters l w c Hw Hcl) as (Hln & Hcol).
  rewrite E. clear E.
  assert (Hpeek := peekstr_standing _ c _ Hst).
  destruct Hst as (He & Hwf & Ha & Hlast & Hu & _).
  rewrite dispatch_plain by now rewrite Hlast.
  rewrite (fixed_pattern_found _ _ _ _ _ (c :: cs) ty Hpeek Hf).
  cbn [length]. rewrite Nat.sub_1_r. cbn [Nat.pred].
  destruct (readchars_prefix cs rest _ He Hu Hn) as (Hr & Hu' & He').
  destruct (advances_unread cs rest _ Hwf Hu) as [_ Hwf'].
  destruct (advances_fields cs (entered l w c))
    as (Hs' & Hp' & Hv' & _).
  unfold bind. rewrite Hr, Hln, Hcol.
  eexists. split; [reflexivity|].
  split; [|split; [cbn; now rewrite Hp'|split; [reflexivity|]]].
  - split; [exact He'|]. split; [exact Hwf'|].
    split; [unfold addressable in *; cbn; now rewrite Hs'|].
    split; [intros H; cbn in H; rewrite Hp', Hp in H; discriminate H|].
    unfold pending. cbn. rewrite Hp', Hp. exact Hu'.
  - unfold last_value. cbn. now rewrite Hv', Hval.
Qed.

Lemma fixed_pattern_first_match_witness :
  before spaced_example_lexer (chars "  " ++ chars "==" ++ chars " x") /\
  exists l',
    readtok 5 spaced_example_lexer = Ret (mkToken DEqual 1 3) l' /\
    before l' (chars " x") /\ _current_parsed l' = true /\
    last_token l' = mkToken DEqual 1 3 /\
    last_value l' = last_value spaced_example_lexer.
Proof.
  assert (Hb : before spaced_example_lexer
                 (chars "  " ++ chars "==" ++ chars " x"))
    by (apply before_new; vm_compute; reflexivity).
  split; [exact Hb|].
  apply (fixed_pattern_first_match 4 spaced_example_lexer (chars "  ") "="
           (chars "=") (chars " x") DEqual Hb).
  - repeat constructor.
  - reflexivity.
  - reflexivity.
  - reflexivity.
  - simpl. lia.
Defined.

(** X2: the compound operators [==], [!=], [<>], [&&], [||], [^^], [++],
    [--], [+=], [-=], [*=], [&=], [|=] and [^=] are returned as one token
    whatever follows them: no entry above theirs in the table is a prefix
    of their text. *)
Theorem compound_operators_one_token (n : nat) (l : Lexer)
    (w op rest : list ascii) (ty : TokenType) :
  before l (w ++ op ++ rest) -> blank w -> (length w + 1 < n)%nat ->
  (op, ty) ∈ good_compound ->
  exists l',
    readtok (S n) l = Ret (mkToken ty (_line l) (token_col l w)) l' /\
    before l' rest /\ _current_parsed l' = true.
Proof. exact (compound_operators_matched n l w op rest ty). Qed.

Lemma compound_operators_one_token_witness :
  before spaced_example_lexer (chars "  " ++ chars "==" ++ chars " x") /\
  exists l',
    readtok 5 spaced_example_lexer = Ret (mkToken DEqual 1 3) l' /\
    before l' (chars " x") /\ _current_parsed l' = true.
Proof.
  assert (Hb : before spaced_example_lexer
                 (chars "  " ++ chars "==" ++ chars " x"))
    by (apply before_new; vm_compute; reflexivity).
  split; [exact Hb|].
  apply (compound_operators_one_token 4 spaced_example_lexer (chars "  ")
           (chars "==") (chars " x") DEqual Hb).
  - repeat constructor.
  - simpl. lia.
  - unfold good_compound. apply elem_of_cons. left. reflexivity.
Defined.

(** X3: punctuation, the accessor brackets with a second character, [>],
    [%] and the word operators [div] and [mod] are returned as their
    token whatever follows them: a dot is a [Dot] token also in front of
    digits, and [div] and [mod] are tokens also in front of identifier
    characters. *)
Theorem plain_entries_matched (n : nat) (l : Lexer)
    (w pat rest : list ascii) (ty : TokenType) :
  before l (w ++ pat ++ rest) -> blank w -> (length w + 1 < n)%nat ->
  (pat, ty) ∈ plain_entries ->
  exists l',
    readtok (S n) l = Ret (mkToken ty (_line l) (token_col l w)) l' /\
    before l' rest /\ _current_parsed l' = true.
Proof.
  intros Hb Hw Hn Hin. unfold plain_entries in Hin.
  repeat (apply elem_of_cons in Hin; destruct Hin as [Hin|Hin];
          [injection Hin as -> ->; fixed_pattern_case n|]).
  now apply elem_of_nil in Hin.
Qed.

Lemma plain_entries_matched_witness :
  before dot_example ([] ++ chars "." ++ chars "5") /\
  exists l',
    readtok 5 dot_example = Ret (mkToken Dot 1 1) l' /\
    before l' (chars "5") /\ _current_parsed l' = true.
Proof.
  assert (Hb : before dot_example ([] ++ chars "." ++ chars "5"))
    by (apply before_new; vm_compute; reflexivity).
  split; [exact Hb|].
  apply (plain_entries_matched 4 dot_example [] (chars ".") (chars "5")
           Dot Hb).
  - constructor.
  - simpl. lia.
  - unfold plain_entries. do 4 (apply elem_of_cons; right).
    apply elem_of_cons. left. reflexivity.
Defined.

(** X4: a one-character operator that is a prefix of longer entries
    ([<], [=], [+], [-], [*], [&], [|], [^], [[]) is returned as its own
    token when the character after it does not make one of these longer
    entries, or when the source ends after it. *)
Theorem single_operators_matched (n : nat) (l : Lexer) (w : list ascii)
    (c : ascii) (ty : TokenType) (longer rest : list ascii) :
  before l (w ++ [c] ++ rest) -> blank w -> (length w + 1 < n)%nat ->
  (c, ty, longer) ∈ single_operators ->
  avoids longer rest ->
  exists l',
    readtok (S n) l = Ret (mkToken ty (_line l) (token_col l w)) l' /\
    before l' rest /\ _current_parsed l' = true.
Proof.
  intros Hb Hw Hn Hin Hav. unfold single_operators in Hin.
  repeat (apply elem_of_cons in Hin; destruct Hin as [Hin|Hin];
          [injection Hin as -> -> ->|]); [..|now apply elem_of_nil in Hin].
  all: apply (readtok_fixed_pattern n l w _ [] rest _ Hb Hw eq_refl
                ltac:(constructor)); [|exact Hn].
  all: destruct rest as [|d rest]; [reflexivity|].
  all: cbn in Hav.
  all: simpl.
  all: repeat match goal with
       | |- context [bool_decide ?P] =>
           let E := fresh "E" in
           destruct (bool_decide_reflect P) as [E|E];
           [first [ discriminate E
                  | reflexivity
                  | exfalso; apply Hav; injection E; intros; subst;
                    solve [repeat constructor] ]
           |try (exfalso; apply E; reflexivity); clear E]
       end.
  all: reflexivity.
Qed.

Lemma single_operators_matched_witness :
  before plus_example ([] ++ ["+"] ++ chars "1") /\
  exists l',
    readtok 5 plus_example = Ret (mkToken Plus 1 1) l' /\
    before l' (chars "1") /\ _current_parsed l' = true.
Proof.
  assert (Hb : before plus_example ([] ++ ["+"] ++ chars "1"))
    by (apply before_new; vm_compute; reflexivity).
  split; [exact Hb|].
  apply (single_operators_matched 4 plus_example [] "+" Plus ["+"; "="]
           (chars "1") Hb).
  - constructor.
  - simpl. lia.
  - unfold single_operators. do 2 (apply elem_of_cons; right).
    apply elem_of_cons. left. reflexivity.
  - cbn. intros H. apply elem_of_cons in H. destruct H as [H|H];
      [discriminate H|]. apply elem_of_cons in H. destruct H as [H|H];
      [discriminate H|]. now apply elem_of_nil in H.
Defined.

(** ** The token returned last *)

Lemma returns_stage_last (m : M (option Token)) (rest : M Token) :
  returns rest (fun t l' => _last_token l' = t) ->
  returns (stage m rest) (fun t l' => _last_token l' = t).
Proof.
  intros Hr l t l'. unfold stage, bind, return_token, modify, ret.
  destruct (m l) as [[t1|] l1| |]; [|apply Hr|discriminate|discriminate].
  intros [= <- <-]. reflexivity.
Qed.

Lemma returns_bind_any {A B} (m : M A) (k : A -> M B)
    (Q : B -> Lexer -> Prop) :
  (forall a, returns (k a) Q) -> returns (bind m k) Q.
Proof.
  intros Hk l b l'. unfold bind.
  destruct (m l) as [a l1| |]; [apply Hk|discriminate|discriminate].
Qed.

(** Every return of [readtok] goes through [return _last_token = ...]. *)
Lemma readtok_last_token (fuel : nat) l l' (t : Token) :
  readtok fuel l = Ret t l' -> _last_token l' = t.
Proof.
  destruct fuel as [|n]; [discriminate|]. rewrite readtok_S.
  apply (returns_stage_last End_if_eof), returns_stage_last,
    returns_stage_last.
  unfold dispatch. do 2 (apply returns_bind_any; intros ?).
  do 4 apply returns_stage_last.
  unfold valued. apply returns_bind_any. intros _.
  do 2 apply returns_stage_last.
  intros l0 t0 l0'. discriminate.
Qed.

Lemma set_last_token_same l : set_last_token (_last_token l) l = l.
Proof. now destruct l. Qed.

(** X5: when [readtok] returns a token, the accessors give that token:
    [last_token] is the token, and [line] and [column] are its line and
    column. *)
Theorem last_token_is_returned (fuel : nat) (l l' : Lexer) (t : Token) :
  readtok fuel l = Ret t l' ->
  last_token l' = t /\ line_of l' = line t /\ column l' = col t.
Proof.
  intros E. unfold last_token, line_of, column.
  rewrite (readtok_last_token fuel l l' t E). repeat split.
Qed.

Lemma last_token_is_returned_witness :
  readtok 5 ifx_example =
    Ret (mkToken If 1 1) (advances (chars "f")
                            (set_last_token (mkToken If 1 1)
                               (advance "i" ifx_example))) /\
  last_token (advances (chars "f")
                (set_last_token (mkToken If 1 1) (advance "i" ifx_example)))
    = mkToken If 1 1.
Proof.
  assert (E : readtok 5 ifx_example =
              Ret (mkToken If 1 1)
                  (advances (chars "f")
                     (set_last_token (mkToken If 1 1)
                        (advance "i" ifx_example))))
    by (vm_compute; reflexivity).
  split; [exact E|].
  exact (proj1 (last_token_is_returned 5 _ _ _ E)).
Defined.

(** ** The source and the iterator *)

Section Keeps.
Context (R : Lexer -> Lexer -> Prop).
Context (R_refl : forall l, R l l).
Context (R_trans : forall l1 l2 l3, R l1 l2 -> R l2 l3 -> R l1 l3).

Lemma keeps_ret {A} (a : A) : keeps R (ret a).
Proof. intros l. apply R_refl. Qed.

Lemma keeps_throw {A} (e : Exception) : keeps R (throw (A := A) e).
Proof. intros l. apply R_refl. Qed.

Lemma keeps_get {A} (f : Lexer -> A) : keeps R (get f).
Proof. intros l. apply R_refl. Qed.

Lemma keeps_bind {A B} (m : M A) (k : A -> M B) :
  keeps R m -> (forall a, keeps R (k a)) -> keeps R (bind m k).
Proof.
  intros Hm Hk l. unfold bind. specialize (Hm l).
  destruct (m l) as [a l1|e l1|]; [|exact Hm|exact I].
  specialize (Hk a l1). destruct (k a l1); [| |exact I];
    exact (R_trans _ _ _ Hm Hk).
Qed.

Lemma keeps_iterate (n : nat) (body : M control) :
  keeps R body -> keeps R (iterate n body).
Proof.
  intros Hb. induction n as [|n IH]; intros l; [exact I|].
  rewrite iterate_S. specialize (Hb l).
  destruct (body l) as [[| |t] l1|e l1|]; try exact Hb.
  specialize (IH l1). destruct (iterate n body l1); [| |exact I];
    exact (R_trans _ _ _ Hb IH).
Qed.

Lemma keeps_stage (m : M (option Token)) (rest : M Token) :
  (forall t l, R l (set_last_token t l)) ->
  keeps R m -> keeps R rest -> keeps R (stage m rest).
Proof.
  intros Hset Hm Hr. unfold stage. apply keeps_bind; [exact Hm|].
  intros [t|]; [|exact Hr].
  intros l. exact (Hset t l).
Qed.
End Keeps.

Lemma forward_refl l : forward l l.
Proof. split; [reflexivity|lia]. Qed.

Lemma forward_trans l1 l2 l3 : forward l1 l2 -> forward l2 l3 -> forward l1 l3.
Proof. intros [H1 H2] [H3 H4]. split; [congruence|lia]. Qed.

Lemma keeps_readchar : keeps forward readchar.
Proof.
  intros l. unfold readchar. destruct (eof l); [apply forward_refl|].
  cbn. destruct (Nat.eqb _ _); [split; cbn; (reflexivity || lia)|].
  destruct (Ascii.eqb _ LF); split; cbn; (reflexivity || lia).
Qed.

Lemma keeps_modify (f : Lexer -> Lexer) :
  (forall l, forward l (f l)) -> keeps forward (modify f).
Proof. intros H l. apply H. Qed.

Lemma keeps_End_if_eof : keeps forward End_if_eof.
Proof. intros l. unfold End_if_eof. destruct (eof l); apply forward_refl. Qed.

Lemma keeps_peekstr : keeps forward peekstr.
Proof.
  intros l. unfold peekstr. destruct (_ <? _)%Z; apply forward_refl.
Qed.

Lemma keeps_readchars (n : nat) : keeps forward (readchars n).
Proof.
  induction n as [|n IH]; cbn [readchars];
    [apply keeps_ret; exact forward_refl|].
  apply keeps_bind; [exact forward_trans|exact keeps_readchar|].
  intros _. exact IH.
Qed.

Ltac keeps_go :=
  repeat (cbv beta;
          lazymatch goal with
          | |- keeps forward readchar => exact keeps_readchar
          | |- keeps forward End_if_eof => exact keeps_End_if_eof
          | |- keeps forward peekstr => exact keeps_peekstr
          | |- keeps forward (readchars _) => apply keeps_readchars
          | |- keeps forward (bind _ _) =>
              apply (keeps_bind forward forward_trans); [|intros ?]
          | |- keeps forward (iterate _ _) =>
              apply (keeps_iterate forward forward_trans)
          | |- keeps forward (stage _ _) =>
              apply (keeps_stage forward forward_trans);
              [intros ? ?; split; cbn; (reflexivity || lia)| |]
          | |- keeps forward (ret _) => apply (keeps_ret forward forward_refl)
          | |- keeps forward (throw _) =>
              apply (keeps_throw forward forward_refl)
          | |- keeps forward (get _) => apply (keeps_get forward forward_refl)
          | |- keeps forward (modify _) =>
              apply keeps_modify; intros ?; split; cbn;
              (reflexivity || lia)
          | |- keeps forward (if ?b then _ else _) => destruct b
          | |- keeps forward (match ?o with Some _ => _ | None => _ end) =>
              destruct o
          | |- keeps forward (let (_, _) := ?p in _) => destruct p
          end).

Lemma keeps_dispatch (n : nat) (again : M Token) :
  keeps forward again -> keeps forward (dispatch n again).
Proof.
  intros Hagain.
  unfold dispatch, valued, comment, string_literal, hex_color, fixed_pattern,
    real_literal, identifier, line_comment_body, block_comment_body,
    block_comment_inner, string_body, numeral_body, identifier_body.
  keeps_go; exact Hagain.
Qed.

Lemma keeps_readtok (n : nat) : keeps forward (readtok n).
Proof.
  induction n as [|n IH]; [intros l; exact I|]. rewrite readtok_S.
  unfold skip_parsed, whitespace_body. keeps_go.
  now apply keeps_dispatch.
Qed.

(** X6: a call of [readtok], whether it returns or throws, leaves the
    source as it is, does not move the iterator back, and leaves it within
    the source when it was. *)
Theorem readtok_moves_forward (fuel : nat) (l : Lexer) :
  match readtok fuel l with
  | Ret _ l' | Throw _ l' =>
      _source l' = _source l /\
      (source_iterator l <= source_iterator l')%nat /\
      (wf l -> wf l')
  | OutOfFuel => True
  end.
Proof.
  assert (H := keeps_readtok fuel l).
  assert (Hw := readtok_wf fuel l).
  destruct (readtok fuel l) as [t l'|e l'|]; [| |exact I];
    (destruct H as [H1 H2]; repeat split; assumption).
Qed.

(** ** The token types that [readtok] returns *)

Section TokenTypes.
Context (P : Token -> Prop).
Context (P_End : forall ln cl, P (mkToken End ln cl)).
Context (P_String : forall ln cl, P (mkToken StringLiteral ln cl)).
Context (P_Real : forall ln cl, P (mkToken RealLiteral ln cl)).
Context (P_Identifier : forall ln cl, P (mkToken Identifier ln cl)).
Context (P_table : forall peek pat ty ln cl,
            find_match peek basic_matches = Some (pat, ty) ->
            P (mkToken ty ln cl)).

Lemma types_End_if_eof : yields End_if_eof (yields_token P).
Proof.
  intros l o l'. unfold End_if_eof.
  destruct (eof l); intros [= <- _] t; [intros [= <-]; apply P_End|].
  discriminate.
Qed.

Ltac types_done :=
  first [ apply P_End | apply P_String | apply P_Real | apply P_Identifier
        | assumption
        | match goal with
          | H : yields_token _ (Some _) |- _ => now apply H
          end ].

Ltac types_go :=
  repeat (cbv beta;
          lazymatch goal with
          | |- yields (bind End_if_eof _) _ =>
              apply (yields_bind_with _ _ _ _ types_End_if_eof); intros ? ?
          | |- yields (bind (iterate _ _) _) _ =>
              apply (yields_bind_with _ _ (yields_token P));
              [apply yields_iterate|intros ? ?]
          | Hag : yields ?m _ |- yields (bind ?m _) _ =>
              apply (yields_bind_with _ _ _ _ Hag); intros ? ?
          | |- yields (bind _ _) _ => apply yields_bind; intros ?
          | |- yields End_if_eof _ => apply types_End_if_eof
          | |- yields (ret _) _ => apply yields_ret
          | |- yields (throw _) _ => apply yields_throw
          | |- yields (if ?b then _ else _) _ => destruct b
          | |- yields (match ?o with Some _ => _ | None => _ end) _ =>
              destruct o
          | |- yields_token _ (Some _) => intros ? [= <-]; types_done
          | |- yields_token _ None => intros ?; discriminate
          | |- yields_token _ (if ?b then _ else _) => destruct b
          | |- returns_token _ (Return _) => intros ? [= <-]; types_done
          | |- returns_token _ (if ?b then _ else _) => destruct b
          | |- returns_token _ _ => intros ?; discriminate
          end).

Lemma types_fixed_pattern (tl tc : N) :
  yields (fixed_pattern tl tc) (yields_token P).
Proof.
  unfold fixed_pattern. apply yields_bind. intros p.
  destruct (find_match p basic_matches) as [[pat ty]|] eqn:Ef; types_go.
  intros t [= <-]. exact (P_table p pat ty tl tc Ef).
Qed.

Lemma types_dispatch (n : nat) (again : M Token) :
  yields again P -> yields (dispatch n again) P.
Proof.
  intros Hagain.
  unfold dispatch, valued, comment, string_literal, hex_color, real_literal,
    identifier.
  types_go.
  apply yields_stage.
  { unfold line_comment_body, block_comment_body, block_comment_inner.
    types_go. }
  apply yields_stage; [unfold string_body; types_go|].
  apply yields_stage; [types_go|].
  apply yields_stage; [apply types_fixed_pattern|].
  types_go.
  apply yields_stage; [unfold numeral_body; types_go|].
  apply yields_stage; [unfold identifier_body; types_go|].
  types_go.
Qed.

(** Every token of [readtok] is an [End], a string, a real, an
    identifier, or the token of a table entry that [find_match] finds. *)
Lemma types_readtok (n : nat) : yields (readtok n) P.
Proof.
  induction n as [|n IH]; [intros l t l'; discriminate|].
  rewrite readtok_S.
  apply yields_stage; [apply types_End_if_eof|].
  apply yields_stage; [unfold skip_parsed; types_go|].
  apply yields_stage; [|now apply types_dispatch].
  apply yields_iterate. unfold whitespace_body. types_go.
Qed.
End TokenTypes.

(** A table entry below an entry that is a prefix of it is never the
    first match. *)
Lemma find_match_not_shadowed (peek pat : list ascii) (ty : TokenType) :
  find_match peek basic_matches = Some (pat, ty) -> shadowed ty = false.
Proof.
  unfold basic_matches. cbn [find_match chars list_ascii_of_string length].
  repeat match goal with
         | |- context [bool_decide ?Q] =>
             let E := fresh "E" in
             destruct (bool_decide_reflect Q) as [E|E];
             [intros [= <- <-];
              first [ reflexivity
                    | exfalso;
                      apply (f_equal (take 1)) in E;
                      rewrite take_take in E; cbn in E; contradiction ]
             |]
         end.
  discriminate.
Qed.

(** X7: [readtok] never returns an [InferiorEqual], [SuperiorEqual],
    [AssignShiftLeft] or [AssignShiftRight] token, on any lexer object and
    any source: the entries [<] and [>] stand above them in the table and
    match first. *)
Theorem shadowed_never_returned (fuel : nat) (l l' : Lexer) (t : Token) :
  readtok fuel l = Ret t l' ->
  type t <> InferiorEqual /\ type t <> SuperiorEqual /\
  type t <> AssignShiftLeft /\ type t <> AssignShiftRight.
Proof.
  intros E.
  assert (H : shadowed (type t) = false).
  { revert E. apply (types_readtok (fun t => shadowed (type t) = false));
      try (intros; reflexivity).
    intros peek pat ty ln cl. exact (find_match_not_shadowed peek pat ty). }
  destruct (type t); repeat split; discriminate.
Qed.

Lemma shadowed_never_returned_witness :
  readtok 5 (Lexer_new (chars "<=")) =
    Ret (mkToken Inferior 1 1)
        (set_last_token (mkToken Inferior 1 1)
           (advance "<" (Lexer_new (chars "<=")))) /\
  Inferior <> InferiorEqual /\ Inferior <> SuperiorEqual /\
  Inferior <> AssignShiftLeft /\ Inferior <> AssignShiftRight.
Proof.
  assert (E : readtok 5 (Lexer_new (chars "<=")) =
              Ret (mkToken Inferior 1 1)
                  (set_last_token (mkToken Inferior 1 1)
                     (advance "<" (Lexer_new (chars "<=")))))
    by (vm_compute; reflexivity).
  split; [exact E|].
  exact (shadowed_never_returned 5 _ _ _ E).
Defined.

(** ** Identifiers, reals and characters that start no token *)



(** No table entry starts with a digit. *)
Lemma digit_no_entry (c : ascii) (p : list ascii) :
  is_digit c = true -> find_match (c :: p) basic_matches = None.
Proof.
  destruct c as [[] [] [] [] [] [] [] []]; intros H;
    solve [discriminate H | reflexivity].
Qed.

(** X9: a run of numeral characters that starts with a digit is always
    one [RealLiteral] token with the run as its value, dots included; no
    table entry is in its way. *)
Theorem digit_run_is_real (fuel : nat) (l : Lexer) (w : list ascii)
    (c : ascii) (cs rest : list ascii) :
  before l (w ++ (c :: cs) ++ rest) -> blank w ->
  is_digit c = true ->
  Forall (fun c => is_numeral c = true) cs ->
  stops is_numeral rest ->
  (length w + length cs + 3 <= fuel)%nat ->
  exists l',
    readtok fuel l = Ret (mkToken RealLiteral (_line l) (token_col l w)) l' /\
    last_value l' = c :: cs /\
    _current_parsed l' = false /\
    (rest = [] -> eof l' = true) /\
    (forall c' r', rest = c' :: r' -> Ascii.eqb c' NUL = false ->
       before l' rest).
Proof.
  intros Hb Hw Hd Hall Hs Hn.
  destruct fuel as [|n]; [lia|].
  assert (Hc : is_numeral c = true) by (unfold is_numeral; now rewrite Hd).
  assert (Hc1 := is_numeral_plain c Hc).
  destruct (to_table_spec c Hc1) as (Hc0 & Hcw & Hcl & _).
  destruct (readtok_enter n l w c (cs ++ rest) Hb Hw Hc0 Hcw Hcl)
    as (l1 & E & Hst & Hp & Hln & Hcol); [lia|].
  rewrite E. clear E.
  assert (Hpeek := peekstr_standing l1 c _ Hst).
  destruct Hst as (He & Hwf & Ha & Hlast & Hu & _).
  rewrite dispatch_plain by now rewrite Hlast.
  rewrite (fixed_pattern_none _ _ _ _ _ Hpeek (digit_no_entry c _ Hd)).
  destruct (run_loop is_numeral cs rest eq_refl n (set_last_value [] l1))
    as (l' & E & Hv & Har & Hcp & Hsrc & Hw'); [lia|assumption..|].
  rewrite valued_real by now rewrite Hlast.
  change numeral_body with (run_body is_numeral). rewrite E.
  rewrite Hln, Hcol. eexists. split; [reflexivity|].
  cbn in Hv. rewrite Hlast in Hv.
  split; [exact Hv|]. split; [reflexivity|].
  exact (before_after_run l1 l' rest _ Ha Hsrc Hw' Har).
Qed.

Lemma digit_run_is_real_witness :
  before real_example ([] ++ chars "1.2.3" ++ []) /\
  exists l',
    readtok 7 real_example = Ret (mkToken RealLiteral 1 1) l' /\
    last_value l' = chars "1.2.3" /\
    _current_parsed l' = false /\ eof l' = true.
Proof.
  assert (Hb : before real_example ([] ++ chars "1.2.3" ++ []))
    by (apply before_new; vm_compute; reflexivity).
  split; [exact Hb|].
  destruct (digit_run_is_real 7 real_example [] "1" (chars ".2.3") [] Hb)
    as (l' & E & Hv & Hp & He & _).
  - constructor.
  - reflexivity.
  - repeat constructor.
  - exact I.
  - simpl. lia.
  - exists l'. split; [exact E|]. split; [exact Hv|]. split; [exact Hp|].
    exact (He eq_refl).
Defined.

(** The part of [readtok] below the whitespace loop, on a character that
    starts neither a comment nor a string. *)
Lemma dispatch_no_comment (n : nat) (again : M Token) l :
  Ascii.eqb (_last_char l) "/" = false ->
  Ascii.eqb (_last_char l) DQUOTE = false ->
  Ascii.eqb (_last_char l) SQUOTE = false ->
  dispatch n again l =
  stage (hex_color (_line l) (_col l))
    (stage (fixed_pattern (_line l) (_col l))
       (valued n (_line l) (_col l))) l.
Proof.
  intros H1 H2 H3.
  cbv beta iota delta [dispatch stage bind get comment string_literal ret].
  rewrite H1. cbv beta iota. rewrite H2, H3. reflexivity.
Qed.

(** X10: a [$] where a token starts makes [readtok] throw "Hex colors are
    a stub" with the line and column of the [$]; the [$] is consumed. *)
Theorem hex_color_throws (n : nat) (l : Lexer) (w rest : list ascii) :
  before l (w ++ "$" :: rest) -> blank w -> (length w + 1 < n)%nat ->
  exists l',
    readtok (S n) l =
      Throw (LexerException "Hex colors are a stub" (_line l) (token_col l w))
            l' /\
    unread l' = rest.
Proof.
  intros Hb Hw Hn.
  destruct (readtok_entered n l w "$" rest Hb Hw eq_refl eq_refl Hn)
    as (E & Hst).
  destruct (entered_counters l w "$" Hw eq_refl) as (Hln & Hcol).
  destruct Hst as (He & Hwf & Ha & Hlast & Hu & _).
  rewrite E, dispatch_no_comment by now rewrite Hlast.
  cbv beta iota delta [stage bind hex_color get throw]. rewrite Hlast. cbn.
  rewrite Hln, Hcol. eexists. split; [reflexivity|exact Hu].
Qed.

Lemma hex_color_throws_witness :
  before hex_example ([] ++ "$" :: chars "FF00FF") /\
  exists l',
    readtok 5 hex_example =
      Throw (LexerException "Hex colors are a stub" 1 1) l' /\
    unread l' = chars "FF00FF".
Proof.
  assert (Hb : before hex_example ([] ++ "$" :: chars "FF00FF"))
    by (apply before_new; vm_compute; reflexivity).
  split; [exact Hb|].
  apply (hex_color_throws 4 hex_example [] (chars "FF00FF") Hb).
  - constructor.
  - simpl. lia.
Defined.

Lemma valued_unknown (n : nat) (tl tc : N) l :
  is_numeral (_last_char l) = false ->
  is_identifier_begin (_last_char l) = false ->
  valued n tl tc l =
  Throw (LexerException "Unknown token" tl tc) (set_last_value [] l).
Proof.
  intros H1 H2.
  cbv beta iota delta
    [valued stage bind modify real_literal identifier get ret throw].
  change (_last_char (set_last_value [] l)) with (_last_char l).
  rewrite H1. cbv beta iota.
  change (_last_char (set_last_value [] l)) with (_last_char l).
  rewrite H2. reflexivity.
Qed.



(** ** The end of the source, line feeds and the character [/] *)

Lemma whitespace_body_end l :
  eof l = false -> is_whitespace (_last_char l) = true ->
  _it l = length (_source l) ->
  whitespace_body l = Ret (Return (End_token l)) (set_last_char NUL l).
Proof.
  intros He Hw Hi. unfold whitespace_body, bind, get. rewrite Hw.
  now rewrite (readchar_nil l He Hi).
Qed.

(** The whitespace loop on blanks that go up to the end of the source. *)
Lemma whitespace_loop_end (w : list ascii) :
  blank w ->
  forall (n : nat) l,
  (length w < n)%nat ->
  eof l = false -> wf l -> is_whitespace (_last_char l) = true ->
  unread l = w ->
  iterate n whitespace_body l =
  Ret (Some (mkToken End (_line l) (Nat.iter (length w) incr (_col l))))
      (set_last_char NUL (advances w l)).
Proof.
  induction w as [|b w IH]; intros Hb n l Hn He Hwf Hw Hu.
  - destruct n as [|n]; [simpl in Hn; lia|].
    rewrite iterate_S, whitespace_body_end;
      [reflexivity|exact He|exact Hw|now apply unread_nil].
  - destruct n as [|n]; [simpl in Hn; lia|].
    apply Forall_cons in Hb. destruct Hb as [Hb1 Hb].
    destruct (blank_char b Hb1) as [Hb0 Hbl].
    rewrite iterate_S, (whitespace_body_read l b _ He Hw Hu Hb0).
    rewrite (IH Hb n (advance b l));
      [|simpl in Hn; lia|exact Hb0|exact (wf_advance _ _ _ Hu)|exact Hb1
       |exact (unread_advance _ _ _ Hu)].
    cbn [length]. rewrite Nat.iter_succ_r. cbn [advance _line _col advances].
    now rewrite Hbl.
Qed.

(** X12: when nothing but spaces and tabs, or nothing at all, is left
    before the lexer, [readtok] returns the [End] token; its position is
    the end of the source, the column counter advanced by one for every
    character still unread. *)
Theorem blank_input_ends (n : nat) (l : Lexer) (w : list ascii) :
  before l w -> blank w -> (length w < n)%nat ->
  exists l',
    readtok (S n) l =
      Ret (mkToken End (_line l)
             (Nat.iter (length (unread l)) incr (_col l))) l' /\
    eof l' = true /\ unread l' = [].
Proof.
  intros (He & Hwf & Ha & Hs & Hu) Hb Hn. unfold pending in Hu.
  destruct (_current_parsed l) eqn:Hp.
  - rewrite Hu. destruct w as [|b w].
    + rewrite readtok_S.
      unfold stage at 1, bind at 1, End_if_eof at 1. rewrite He.
      unfold stage at 1, bind at 1, skip_parsed, bind at 1, get.
      rewrite Hp. unfold bind at 1.
      rewrite (readchar_nil l He (unread_nil l Hwf Hu)).
      eexists. split; [reflexivity|]. split; [reflexivity|exact Hu].
    + apply Forall_cons in Hb. destruct Hb as [Hb1 Hb].
      destruct (blank_char b Hb1) as [Hb0 Hbl].
      rewrite (readtok_read n l b w He Hp Hu Hb0).
      unfold stage, bind.
      rewrite (whitespace_loop_end w Hb n (advance b l));
        [|simpl in Hn; lia|exact Hb0|exact (wf_advance _ _ _ Hu)|exact Hb1
         |exact (unread_advance _ _ _ Hu)].
      cbn [length]. rewrite Nat.iter_succ_r.
      cbn [advance _line _col]. rewrite Hbl.
      eexists. split; [reflexivity|]. split; [reflexivity|].
      change (unread (advances (b :: w) l) = []).
      apply (advances_unread (b :: w) [] l Hwf). now rewrite app_nil_r.
  - destruct w as [|b w]; [discriminate Hu|]. injection Hu as Hlast Hu.
    apply Forall_cons in Hb. destruct Hb as [Hb1 Hb].
    rewrite (readtok_keep n l He Hp). unfold stage, bind.
    rewrite (whitespace_loop_end w Hb n (set_current_parsed true l));
      [|simpl in Hn; lia|exact He|exact Hwf|cbn; now rewrite Hlast|exact Hu].
    rewrite Hu. eexists. split; [reflexivity|]. split; [reflexivity|].
    change (unread (advances w (set_current_parsed true l)) = []).
    apply (advances_unread w [] (set_current_parsed true l) Hwf).
    now rewrite app_nil_r.
Qed.

Lemma blank_input_ends_witness :
  before blanks_example (chars "   ") /\
  exists l',
    readtok 5 blanks_example = Ret (mkToken End 1 3) l' /\
    eof l' = true /\ unread l' = [].
Proof.
  assert (Hb : before blanks_example (chars "   "))
    by (apply before_new; vm_compute; reflexivity).
  split; [exact Hb|].
  apply (blank_input_ends 4 blanks_example (chars "   ") Hb).
  - repeat constructor.
  - simpl. lia.
Defined.

(** After the comment, string and hex-color checks have passed. *)
Lemma dispatch_to_table (n : nat) (again : M Token) l :
  Ascii.eqb (_last_char l) "/" = false ->
  Ascii.eqb (_last_char l) DQUOTE = false ->
  Ascii.eqb (_last_char l) SQUOTE = false ->
  Ascii.eqb (_last_char l) "$" = false ->
  dispatch n again l =
  stage (fixed_pattern (_line l) (_col l)) (valued n (_line l) (_col l)) l.
Proof.
  intros H1 H2 H3 H4. rewrite dispatch_no_comment by assumption.
  cbv beta iota delta [stage bind hex_color get ret]. now rewrite H4.
Qed.

(** X13: a line feed that [readtok] reads itself, after blanks, is
    returned as a [LineFeed] token whose position is taken after the
    line feed has been counted: the line after the one the line feed
    ends, and column 0. *)
Theorem line_feed_token (n : nat) (l : Lexer) (w rest : list ascii) :
  before l (w ++ LF :: rest) -> blank w -> _current_parsed l = true ->
  (length w + 1 < n)%nat ->
  exists l',
    readtok (S n) l = Ret (mkToken LineFeed (incr (_line l)) 0) l' /\
    before l' rest /\ _current_parsed l' = true /\
    _line l' = incr (_line l) /\ _col l' = 0%N.
Proof.
  intros Hb Hw Hp Hn.
  destruct (readtok_entered n l w LF rest Hb Hw eq_refl eq_refl Hn)
    as (E & Hst).
  assert (Hpeek := peekstr_standing _ LF _ Hst).
  destruct Hst as (He & Hwf & Ha & Hlast & Hu & Hi).
  unfold entered in *. rewrite Hp in *. rewrite advances_app in *.
  cbn [advances] in *.
  assert (Hlf : Forall (fun c => Ascii.eqb c LF = false) w).
  { eapply Forall_impl; [exact Hw|]. intros b Hb1.
    exact (proj2 (blank_char b Hb1)). }
  destruct (advances_counters w l Hlf) as [Hln _].
  destruct (advances_fields w l) as (_ & Hcp & _).
  rewrite E, dispatch_to_table by reflexivity.
  rewrite (fixed_pattern_found _ _ _ _ _ [LF] LineFeed Hpeek eq_refl).
  cbn [advance _line _col Ascii.eqb Bool.eqb LF]. rewrite Hln.
  eexists. split; [reflexivity|].
  split; [|cbn; rewrite Hcp, Hp, Hln; now repeat split].
  split; [exact He|]. split; [exact Hwf|]. split; [exact Ha|].
  split; [intros H; cbn in H; rewrite Hcp, Hp in H; discriminate H|].
  unfold pending. cbn. rewrite Hcp, Hp. exact Hu.
Qed.

Lemma line_feed_token_witness :
  before two_lines_example ([] ++ LF :: chars "a") /\
  exists l',
    readtok 3 two_lines_example = Ret (mkToken LineFeed 2 0) l' /\
    before l' (chars "a") /\ _current_parsed l' = true /\
    _line l' = 2%N /\ _col l' = 0%N.
Proof.
  assert (Hb : before two_lines_example ([] ++ LF :: chars "a"))
    by (apply before_new; vm_compute; reflexivity).
  split; [exact Hb|].
  apply (line_feed_token 2 two_lines_example [] (chars "a") Hb).
  - constructor.
  - reflexivity.
  - simpl. lia.
Defined.

(** X14: [readchar] at the end of the source, before the end has been
    seen: it returns the null character and sets it as the character
    read last, so that [eof()] holds afterwards; iterator, line and
    column stay; the call after it throws "Reached EOF (lexer crash)"
    with the line and column of the end of the source. *)
Theorem readchar_at_end (l : Lexer) :
  eof l = false -> source_iterator l = length (_source l) ->
  exists l',
    readchar l = Ret NUL l' /\ eof l' = true /\
    source_iterator l' = source_iterator l /\
    _line l' = _line l /\ _col l' = _col l /\
    readchar l' =
      Throw (LexerException "Reached EOF (lexer crash)" (_line l) (_col l)) l'.
Proof.
  intros He Hi. exists (set_last_char NUL l).
  split; [exact (readchar_nil l He Hi)|].
  split; [reflexivity|]. split; [reflexivity|]. split; [reflexivity|].
  split; [reflexivity|]. exact (readchar_eof (set_last_char NUL l) eq_refl).
Qed.

Lemma readchar_at_end_witness :
  exists l',
    readchar semicolon_read_example = Ret NUL l' /\ eof l' = true /\
    source_iterator l' = 1%nat /\ _line l' = 1%N /\ _col l' = 1%N /\
    readchar l' = Throw (LexerException "Reached EOF (lexer crash)" 1 1) l'.
Proof. apply (readchar_at_end semicolon_read_example); reflexivity. Defined.

(** ** Comments *)

Lemma line_comment_body_char l (c : ascii) (r : list ascii) :
  eof l = false -> unread l = c :: r ->
  Ascii.eqb c LF = false -> Ascii.eqb c NUL = false ->
  line_comment_body l = Ret Continue (advance c l).
Proof.
  intros He Hu H1 H2. unfold line_comment_body, bind, ret, is_line_end.
  now rewrite (readchar_cons l c r He Hu), H1, H2.
Qed.

(** The loop of a single-line comment reads up to the line feed, which
    it consumes, or up to the end of the source. *)
Lemma line_comment_loop (body : list ascii) :
  Forall (fun c => Ascii.eqb c LF = false /\ Ascii.eqb c NUL = false) body ->
  forall (n : nat) l,
  (length body < n)%nat -> eof l = false -> wf l ->
  (forall r, unread l = body ++ LF :: r ->
     iterate n line_comment_body l = Ret None (advances (body ++ [LF]) l)) /\
  (unread l = body ->
     iterate n line_comment_body l =
       Ret None (set_last_char NUL (advances body l))).
Proof.
  induction body as [|c body IH]; intros Hall n l Hn He Hw.
  - destruct n as [|n]; [simpl in Hn; lia|]. split.
    + intros r Hu. cbn in Hu. rewrite iterate_S.
      unfold line_comment_body, bind, ret.
      now rewrite (readchar_cons l LF r He Hu).
    + intros Hu. rewrite iterate_S. unfold line_comment_body, bind, ret.
      now rewrite (readchar_nil l He (unread_nil l Hw Hu)).
  - destruct n as [|n]; [simpl in Hn; lia|].
    apply Forall_cons in Hall. destruct Hall as [[H1 H2] Hall].
    assert (Hstep : forall r, unread l = c :: r ->
              iterate (S n) line_comment_body l =
              iterate n line_comment_body (advance c l)).
    { intros r Hu.
      now rewrite iterate_S, (line_comment_body_char l c r He Hu H1 H2). }
    split.
    + intros r Hu. cbn in Hu. rewrite (Hstep _ Hu). cbn [app advances].
      refine (proj1 (IH Hall n (advance c l) _ H2 (wf_advance _ _ _ Hu)) r
                (unread_advance _ _ _ Hu)).
      simpl in Hn. lia.
    + intros Hu. rewrite (Hstep _ Hu). cbn [advances].
      refine (proj2 (IH Hall n (advance c l) _ H2 (wf_advance _ _ _ Hu))
                (unread_advance _ _ _ Hu)).
      simpl in Hn. lia.
Qed.

(** The part of [readtok] below the whitespace loop, on the two
    characters that open a single-line comment. *)
Lemma dispatch_line_comment (n : nat) (again : M Token) l (r : list ascii) :
  eof l = false -> _last_char l = "/" -> unread l = "/" :: r ->
  dispatch n again l =
  match iterate n line_comment_body (advance "/" l) with
  | Ret _ l' =>
      if eof l'
      then Ret (mkToken End (_line l) (_col l))
               (set_last_token (mkToken End (_line l) (_col l)) l')
      else stage (string_literal n (_line l) (_col l))
             (stage (hex_color (_line l) (_col l))
                (stage (fixed_pattern (_line l) (_col l))
                   (valued n (_line l) (_col l)))) l'
  | Throw e l' => Throw e l'
  | OutOfFuel => OutOfFuel
  end.
Proof.
  intros He Hl Hu.
  cbv beta iota delta [dispatch stage bind get comment ret return_token modify].
  rewrite Hl. cbn [Ascii.eqb Bool.eqb]. cbv beta iota.
  rewrite (readchar_cons l _ r He Hu). cbn [_last_char advance].
  cbn [Ascii.eqb Bool.eqb]. cbv beta iota.
  destruct (iterate n _ (advance "/" l)) as [o l'| |]; [|reflexivity..].
  destruct (eof l'); reflexivity.
Qed.

(** The string and hex-color checks on a character that is neither a
    quote nor a [$]. *)
Lemma below_comment_plain (n : nat) (tl tc : N) (k : M Token) l :
  Ascii.eqb (_last_char l) DQUOTE = false ->
  Ascii.eqb (_last_char l) SQUOTE = false ->
  Ascii.eqb (_last_char l) "$" = false ->
  stage (string_literal n tl tc) (stage (hex_color tl tc) k) l = k l.
Proof.
  intros H1 H2 H3.
  cbv beta iota delta [stage bind get string_literal hex_color ret].
  rewrite H1, H2. cbn [orb]. cbv beta iota. now rewrite H3.
Qed.

Lemma addressable_advance l (c : ascii) :
  addressable l -> addressable (advance c l).
Proof. exact id. Qed.

(** X15: a single-line comment that a line feed ends is skipped with
    its line feed, and [readtok] returns a [LineFeed] token for it; the
    token carries the line and column of the comment's first [/], not
    those of the line feed. *)
Theorem line_comment_line_feed (n : nat) (l : Lexer)
    (w body rest : list ascii) :
  before l (w ++ chars "//" ++ body ++ LF :: rest) -> blank w ->
  Forall (fun c => Ascii.eqb c LF = false /\ Ascii.eqb c NUL = false) body ->
  (length w + length body + 1 < n)%nat ->
  exists l',
    readtok (S n) l = Ret (mkToken LineFeed (_line l) (token_col l w)) l' /\
    before l' rest /\ _current_parsed l' = true /\
    _line l' = incr (_line l) /\ _col l' = 0%N.
Proof.
  intros Hb Hw Hall Hn.
  destruct (readtok_entered n l w "/" _ Hb Hw eq_refl eq_refl) as (E & Hst);
    [lia|].
  destruct (entered_counters l w "/" Hw eq_refl) as (Hln & Hcol).
  destruct (entered_fields l w "/") as (_ & _ & _ & Hcp & _).
  destruct Hst as (He & Hwf & Ha & Hlast & Hu & _).
  rewrite E, (dispatch_line_comment n _ _ _ He Hlast Hu).
  set (l2 := advance "/" (entered l w "/")) in *.
  assert (Hu2 : unread l2 = body ++ LF :: rest)
    by exact (unread_advance _ _ _ Hu).
  assert (Hw2 : wf l2) by exact (wf_advance _ _ _ Hu).
  rewrite (proj1 (line_comment_loop body Hall n l2 ltac:(lia) eq_refl Hw2)
             rest Hu2).
  assert (Hst3 := standing_advances_any body LF rest l2 eq_refl Hw2 Ha Hu2
                    eq_refl).
  assert (Hpeek := peekstr_standing _ _ _ Hst3).
  destruct Hst3 as (He3 & Hw3 & Ha3 & Hl3 & Hu3 & _).
  rewrite He3, below_comment_plain by now rewrite Hl3.
  rewrite (fixed_pattern_found _ _ _ _ _ [LF] LineFeed Hpeek eq_refl).
  rewrite Hln, Hcol.
  assert (Hlf : Forall (fun c => Ascii.eqb c LF = false) body).
  { eapply Forall_impl; [exact Hall|]. now intros c [H _]. }
  destruct (advances_counters body l2 Hlf) as [Hln3 _].
  destruct (advances_fields (body ++ [LF]) l2) as (_ & Hcp3 & _).
  assert (Hp3 : _current_parsed (advances (body ++ [LF]) l2) = true)
    by (rewrite Hcp3; exact Hcp).
  eexists. split; [reflexivity|]. split; [|split; [exact Hp3|]].
  - split; [exact He3|]. split; [exact Hw3|]. split; [exact Ha3|].
    split; [intros H; cbn in H; rewrite Hp3 in H; discriminate H|].
    unfold pending. cbn. rewrite Hp3. exact Hu3.
  - cbn. rewrite advances_app. cbn. rewrite Hln3.
    split; [|reflexivity]. cbn. now rewrite Hln.
Qed.

Lemma line_comment_line_feed_witness :
  before line_comment_example_lexer
         (chars " " ++ chars "//" ++ chars "ab" ++ LF :: chars "c") /\
  exists l',
    readtok 6 line_comment_example_lexer = Ret (mkToken LineFeed 1 2) l' /\
    before l' (chars "c") /\ _current_parsed l' = true /\
    _line l' = 2%N /\ _col l' = 0%N.
Proof.
  assert (Hb : before line_comment_example_lexer
                 (chars " " ++ chars "//" ++ chars "ab" ++ LF :: chars "c"))
    by (apply before_new; vm_compute; reflexivity).
  split; [exact Hb|].
  apply (line_comment_line_feed 5 line_comment_example_lexer (chars " ")
           (chars "ab") (chars "c") Hb).
  - repeat constructor.
  - repeat constructor.
  - simpl. lia.
Defined.

(** X16: a single-line comment that goes up to the end of the source
    makes [readtok] return the [End] token, with the line and column of
    the comment's first [/]. *)
Theorem line_comment_at_end (n : nat) (l : Lexer) (w body : list ascii) :
  before l (w ++ chars "//" ++ body) -> blank w ->
  Forall (fun c => Ascii.eqb c LF = false /\ Ascii.eqb c NUL = false) body ->
  (length w + length body + 1 < n)%nat ->
  exists l',
    readtok (S n) l = Ret (mkToken End (_line l) (token_col l w)) l' /\
    eof l' = true /\ unread l' = [].
Proof.
  intros Hb Hw Hall Hn.
  destruct (readtok_entered n l w "/" _ Hb Hw eq_refl eq_refl) as (E & Hst);
    [lia|].
  destruct (entered_counters l w "/" Hw eq_refl) as (Hln & Hcol).
  destruct Hst as (He & Hwf & Ha & Hlast & Hu & _).
  rewrite E, (dispatch_line_comment n _ _ _ He Hlast Hu).
  set (l2 := advance "/" (entered l w "/")) in *.
  assert (Hu2 : unread l2 = body) by exact (unread_advance _ _ _ Hu).
  assert (Hw2 : wf l2) by exact (wf_advance _ _ _ Hu).
  rewrite (proj2 (line_comment_loop body Hall n l2 ltac:(lia) eq_refl Hw2)
             Hu2).
  change (eof (set_last_char NUL (advances body l2))) with true.
  cbv beta iota. rewrite Hln, Hcol.
  eexists. split; [reflexivity|]. split; [reflexivity|].
  change (unread (advances body l2) = []).
  apply (advances_unread body [] l2 Hw2). now rewrite app_nil_r.
Qed.

Lemma line_comment_at_end_witness :
  before line_comment_end_example ([] ++ chars "//" ++ chars " x") /\
  exists l',
    readtok 5 line_comment_end_example = Ret (mkToken End 1 1) l' /\
    eof l' = true /\ unread l' = [].
Proof.
  assert (Hb : before line_comment_end_example
                 ([] ++ chars "//" ++ chars " x"))
    by (apply before_new; vm_compute; reflexivity).
  split; [exact Hb|].
  apply (line_comment_at_end 4 line_comment_end_example [] (chars " x") Hb).
  - constructor.
  - repeat constructor.
  - simpl. lia.
Defined.

(** X17: a multi-line comment whose text holds no [*] and that [*/]
    closes is skipped: [readtok] goes on as a new call on the text behind
    the comment, and returns or throws what that call returns or
    throws. *)
Theorem block_comment_skipped (n : nat) (l : Lexer)
    (w body rest : list ascii) :
  before l (w ++ chars "/*" ++ body ++ chars "*/" ++ rest) -> blank w ->
  Forall (fun c => Ascii.eqb c "*" = false /\ Ascii.eqb c NUL = false) body ->
  (length w + length body + 2 < n)%nat ->
  exists l1,
    before l1 rest /\ _current_parsed l1 = true /\
    (forall t l', readtok n l1 = Ret t l' -> readtok (S n) l = Ret t l') /\
    (forall e l', readtok n l1 = Throw e l' -> readtok (S n) l = Throw e l').
Proof.
  intros Hb Hw Hall Hn.
  destruct (readtok_entered n l w "/" _ Hb Hw eq_refl eq_refl) as (E & Hst);
    [lia|].
  destruct (entered_fields l w "/") as (_ & _ & _ & Hcp & _).
  destruct Hst as (He & Hwf & Ha & Hlast & Hu & _).
  rewrite E, (dispatch_block_comment n _ _ _ He Hlast Hu).
  set (l2 := advance "*" (entered l w "/")) in *.
  assert (Hu2 : unread l2 = body ++ "*" :: "/" :: rest)
    by exact (unread_advance _ _ _ Hu).
  assert (Hw2 : wf l2) by exact (wf_advance _ _ _ Hu).
  destruct n as [|n]; [lia|]. rewrite iterate_S.
  cbv beta iota delta [block_comment_body bind].
  rewrite (proj2 (block_comment_inner_loop _ _ body Hall (S n) l2
                    ltac:(lia) eq_refl Hw2) _ Hu2).
  assert (Hst3 := standing_advances_any body "*" ("/" :: rest) l2 eq_refl Hw2
                    Ha Hu2 eq_refl).
  destruct Hst3 as (He3 & Hw3 & Ha3 & Hl3 & Hu3 & _).
  rewrite (readchar_cons _ _ _ He3 Hu3).
  cbn [ret Ascii.eqb Bool.eqb]. cbv beta iota.
  set (l4 := advance "/" (advances (body ++ ["*"]) l2)).
  assert (Hp4 : _current_parsed l4 = true).
  { unfold l4. cbn.
    destruct (advances_fields (body ++ ["*"]) l2) as (_ & H & _).
    rewrite H. exact Hcp. }
  exists l4. split; [|split; [exact Hp4|]].
  - split; [reflexivity|]. split; [exact (wf_advance _ _ _ Hu3)|].
    split; [exact Ha3|].
    split; [intros H; rewrite Hp4 in H; discriminate H|].
    unfold pending. rewrite Hp4. exact (unread_advance _ _ _ Hu3).
  - split.
    + intros t l' Et. rewrite Et.
      rewrite <- (readtok_last_token _ _ _ _ Et) at 2.
      now rewrite set_last_token_same.
    + intros e l' Et. now rewrite Et.
Qed.

Lemma block_comment_skipped_witness :
  before comments_example
         ([] ++ chars "/*" ++ chars " a " ++ chars "*/" ++ chars " 'b' // c") /\
  exists l1,
    before l1 (chars " 'b' // c") /\ _current_parsed l1 = true /\
    (forall t l', readtok 11 l1 = Ret t l' ->
       readtok 12 comments_example = Ret t l') /\
    (forall e l', readtok 11 l1 = Throw e l' ->
       readtok 12 comments_example = Throw e l').
Proof.
  assert (Hb : before comments_example
                 ([] ++ chars "/*" ++ chars " a " ++ chars "*/" ++
                  chars " 'b' // c"))
    by (apply before_new; vm_compute; reflexivity).
  split; [exact Hb|].
  apply (block_comment_skipped 11 comments_example [] (chars " a ")
           (chars " 'b' // c") Hb).
  - constructor.
  - repeat constructor.
  - simpl. lia.
Defined.

(** ** A backslash at the end of the source *)





(** ** The character [/] outside comments *)

Lemma peekstr_at l (i : nat) (c : ascii) (r : list ascii) :
  wf l -> addressable l -> _it l = S i -> _source l !! i = Some c ->
  unread l = r ->
  peekstr l = Ret (take 4 (c :: r)) l.
Proof.
  intros Hw Ha Hi Hl Hu.
  unfold addressable, wf in *. unfold peekstr, peek_pos. rewrite Hi.
  replace (Z.of_nat (S i) - 1)%Z with (Z.of_nat i) by lia.
  rewrite Z.mod_small by lia.
  destruct (Z.ltb_spec (Z.of_nat (length (_source l))) (Z.of_nat i)); [lia|].
  rewrite Nat2Z.id, (drop_S _ _ _ Hl).
  unfold unread in Hu. now rewrite Hi in Hu; rewrite Hu.
Qed.

(** The comment check on a [/] that is followed neither by [/] nor by
    [*]: the character after the [/] is read and becomes the one the rest
    of [readtok] looks at. *)
Lemma dispatch_slash_char (n : nat) (again : M Token) l
    (c : ascii) (r : list ascii) :
  eof l = false -> _last_char l = "/" -> unread l = c :: r ->
  Ascii.eqb c "/" = false -> Ascii.eqb c "*" = false ->
  dispatch n again l =
  stage (string_literal n (_line l) (_col l))
    (stage (hex_color (_line l) (_col l))
       (stage (fixed_pattern (_line l) (_col l))
          (valued n (_line l) (_col l))))
    (set_current_parsed false (advance c l)).
Proof.
  intros He Hl Hu H1 H2.
  cbv beta iota delta [dispatch stage bind get comment ret return_token modify].
  rewrite Hl. cbn [Ascii.eqb Bool.eqb]. cbv beta iota.
  rewrite (readchar_cons l _ r He Hu). cbn [_last_char advance].
  rewrite H1, H2. reflexivity.
Qed.

Lemma dispatch_slash_end (n : nat) (again : M Token) l :
  eof l = false -> _last_char l = "/" -> _it l = length (_source l) ->
  dispatch n again l =
  stage (string_literal n (_line l) (_col l))
    (stage (hex_color (_line l) (_col l))
       (stage (fixed_pattern (_line l) (_col l))
          (valued n (_line l) (_col l))))
    (set_current_parsed false (set_last_char NUL l)).
Proof.
  intros He Hl Hi.
  cbv beta iota delta [dispatch stage bind get comment ret return_token modify].
  rewrite Hl. cbn [Ascii.eqb Bool.eqb]. cbv beta iota.
  rewrite (readchar_nil l He Hi). reflexivity.
Qed.

(** X19: a [/] that is the last character of the source is returned as
    a [Divide] token at its own position; the look-ahead of the comment
    check has seen the end of the source, so [eof()] holds afterwards. *)
Theorem divide_at_end (n : nat) (l : Lexer) (w : list ascii) :
  before l (w ++ chars "/") -> blank w -> (length w + 1 < n)%nat ->
  exists l',
    readtok (S n) l = Ret (mkToken Divide (_line l) (token_col l w)) l' /\
    eof l' = true /\ unread l' = [].
Proof.
  intros Hb Hw Hn.
  destruct (readtok_entered n l w "/" [] Hb Hw eq_refl eq_refl Hn)
    as (E & Hst).
  destruct (entered_counters l w "/" Hw eq_refl) as (Hln & Hcol).
  destruct Hst as (He & Hwf & Ha & Hlast & Hu & i & Hi & Hl).
  rewrite E, (dispatch_slash_end n _ _ He Hlast (unread_nil _ Hwf Hu)).
  rewrite below_comment_plain by reflexivity.
  rewrite (fixed_pattern_found _ _ _ _ _ (chars "/") Divide
             (peekstr_at
                (set_current_parsed false
                   (set_last_char NUL (entered l w "/")))
                i "/" [] Hwf Ha Hi Hl Hu) eq_refl).
  rewrite Hln, Hcol. eexists. split; [reflexivity|].
  split; [reflexivity|exact Hu].
Qed.

Lemma divide_at_end_witness :
  before divide_example_lexer (chars " " ++ chars "/") /\
  exists l',
    readtok 4 divide_example_lexer = Ret (mkToken Divide 1 2) l' /\
    eof l' = true /\ unread l' = [].
Proof.
  assert (Hb : before divide_example_lexer (chars " " ++ chars "/"))
    by (apply before_new; vm_compute; reflexivity).
  split; [exact Hb|].
  apply (divide_at_end 3 divide_example_lexer (chars " ") Hb).
  - repeat constructor.
  - simpl. lia.
Defined.

Lemma blank_starts_nothing (c : ascii) (p : list ascii) :
  is_whitespace c = true ->
  find_match (c :: p) basic_matches = None /\
  is_numeral c = false /\ is_identifier_begin c = false /\
  Ascii.eqb c "/" = false /\ Ascii.eqb c "*" = false /\
  Ascii.eqb c DQUOTE = false /\ Ascii.eqb c SQUOTE = false /\
  Ascii.eqb c "$" = false.
Proof.
  unfold is_whitespace. intros H. apply orb_true_iff in H.
  destruct H as [H|H]; apply Ascii.eqb_eq in H; subst c;
    repeat split; reflexivity.
Qed.

(** X20: a [/] that is followed by a space or a tab is no [Divide]
    token: the comment check reads the blank, the table and the scanners
    of reals and identifiers are tried on the blank, and [readtok]
    throws "Unknown token" with the line and column of the [/]. *)
Theorem slash_before_blank_throws (n : nat) (l : Lexer) (w : list ascii)
    (b : ascii) (rest : list ascii) :
  before l (w ++ "/" :: b :: rest) -> blank w -> is_whitespace b = true ->
  (length w + 1 < n)%nat ->
  exists l',
    readtok (S n) l =
      Throw (LexerException "Unknown token" (_line l) (token_col l w)) l' /\
    unread l' = rest.
Proof.
  intros Hb Hw Hbl Hn.
  destruct (readtok_entered n l w "/" _ Hb Hw eq_refl eq_refl Hn)
    as (E & Hst).
  destruct (entered_counters l w "/" Hw eq_refl) as (Hln & Hcol).
  destruct Hst as (He & Hwf & Ha & Hlast & Hu & _).
  destruct (blank_starts_nothing b (take 3 rest) Hbl)
    as (Hf & Hnum & Hid & H1 & H2 & H3 & H4 & H5).
  destruct (blank_char b Hbl) as [Hb0 _].
  rewrite E, (dispatch_slash_char n _ _ b rest He Hlast Hu H1 H2).
  set (l2 := set_current_parsed false (advance b (entered l w "/"))).
  assert (Hst2 : standing l2 b rest).
  { exact (standing_advances_any [] b rest _ He Hwf Ha Hu Hb0). }
  assert (Hpeek := peekstr_standing _ _ _ Hst2).
  rewrite below_comment_plain by assumption.
  rewrite (fixed_pattern_none _ _ _ _ _ Hpeek Hf).
  rewrite valued_unknown by assumption.
  rewrite Hln, Hcol. eexists. split; [reflexivity|].
  exact (unread_advance _ _ _ Hu).
Qed.

Lemma slash_before_blank_throws_witness :
  before quotient_example (chars " " ++ "/" :: " " :: chars "b") /\
  exists l',
    readtok 4 quotient_example =
      Throw (LexerException "Unknown token" 1 2) l' /\
    unread l' = chars "b".
Proof.
  assert (Hb : before quotient_example (chars " " ++ "/" :: " " :: chars "b"))
    by (apply before_new; vm_compute; reflexivity).
  split; [exact Hb|].
  apply (slash_before_blank_throws 3 quotient_example (chars " ") " "
           (chars "b") Hb).
  - repeat constructor.
  - reflexivity.
  - simpl. lia.
Defined.

(** ** What [readtok] never does on a lexer that a program can get to *)

Section SafeRules.
Context {A B : Type}.
Implicit Types (l : Lexer).

Lemma safe_ret (a : A) (Q : A -> Lexer -> Prop) l :
  Q a l -> safe (ret a) Q l.
Proof. exact id. Qed.

Lemma safe_throw (e : Exception) (Q : A -> Lexer -> Prop) l :
  expected e -> stepped l -> safe (throw e) Q l.
Proof. intros He Hs. split; assumption. Qed.

Lemma safe_get (f : Lexer -> A) (Q : A -> Lexer -> Prop) l :
  Q (f l) l -> safe (get f) Q l.
Proof. exact id. Qed.

Lemma safe_bind (m : M A) (k : A -> M B) (Q : B -> Lexer -> Prop) l :
  safe m (fun a l' => safe (k a) Q l') l -> safe (bind m k) Q l.
Proof. unfold safe, bind. destruct (m l); auto. Qed.

Lemma safe_conseq (m : M A) (P Q : A -> Lexer -> Prop) l :
  safe m P l -> (forall a l', P a l' -> Q a l') -> safe m Q l.
Proof. unfold safe. destruct (m l); auto. Qed.
End SafeRules.

Lemma safe_modify (f : Lexer -> Lexer) (Q : unit -> Lexer -> Prop) l :
  Q tt (f l) -> safe (modify f) Q l.
Proof. exact id. Qed.

Lemma safe_stage (m : M (option Token)) (rest : M Token)
    (P : Lexer -> Prop) l :
  safe m (staged P) l ->
  (forall l', P l' -> safe rest served l') ->
  safe (stage m rest) served l.
Proof.
  intros Hm Hr. unfold stage. apply safe_bind.
  eapply safe_conseq; [exact Hm|].
  intros [t|] l' H; [exact H|exact (Hr l' H)].
Qed.

Lemma safe_iterate (n : nat) (body : M control) (Inv : Lexer -> Prop)
    (Q : option Token -> Lexer -> Prop) :
  (forall l, Inv l ->
     safe body (fun c l' => match c with
                            | Continue => Inv l'
                            | Break => Q None l'
                            | Return t => Q (Some t) l'
                            end) l) ->
  forall l, Inv l -> safe (iterate n body) Q l.
Proof.
  intros Hb. induction n as [|n IH]; intros l Hl; [exact I|].
  unfold safe. rewrite iterate_S. specialize (Hb l Hl). unfold safe in Hb.
  destruct (body l) as [[| |t] l'|e l'|]; [|exact Hb..].
  exact (IH l' Hb).
Qed.

Ltac safe_simple :=
  repeat (cbv beta;
          lazymatch goal with
          | |- safe (ret _) _ _ => apply safe_ret
          | |- safe (get _) _ _ => apply safe_get
          | |- safe (modify _) _ _ => apply safe_modify
          | |- safe (bind readchar _) _ _ => fail
          | |- safe (bind (iterate _ _) _) _ _ => fail
          | |- safe (bind _ _) _ _ => apply safe_bind
          end);
  cbv beta.

Lemma expected_crash (ln cl : N) :
  expected (LexerException "Reached EOF (lexer crash)" ln cl).
Proof. repeat constructor. Qed.

Lemma stepped_advance l (c : ascii) (r : list ascii) :
  wf l -> addressable l -> unread l = c :: r -> stepped (advance c l).
Proof.
  intros Hw Ha Hu. split; [exact (wf_advance _ _ _ Hu)|].
  split; [exact Ha|]. intros _. exists (_it l).
  split; [reflexivity|exact (unread_lookup _ _ _ Hu)].
Qed.

Lemma stepped_end l : wf l -> addressable l -> stepped (set_last_char NUL l).
Proof.
  intros Hw Ha. split; [exact Hw|]. split; [exact Ha|]. intros [=].
Qed.

Lemma stepped_ready l : stepped l -> ready l.
Proof. intros (Hw & Ha & Hs). split; [|split]; auto. Qed.

(** [readchar] and what follows it, by the three cases of [readchar]. *)
Lemma safe_readchar_cases {A} (k : ascii -> M A) (Q : A -> Lexer -> Prop) l :
  wf l -> addressable l ->
  (forall c r, eof l = false -> unread l = c :: r ->
     safe (k c) Q (advance c l)) ->
  (eof l = false -> _it l = length (_source l) ->
     safe (k NUL) Q (set_last_char NUL l)) ->
  safe (bind readchar k) Q l.
Proof.
  intros Hw Ha Hc Hn. unfold safe, bind. destruct (eof l) eqn:He.
  - rewrite (readchar_eof l He). split; [apply expected_crash|].
    split; [exact Hw|]. split; [exact Ha|]. intros H. congruence.
  - destruct (unread l) as [|c r] eqn:Hu.
    + rewrite (readchar_nil l He (unread_nil l Hw Hu)).
      exact (Hn eq_refl (unread_nil l Hw Hu)).
    + rewrite (readchar_cons l c r He Hu). exact (Hc c r eq_refl eq_refl).
Qed.

Lemma safe_readchar_then {A} (k : ascii -> M A) (Q : A -> Lexer -> Prop) l :
  stepped l ->
  (forall l', stepped l' -> safe (k (_last_char l')) Q l') ->
  safe (bind readchar k) Q l.
Proof.
  intros (Hw & Ha & _) Hk. apply safe_readchar_cases; [exact Hw|exact Ha| |].
  - intros c r _ Hu. exact (Hk _ (stepped_advance l c r Hw Ha Hu)).
  - intros _ _. exact (Hk _ (stepped_end l Hw Ha)).
Qed.

Lemma served_End (ln cl : N) l : stepped l -> served (mkToken End ln cl) l.
Proof. intros H. split; [exact H|]. split; discriminate. Qed.

Lemma safe_End_if_eof (P : Lexer -> Prop) l :
  stepped l -> (eof l = false -> P l) -> safe End_if_eof (staged P) l.
Proof.
  intros Hs Hp. unfold safe, End_if_eof. destruct (eof l).
  - now apply served_End.
  - now apply Hp.
Qed.

Lemma safe_readchars (k : nat) l :
  stepped l ->
  safe (readchars k) (fun _ l' => stepped l' /\ (k = 0%nat -> l' = l)) l.
Proof.
  revert l. induction k as [|k IH]; intros l Hs; cbn [readchars].
  - safe_simple. split; [exact Hs|reflexivity].
  - apply safe_readchar_then; [exact Hs|]. intros l' Hs'.
    eapply safe_conseq; [exact (IH l' Hs')|].
    intros ? l2 [H _]. split; [exact H|intros [=]].
Qed.

Lemma safe_run_body (p : ascii -> bool) l :
  stepped l ->
  safe (run_body p) (fun c l' => match c with
                                 | Continue => stepped l'
                                 | Break => stepped l'
                                 | Return t => False
                                 end) l.
Proof.
  intros Hs. unfold run_body. safe_simple.
  apply safe_readchar_then; [exact Hs|]. intros l' Hs'. safe_simple.
  destruct (p _); exact Hs'.
Qed.

(** The entries of the table that give [Divide] and [AssignDivide] start
    with [/]. *)
Lemma find_match_slash (peek pat : list ascii) (ty : TokenType) :
  find_match peek basic_matches = Some (pat, ty) ->
  ty = Divide \/ ty = AssignDivide ->
  exists p, peek = "/"%char :: p.
Proof.
  intros Hf Hty. destruct (find_match_prefix _ _ _ _ Hf) as [Hin E].
  assert (Hall : Forall (fun e => snd e = Divide \/ snd e = AssignDivide ->
                                  exists p, fst e = "/"%char :: p)
                        basic_matches).
  { unfold basic_matches.
    repeat (constructor;
            [intros [H|H]; first [discriminate H|eexists; reflexivity]|]).
    constructor. }
  rewrite Forall_forall in Hall.
  destruct (Hall _ Hin Hty) as [p Hp]. cbn in Hp. subst pat.
  destruct peek as [|c peek]; [discriminate E|]. cbn in E.
  injection E as -> _. eauto.
Qed.

Lemma safe_comment (n : nat) (again : M Token) (tl tc : N) l :
  stepped l -> eof l = false ->
  (forall l', stepped l' -> safe again served l') ->
  safe (comment n again tl tc) (staged peeking) l.
Proof.
  intros Hs He Hag. destruct Hs as (Hw & Ha & Hi).
  destruct (Hi He) as (i & Hit & Hl).
  unfold comment. safe_simple.
  destruct (Ascii.eqb (_last_char l) "/") eqn:Hc.
  - apply safe_readchar_cases; [exact Hw|exact Ha| |].
    + intros c r _ Hu. safe_simple. cbn [_last_char advance].
      assert (Hs1 := stepped_advance l c r Hw Ha Hu).
      destruct (Ascii.eqb c "/") eqn:H1; [|destruct (Ascii.eqb c "*") eqn:H2].
      * apply safe_bind. eapply safe_conseq.
        { apply (safe_iterate n line_comment_body stepped
                   (fun _ l' => stepped l' /\
                                is_line_end (_last_char l') = true));
            [|exact Hs1].
          intros l1 Hl1. unfold line_comment_body.
          apply safe_readchar_then; [exact Hl1|]. intros l2 Hl2.
          safe_simple. destruct (is_line_end (_last_char l2));
            [split; [exact Hl2|reflexivity]|exact Hl2]. }
        intros ? l3 [Hs3 Hle]. safe_simple.
        destruct (eof l3) eqn:He3; safe_simple.
        -- now apply served_End.
        -- split; [exact Hs3|]. destruct Hs3 as (_ & _ & Hi3).
           destruct (Hi3 He3) as (j & Hj & Hlj). exists j.
           split; [exact Hj|]. intros H. rewrite Hlj in H.
           injection H as H. rewrite H in Hle. discriminate Hle.
      * apply safe_bind. eapply safe_conseq.
        { apply (safe_iterate n (block_comment_body n tl tc) stepped
                   (fun _ l' => stepped l')); [|exact Hs1].
          intros l1 Hl1. unfold block_comment_body. apply safe_bind.
          eapply safe_conseq.
          { apply (safe_iterate n (block_comment_inner tl tc) stepped
                     (fun _ l' => stepped l')); [|exact Hl1].
            intros l2 Hl2. unfold block_comment_inner.
            apply safe_readchar_then; [exact Hl2|]. intros l3 Hl3.
            destruct (Ascii.eqb (_last_char l3) "*"); safe_simple;
              [exact Hl3|].
            destruct (eof l3); [|safe_simple; exact Hl3].
            apply safe_throw; [repeat constructor|exact Hl3]. }
          intros ? l2 Hl2. apply safe_readchar_then; [exact Hl2|].
          intros l3 Hl3. safe_simple.
          destruct (Ascii.eqb (_last_char l3) "/"); exact Hl3. }
        intros ? l4 Hs4. apply safe_bind.
        eapply safe_conseq; [exact (Hag l4 Hs4)|].
        intros t l5 H5. safe_simple. exact H5.
      * safe_simple. split; [exact Hs1|]. exists (_it l).
        split; [reflexivity|]. intros H. cbn in H.
        rewrite (unread_lookup _ _ _ Hu) in H. injection H as ->.
        discriminate H1.
    + intros _ Hend. safe_simple. cbn [_last_char set_last_char].
      cbn [Ascii.eqb Bool.eqb NUL]. cbv beta iota. safe_simple.
      split; [exact (stepped_end l Hw Ha)|]. exists i.
      split; [exact Hit|]. intros _. split; [reflexivity|].
      unfold unread. cbn. rewrite Hend. apply drop_all.
  - safe_simple. split; [split; [exact Hw|split; [exact Ha|exact Hi]]|].
    exists i. split; [exact Hit|]. intros H. rewrite Hl in H.
    injection H as H. rewrite H in Hc. discriminate Hc.
Qed.

Lemma safe_string_literal (n : nat) (tl tc : N) l :
  peeking l -> safe (string_literal n tl tc) (staged peeking) l.
Proof.
  intros Hp. unfold string_literal. safe_simple.
  destruct (_ || _); [|safe_simple; exact Hp]. safe_simple.
  apply safe_bind. eapply safe_conseq.
  { apply (safe_iterate n (string_body (_last_char l) tl tc) stepped
             (fun o l' => stepped l' /\
                          forall t, o = Some t -> type t = End));
      [|exact (proj1 Hp)].
    intros l1 Hl1. unfold string_body.
    apply safe_readchar_then; [exact Hl1|]. intros l2 Hl2.
    destruct (Ascii.eqb (_last_char l2) (_last_char l)); safe_simple;
      [split; [exact Hl2|intros t [=]]|].
    destruct (Ascii.eqb (_last_char l2) BACKSLASH).
    - apply safe_readchar_then; [exact Hl2|]. intros l3 Hl3. safe_simple.
      destruct (eof l3); safe_simple;
        [split; [exact Hl3|intros t [= <-]; reflexivity]|].
      destruct (Ascii.eqb (_last_char l3) (_last_char l));
        [|destruct (Ascii.eqb (_last_char l3) "n");
          [|destruct (Ascii.eqb (_last_char l3) "#")]];
        safe_simple; exact Hl3.
    - destruct (Ascii.eqb (_last_char l2) "#"); safe_simple; exact Hl2. }
  intros [t|] l' [Hs' Ht]; safe_simple.
  - split; [exact Hs'|]. rewrite (Ht t eq_refl). split; discriminate.
  - split; [exact Hs'|]. split; discriminate.
Qed.

Lemma safe_hex_color (tl tc : N) l :
  peeking l -> safe (hex_color tl tc) (staged peeking) l.
Proof.
  intros Hp. unfold hex_color. safe_simple.
  destruct (Ascii.eqb (_last_char l) "$"); [|safe_simple; exact Hp].
  apply safe_throw; [repeat constructor|exact (proj1 Hp)].
Qed.

Lemma safe_fixed_pattern (tl tc : N) l :
  peeking l -> safe (fixed_pattern tl tc) (staged stepped) l.
Proof.
  intros [Hs (i & Hi & Hsl)]. assert (Hs0 := Hs).
  destruct Hs as (Hw & Ha & _).
  assert (Hlt : (i < length (_source l))%nat) by (unfold wf in Hw; lia).
  destruct (lookup_lt_is_Some_2 _ _ Hlt) as [c Hl].
  assert (Hpeek := peekstr_at l i c (unread l) Hw Ha Hi Hl eq_refl).
  unfold fixed_pattern. apply safe_bind. unfold safe at 1. rewrite Hpeek.
  destruct (find_match _ basic_matches) as [[pat ty]|] eqn:Hf;
    [|safe_simple; exact Hs0].
  apply safe_bind. eapply safe_conseq; [exact (safe_readchars _ l Hs0)|].
  intros ? l' [Hs' Hk]. safe_simple. split; [exact Hs'|]. cbn [type].
  assert (Hdiv : ty = Divide \/ ty = AssignDivide ->
                 pat = ["/"%char] /\ ty = Divide /\ eof l = true).
  { intros Hty. destruct (find_match_slash _ _ _ Hf Hty) as [p Hp].
    cbn in Hp. injection Hp as -> _.
    destruct (Hsl Hl) as [He Hu]. rewrite Hu in Hf.
    vm_compute in Hf. injection Hf as <- <-.
    split; [reflexivity|]. split; [reflexivity|exact He]. }
  split.
  - intros ->. destruct Hdiv as (_ & H & _); [now right|discriminate H].
  - intros ->. destruct Hdiv as (-> & _ & He); [now left|].
    rewrite (Hk eq_refl). exact He.
Qed.

Lemma safe_valued (n : nat) (tl tc : N) l :
  stepped l -> safe (valued n tl tc) served l.
Proof.
  intros Hs. unfold valued. safe_simple.
  apply (safe_stage _ _ stepped).
  { unfold real_literal. safe_simple.
    destruct (is_numeral _); [|safe_simple; exact Hs].
    apply safe_bind. eapply safe_conseq.
    { apply (safe_iterate n numeral_body stepped (fun _ l' => stepped l'));
        [|exact Hs].
      intros l1 Hl1. eapply safe_conseq; [exact (safe_run_body _ l1 Hl1)|].
      intros [| |t] l2 H; exact H || destruct H. }
    intros ? l' Hs'. safe_simple. split; [exact Hs'|]. split; discriminate. }
  intros l1 Hs1. apply (safe_stage _ _ stepped).
  { unfold identifier. safe_simple.
    destruct (is_identifier_begin _); [|safe_simple; exact Hs1].
    apply safe_bind. eapply safe_conseq.
    { apply (safe_iterate n identifier_body stepped (fun _ l' => stepped l'));
        [|exact Hs1].
      intros l2 Hl2. eapply safe_conseq; [exact (safe_run_body _ l2 Hl2)|].
      intros [| |t] l3 H; exact H || destruct H. }
    intros ? l' Hs'. safe_simple. split; [exact Hs'|]. split; discriminate. }
  intros l2 Hs2. apply safe_throw; [repeat constructor|exact Hs2].
Qed.

Lemma safe_dispatch (n : nat) (again : M Token) l :
  stepped l -> eof l = false ->
  (forall l', stepped l' -> safe again served l') ->
  safe (dispatch n again) served l.
Proof.
  intros Hs He Hag. unfold dispatch. safe_simple.
  apply (safe_stage _ _ peeking); [now apply safe_comment|].
  intros l1 H1. apply (safe_stage _ _ peeking);
    [now apply safe_string_literal|].
  intros l2 H2. apply (safe_stage _ _ peeking); [now apply safe_hex_color|].
  intros l3 H3. apply (safe_stage _ _ stepped);
    [now apply safe_fixed_pattern|].
  intros l4 H4. now apply safe_valued.
Qed.

Lemma safe_readtok (n : nat) l : ready l -> safe (readtok n) served l.
Proof.
  revert l. induction n as [|n IH]; intros l Hr; [exact I|].
  rewrite readtok_S. destruct (eof l) eqn:He; destruct Hr as (Hw & Ha & Hi).
  { unfold safe, stage, bind, End_if_eof. rewrite He.
    apply served_End. split; [exact Hw|]. split; [exact Ha|].
    intros H. change (eof l = false) in H. congruence. }
  apply (safe_stage _ _ (fun l' => l' = l)).
  { unfold safe, End_if_eof. now rewrite He. }
  intros ? ->.
  apply (safe_stage _ _ (fun l' => stepped l' /\ eof l' = false)).
  { unfold skip_parsed. safe_simple.
    destruct (_current_parsed l) eqn:Hp.
    - apply safe_readchar_cases; [exact Hw|exact Ha| |].
      + intros c r _ Hu. assert (Hs1 := stepped_advance l c r Hw Ha Hu).
        apply safe_End_if_eof; [exact Hs1|]. intros H. split; assumption.
      + intros _ _. apply safe_End_if_eof; [exact (stepped_end l Hw Ha)|].
        intros H. discriminate H.
    - safe_simple. split; [|exact He].
      split; [exact Hw|]. split; [exact Ha|]. intros _. exact (Hi eq_refl He). }
  intros l1 [Hs1 He1].
  apply (safe_stage _ _ (fun l' => stepped l' /\ eof l' = false)).
  { eapply safe_conseq.
    { apply (safe_iterate n whitespace_body
               (fun l' => stepped l' /\ eof l' = false)
               (staged (fun l' => stepped l' /\ eof l' = false)));
        [|split; assumption].
      intros l2 [Hs2 He2]. unfold whitespace_body. safe_simple.
      destruct (is_whitespace _); [|safe_simple; split; assumption].
      apply safe_readchar_then; [exact Hs2|]. intros l3 Hs3.
      apply safe_bind.
      eapply safe_conseq;
        [apply (safe_End_if_eof (fun l' => stepped l' /\ eof l' = false));
         [exact Hs3|intros H; split; assumption]|].
      intros [t|] l4 H; safe_simple; exact H. }
    intros o l' H. exact H. }
  intros l2 [Hs2 He2]. apply safe_dispatch; [exact Hs2|exact He2|].
  intros l' Hs'. apply IH. now apply stepped_ready.
Qed.

Lemma ready_new (source : list ascii) :
  (Z.of_nat (length source) < 2 ^ 64)%Z -> ready (Lexer_new source).
Proof.
  intros H. split; [unfold wf; simpl; lia|]. split; [exact H|]. intros [=].
Qed.

(** Every lexer that a program can get to, on a source within the range
    of [size_t], is ready for a call of [readtok]. *)
Lemma reachable_ready l : reachable l -> addressable l -> ready l.
Proof.
  induction 1 as [source|l l' fuel t Hr IH E|l l' fuel e Hr IH E]; intros Ha.
  - now apply ready_new.
  - assert (Hk := keeps_readtok fuel l). rewrite E in Hk.
    destruct Hk as [Hsrc _].
    assert (Ha' : addressable l)
      by (unfold addressable in *; now rewrite <- Hsrc).
    assert (Hs := safe_readtok fuel l (IH Ha')). unfold safe in Hs.
    rewrite E in Hs. exact (stepped_ready _ (proj1 Hs)).
  - assert (Hk := keeps_readtok fuel l). rewrite E in Hk.
    destruct Hk as [Hsrc _].
    assert (Ha' : addressable l)
      by (unfold addressable in *; now rewrite <- Hsrc).
    assert (Hs := safe_readtok fuel l (IH Ha')). unfold safe in Hs.
    rewrite E in Hs. exact (stepped_ready _ (proj2 Hs)).
Qed.

(** X21: on a lexer that is ready for a call, as every lexer that a
    program can get to is, [readtok] never returns an [AssignDivide]
    token, and it returns a [Divide] token only when the look-ahead of
    the comment check has run into the end of the source, that is for a
    [/] that is the last character of the source: behind every other [/]
    the comment check has consumed the next character before the table of
    fixed patterns is tried.  The lexer is ready for the next call. *)
Theorem divide_only_at_end_of_source (fuel : nat) (l l' : Lexer)
    (t : Token) :
  ready l ->
  readtok fuel l = Ret t l' ->
  type t <> AssignDivide /\ (type t = Divide -> eof l' = true) /\ ready l'.
Proof.
  intros Hr E. assert (Hs := safe_readtok fuel l Hr).
  unfold safe in Hs. rewrite E in Hs. destruct Hs as (Hs & H1 & H2).
  split; [exact H1|]. split; [exact H2|exact (stepped_ready _ Hs)].
Qed.

Lemma divide_only_at_end_of_source_witness :
  ready divide_example_lexer /\
  readtok 4 divide_example_lexer =
    Ret (mkToken Divide 1 2) divide_read_example /\
  eof divide_read_example = true /\ ready divide_read_example.
Proof.
  assert (E : readtok 4 divide_example_lexer =
              Ret (mkToken Divide 1 2) divide_read_example)
    by (vm_compute; reflexivity).
  assert (Hr : ready divide_example_lexer)
    by (apply ready_new; vm_compute; reflexivity).
  split; [exact Hr|]. split; [exact E|].
  destruct (divide_only_at_end_of_source 4 _ _ _ Hr E) as (_ & H & Hr').
  split; [exact (H eq_refl)|exact Hr'].
Defined.

(** X22: on a lexer that is ready for a call, as every lexer that a
    program can get to is, every exception that [readtok] throws is a
    [LexerException] with one of the four messages of the lexer; the
    look-ahead [substr] never throws [out_of_range], because at least one
    character has been read whenever it is called.  The lexer is ready
    for the next call. *)
Theorem exceptions_are_lexer_exceptions (fuel : nat) (l l' : Lexer)
    (e : Exception) :
  ready l ->
  readtok fuel l = Throw e l' ->
  (exists msg ln cl,
     e = LexerException msg ln cl /\ msg ∈ lexer_messages) /\
  ready l'.
Proof.
  intros Hr E. assert (Hs := safe_readtok fuel l Hr).
  unfold safe in Hs. rewrite E in Hs. destruct Hs as [He Hs].
  split; [|exact (stepped_ready _ Hs)].
  destruct e as [msg ln cl|]; [|destruct He]. eauto.
Qed.

Lemma exceptions_are_lexer_exceptions_witness :
  ready hex_example /\
  readtok 4 hex_example =
    Throw (LexerException "Hex colors are a stub" 1 1) hex_thrown_example /\
  (exists msg ln cl,
     LexerException "Hex colors are a stub" 1 1 = LexerException msg ln cl /\
     msg ∈ lexer_messages) /\
  ready hex_thrown_example.
Proof.
  assert (E : readtok 4 hex_example =
              Throw (LexerException "Hex colors are a stub" 1 1)
                    hex_thrown_example)
    by (vm_compute; reflexivity).
  assert (Hr : ready hex_example)
    by (apply ready_new; vm_compute; reflexivity).
  split; [exact Hr|]. split; [exact E|].
  exact (exceptions_are_lexer_exceptions 4 _ _ _ Hr E).
Defined.

(** ** Strings and comments that are not closed *)

(** X23: a string literal that is not closed and that holds neither a
    backslash nor a null character makes [readtok] throw "Reached EOF
    (lexer crash)" from [readchar], with the line and column that the
    counters have at the end of the source; no [End] token is
    returned. *)
Theorem unterminated_string_throws (fuel : nat) (l : Lexer)
    (w : list ascii) (delim : ascii) (raw : list ascii) :
  before l (w ++ delim :: raw) -> blank w ->
  delim = DQUOTE \/ delim = SQUOTE ->
  Forall (fun c => Ascii.eqb c delim = false /\
                   Ascii.eqb c BACKSLASH = false /\
                   Ascii.eqb c NUL = false) raw ->
  (length w + length raw + 4 <= fuel)%nat ->
  exists l',
    readtok fuel l =
      Throw (LexerException "Reached EOF (lexer crash)" (_line l') (_col l'))
            l' /\
    eof l' = true.
Proof. exact (unterminated_string_crashes fuel l w delim raw). Qed.

Lemma unterminated_string_throws_witness :
  before unterminated_string_example ([] ++ SQUOTE :: chars "abc") /\
  exists l',
    readtok 7 unterminated_string_example =
      Throw (LexerException "Reached EOF (lexer crash)" (_line l') (_col l'))
            l' /\
    eof l' = true.
Proof.
  assert (Hb : before unterminated_string_example
                 ([] ++ SQUOTE :: chars "abc"))
    by (apply before_new; vm_compute; reflexivity).
  split; [exact Hb|].
  apply (unterminated_string_throws 7 unterminated_string_example []
           SQUOTE (chars "abc") Hb).
  - constructor.
  - right. reflexivity.
  - repeat constructor.
  - simpl. lia.
Defined.

(** X24: a multi-line comment that is not closed and whose text holds
    no [*] and no null character makes [readtok] throw "Multi-line
    comment reaches EOF" with the line and column of the comment's first
    character. *)
Theorem unterminated_comment_throws (fuel : nat) (l : Lexer)
    (w body : list ascii) :
  before l (w ++ chars "/*" ++ body) -> blank w ->
  Forall (fun c => Ascii.eqb c "*" = false /\ Ascii.eqb c NUL = false) body ->
  (length w + length body + 5 <= fuel)%nat ->
  exists l',
    readtok fuel l =
      Throw (LexerException "Multi-line comment reaches EOF"
               (_line l) (token_col l w)) l'.
Proof.
  intros Hb Hw Hall Hn.
  exact (proj1 (unterminated_comment_general fuel l w body Hw Hall Hn) Hb).
Qed.

Lemma unterminated_comment_throws_witness :
  before unterminated_comment_example ([] ++ chars "/*" ++ chars " ab") /\
  exists l',
    readtok 8 unterminated_comment_example =
      Throw (LexerException "Multi-line comment reaches EOF" 1 1) l'.
Proof.
  assert (Hb : before unterminated_comment_example
                 ([] ++ chars "/*" ++ chars " ab"))
    by (apply before_new; vm_compute; reflexivity).
  split; [exact Hb|].
  apply (unterminated_comment_throws 8 unterminated_comment_example []
           (chars " ab") Hb).
  - constructor.
  - repeat constructor.
  - simpl. lia.
Defined.

(** X25: a multi-line comment whose text holds no [*] and that the
    source ends right behind its first [*]: the test for the closing [/]
    reads the end of the source without looking at [eof()], and the call
    of [readchar] after it throws "Reached EOF (lexer crash)" with the
    line and column of the end of the source, not the error of the
    comment. *)
Theorem comment_ending_in_star_throws (fuel : nat) (l : Lexer)
    (w body : list ascii) :
  before l (w ++ chars "/*" ++ body ++ chars "*") -> blank w ->
  Forall (fun c => Ascii.eqb c "*" = false /\ Ascii.eqb c NUL = false) body ->
  (length w + length body + 5 <= fuel)%nat ->
  exists l',
    readtok fuel l =
      Throw (LexerException "Reached EOF (lexer crash)" (_line l') (_col l'))
            l' /\
    eof l' = true.
Proof.
  intros Hb Hw Hall Hn.
  exact (proj2 (unterminated_comment_general fuel l w body Hw Hall Hn) Hb).
Qed.

Lemma comment_ending_in_star_throws_witness :
  before comment_star_example
         ([] ++ chars "/*" ++ chars " " ++ chars "*") /\
  exists l',
    readtok 8 comment_star_example =
      Throw (LexerException "Reached EOF (lexer crash)" (_line l') (_col l'))
            l' /\
    eof l' = true.
Proof.
  assert (Hb : before comment_star_example
                 ([] ++ chars "/*" ++ chars " " ++ chars "*"))
    by (apply before_new; vm_compute; reflexivity).
  split; [exact Hb|].
  apply (comment_ending_in_star_throws 8 comment_star_example []
           (chars " ") Hb).
  - constructor.
  - repeat constructor.
  - simpl. lia.
Defined.

(** ** Character classes *)

(** X26: the character classes that [readtok] dispatches on do not
    overlap: a blank is no line end, neither of them is a numeral or an
    identifier character, and no numeral character starts an identifier;
    an identifier character is one that starts an identifier, or a digit;
    no class holds a byte above 127. *)
Theorem character_classes_disjoint (c : ascii) :
  is_whitespace c && is_line_end c = false /\
  (is_whitespace c || is_line_end c) && (is_numeral c || is_identifier c)
    = false /\
  is_numeral c && is_identifier_begin c = false /\
  is_identifier c = is_identifier_begin c || is_digit c /\
  (128 <=? N_of_ascii c)%N &&
    (is_whitespace c || is_line_end c || is_numeral c || is_identifier c)
    = false.
Proof. destruct c as [[] [] [] [] [] [] [] []]; repeat split. Qed.

(** ** The call stack *)

Lemma readtok_frames_S (d fuel : nat) :
  readtok_frames (S d) fuel =
  stage End_if_eof
    (stage skip_parsed
       (stage (iterate fuel whitespace_body)
          (dispatch fuel (readtok_frames d fuel)))).
Proof. reflexivity. Qed.

#[local] Arguments readtok_frames : simpl never.

(** The start of a call that reads the next character. *)
Lemma frames_read (fuel : nat) (k : M Token) l (c : ascii) (r : list ascii) :
  eof l = false -> _current_parsed l = true ->
  unread l = c :: r -> Ascii.eqb c NUL = false ->
  stage End_if_eof (stage skip_parsed (stage (iterate fuel whitespace_body) k))
        l =
  stage (iterate fuel whitespace_body) k (advance c l).
Proof.
  intros He Hp Hu Hc.
  unfold stage at 1, bind at 1, End_if_eof at 1. rewrite He.
  unfold stage at 1, bind at 1, skip_parsed, bind at 1, get.
  rewrite Hp. unfold bind at 1. rewrite (readchar_cons l c r He Hu).
  unfold End_if_eof, eof. cbn [_last_char advance]. now rewrite Hc.
Qed.

(** The start of a call at the end of the source. *)
Lemma frames_end (fuel : nat) (k : M Token) l :
  eof l = false -> _current_parsed l = true ->
  _it l = length (_source l) ->
  stage End_if_eof (stage skip_parsed (stage (iterate fuel whitespace_body) k))
        l =
  Ret (End_token l) (set_last_token (End_token l) (set_last_char NUL l)).
Proof.
  intros He Hp Hi.
  unfold stage at 1, bind at 1, End_if_eof at 1. rewrite He.
  unfold stage at 1, bind at 1, skip_parsed, bind at 1, get.
  rewrite Hp. unfold bind at 1. now rewrite (readchar_nil l He Hi).
Qed.

(** A call before an empty multi-line comment gives what the call of
    itself behind the comment gives. *)
Lemma frames_skip_comment (f : nat) (again : M Token) l
    (rest : list ascii) :
  eof l = false -> _current_parsed l = true ->
  unread l = chars "/**/" ++ rest ->
  stage End_if_eof
    (stage skip_parsed
       (stage (iterate (S f) whitespace_body) (dispatch (S f) again))) l =
  match again (advances (chars "/**/") l) with
  | Ret t l' => Ret t (set_last_token t l')
  | Throw e l' => Throw e l'
  | OutOfFuel => OutOfFuel
  end.
Proof.
  intros He Hp Hu.
  change (chars "/**/" ++ rest) with ("/" :: "*" :: "*" :: "/" :: rest)%char
    in Hu.
  rewrite (frames_read _ _ l "/" _ He Hp Hu eq_refl).
  assert (Hu1 := unread_advance _ _ _ Hu).
  assert (Hu2 := unread_advance _ _ _ Hu1).
  unfold stage at 1, bind at 1.
  rewrite iterate_S, whitespace_body_stop by reflexivity.
  rewrite (dispatch_block_comment (S f) again (advance "/" l) _ eq_refl
             eq_refl Hu1).
  rewrite iterate_S. cbv beta iota delta [block_comment_body bind].
  rewrite iterate_S,
    (block_comment_inner_star _ _ (advance "*" (advance "/" l)) _ eq_refl Hu2).
  rewrite (readchar_cons (advance "*" (advance "*" (advance "/" l))) _ _
             eq_refl (unread_advance _ _ _ Hu2)).
  reflexivity.
Qed.

(** On [d] comments one after the other the calls of [readtok] nest [d]
    deep: [d] frames are not enough, whatever the loop budget, and one
    frame more is. *)
Lemma frames_chain (d : nat) :
  forall (fuel : nat) l,
  eof l = false -> _current_parsed l = true -> wf l ->
  unread l = consecutive_comments d ->
  readtok_frames d fuel l = OutOfFuel /\
  ((1 <= fuel)%nat ->
   exists t l', readtok_frames (S d) fuel l = Ret t l' /\ type t = End).
Proof.
  induction d as [|d IH]; intros fuel l He Hp Hw Hu.
  - split; [reflexivity|]. intros _.
    rewrite readtok_frames_S, (frames_end _ _ l He Hp (unread_nil l Hw Hu)).
    do 2 eexists. split; reflexivity.
  - cbn [consecutive_comments] in Hu. destruct fuel as [|f].
    + split; [|lia]. rewrite readtok_frames_S.
      change (chars "/**/" ++ consecutive_comments d)
        with ("/" :: "*" :: "*" :: "/" :: consecutive_comments d)%char in Hu.
      now rewrite (frames_read _ _ l "/" _ He Hp Hu eq_refl).
    + destruct (advances_unread (chars "/**/") _ l Hw Hu) as [Hu4 Hw4].
      destruct (advances_fields (chars "/**/") l) as (_ & Hp4 & _).
      rewrite Hp in Hp4.
      destruct (IH (S f) (advances (chars "/**/") l) eq_refl Hp4 Hw4 Hu4)
        as [H1 H2].
      split.
      * rewrite readtok_frames_S, (frames_skip_comment f _ l _ He Hp Hu).
        now rewrite H1.
      * intros _. destruct (H2 ltac:(lia)) as (t & l' & E & Ht).
        rewrite readtok_frames_S, (frames_skip_comment f _ l _ He Hp Hu).
        rewrite E. eauto.
Qed.

(** For every number [d] of frames that the stack has room for, the
    source of [d] empty multi-line comments is one on which a call of
    [readtok] has no outcome, with any loop budget, where one frame more
    gives the [End] token. *)
Lemma consecutive_comments_need_frames (d fuel : nat) :
  readtok_frames d fuel (Lexer_new (consecutive_comments d)) = OutOfFuel /\
  ((1 <= fuel)%nat ->
   exists t l',
     readtok_frames (S d) fuel (Lexer_new (consecutive_comments d))
       = Ret t l' /\
     type t = End).
Proof.
  apply frames_chain.
  - reflexivity.
  - reflexivity.
  - unfold wf. simpl. lia.
  - unfold unread. cbn. apply drop_0.
Qed.

